(** * Hive-to-Snowflake converter: the translation engine and its specification

    A shallow embedding of the TypeScript sources

      - [src/converter/index.ts]  (class [HiveToSnowflakeConverter])
      - [src/converter/hivePatterns.ts]
      - [src/converter/transformers/dmlTransformer.ts]
      - [src/lib/converter.ts]    (class [HiveToSnowflakeConverter])

    Texts are sequences of 8-bit code units ([list ascii]); JavaScript
    regular expressions are kept as syntax trees and run by a backtracking
    matcher that follows the ECMAScript matching order (leftmost start,
    alternatives left to right, greedy and lazy quantifiers, an iteration
    that consumes nothing is rejected). *)

From Stdlib Require Import List Ascii Arith Lia Bool ZArith.
From Stdlib Require String.
Import ListNotations String.StringSyntax.
Abbreviation string := String.string.
Abbreviation list_ascii_of_string := String.list_ascii_of_string.
Open Scope string_scope.
Open Scope nat_scope.
Open Scope list_scope.

(** A string literal is read as the list of its characters. *)
Coercion list_ascii_of_string : string >-> list.

(* ================================================================ *)
(** ** JavaScript strings and regular expressions                     *)
(* ================================================================ *)

Module Js.

Definition text := list ascii.

(** *** Character classes *)

Definition code (a : ascii) : nat := nat_of_ascii a.

(** [\s] and [String.prototype.trim]: TAB, LF, VT, FF, CR, SP, NBSP. *)
Definition is_space (a : ascii) : bool :=
  ((9 <=? code a) && (code a <=? 13)) || (code a =? 32) || (code a =? 160).

(** Line terminators, excluded by [.] and looked at by [^] under [/m]. *)
Definition is_line_terminator (a : ascii) : bool :=
  (code a =? 10) || (code a =? 13).

Definition is_digit (a : ascii) : bool := (48 <=? code a) && (code a <=? 57).
Definition is_upper (a : ascii) : bool := (65 <=? code a) && (code a <=? 90).
Definition is_lower (a : ascii) : bool := (97 <=? code a) && (code a <=? 122).

(** [\w] *)
Definition is_word (a : ascii) : bool :=
  is_digit a || is_upper a || is_lower a || (code a =? 95).

Definition to_lower (a : ascii) : ascii :=
  if is_upper a then ascii_of_nat (code a + 32) else a.

Definition to_upper (a : ascii) : ascii :=
  if is_lower a then ascii_of_nat (code a - 32) else a.

(** a pattern character under the [i] flag *)
Definition ci (c a : ascii) : bool := Ascii.eqb (to_lower c) (to_lower a).

(** a pattern character without the [i] flag *)
Definition cs (c a : ascii) : bool := Ascii.eqb c a.

Definition any_char (_ : ascii) : bool := true.

(** [.] *)
Definition dot (a : ascii) : bool := negb (is_line_terminator a).

Fixpoint mem (a : ascii) (l : text) : bool :=
  match l with
  | [] => false
  | b :: t => Ascii.eqb b a || mem a t
  end.

(** [[^abc]] *)
Definition none_of (l : text) (a : ascii) : bool := negb (mem a l).

(** [[^\s]] and [[^\s(]]-like classes: no white space and none of [l] *)
Definition non_space_nor (l : text) (a : ascii) : bool :=
  negb (is_space a) && negb (mem a l).

(** *** Regular expressions *)

Inductive regex : Type :=
| Eps
| Chr (f : ascii -> bool)
| Seq (r1 r2 : regex)
| Alt (r1 r2 : regex)
| Star (greedy : bool) (r : regex)
| Group (i : nat) (r : regex)
| Bol                       (* ^ under the m flag *)
| Eos                       (* $ without the m flag *)
| WordB.                    (* \b *)

Definition Plus (r : regex) : regex := Seq r (Star true r).
Definition PlusLazy (r : regex) : regex := Seq r (Star false r).
Definition Opt (r : regex) : regex := Alt r Eps.

Fixpoint chars (cmp : ascii -> ascii -> bool) (w : text) : regex :=
  match w with
  | [] => Eps
  | c :: t => Seq (Chr (cmp c)) (chars cmp t)
  end.

(** a word of the pattern under the [i] flag, and without it *)
Definition kw (w : string) : regex := chars ci w.
Definition lit (w : string) : regex := chars cs w.

Fixpoint seqs (l : list regex) : regex :=
  match l with
  | [] => Eps
  | [r] => r
  | r :: t => Seq r (seqs t)
  end.

Fixpoint alts (l : list regex) : regex :=
  match l with
  | [] => Eps
  | [r] => r
  | r :: t => Alt r (alts t)
  end.

(** [\s+], [\s*], [\w+], [\d+] *)
Definition ws1 : regex := Plus (Chr is_space).
Definition ws0 : regex := Star true (Chr is_space).
Definition word1 : regex := Plus (Chr is_word).
Definition digits1 : regex := Plus (Chr is_digit).

(** *** The matcher

    [m r pre s c k] matches [r] at the front of [s]; [pre] is the text
    already passed, last character first; [c] holds the captures made so
    far, and [k] is what has to match afterwards.  The result is the text
    left after the whole match, with the captures.  A quantifier on a text
    of [n] characters iterates at most [n] times, since an iteration that
    consumes nothing is rejected. *)

Definition caps := list (nat * text).
Definition res := (text * caps)%type.
Definition cont := text -> text -> caps -> option res.

Definition bol_here (pre : text) : bool :=
  match pre with
  | [] => true
  | a :: _ => is_line_terminator a
  end.

Definition head_is_word (s : text) : bool :=
  match s with
  | [] => false
  | a :: _ => is_word a
  end.

(** The loop of a quantifier over a pattern matched by [m1]: at most [n]
    more iterations, each of which has to consume something. *)
Fixpoint star_loop (g : bool) (m1 : text -> text -> caps -> cont -> option res)
  (k : cont) (n : nat) (pre s : text) (c : caps) {struct n} : option res :=
  if g then
    match
      match n with
      | 0 => None
      | S n' =>
          m1 pre s c
            (fun pre' s' c' =>
               if length s' <? length s then star_loop g m1 k n' pre' s' c'
               else None)
      end
    with
    | Some x => Some x
    | None => k pre s c
    end
  else
    match k pre s c with
    | Some x => Some x
    | None =>
        match n with
        | 0 => None
        | S n' =>
            m1 pre s c
              (fun pre' s' c' =>
                 if length s' <? length s then star_loop g m1 k n' pre' s' c'
                 else None)
        end
    end.

Fixpoint m (r : regex) (pre s : text) (c : caps) (k : cont) {struct r}
  : option res :=
  match r with
  | Eps => k pre s c
  | Chr f =>
      match s with
      | a :: t => if f a then k (a :: pre) t c else None
      | [] => None
      end
  | Seq r1 r2 => m r1 pre s c (fun pre' s' c' => m r2 pre' s' c' k)
  | Alt r1 r2 =>
      match m r1 pre s c k with
      | Some x => Some x
      | None => m r2 pre s c k
      end
  | Star g r1 => star_loop g (m r1) k (length s) pre s c
  | Group i r1 =>
      m r1 pre s c
        (fun pre' s' c' => k pre' s' ((i, firstn (length s - length s') s) :: c'))
  | Bol => if bol_here pre then k pre s c else None
  | Eos => match s with [] => k pre s c | _ :: _ => None end
  | WordB => if xorb (head_is_word pre) (head_is_word s) then k pre s c else None
  end.

Definition done : cont := fun _ s c => Some (s, c).

(** A match anchored at the current position: its length and captures. *)
Definition match_here (r : regex) (pre s : text) : option (nat * caps) :=
  match m r pre s [] done with
  | Some (s', c) => Some (length s - length s', c)
  | None => None
  end.

Fixpoint cap (i : nat) (c : caps) : option text :=
  match c with
  | [] => None
  | (j, t) :: c' => if i =? j then Some t else cap i c'
  end.

(** [$1] in a replacement string: an unset group gives the empty text. *)
Definition grp (i : nat) (c : caps) : text :=
  match cap i c with Some t => t | None => [] end.

(** *** [RegExp.prototype.exec] without the [g] flag: the leftmost match *)

Record found : Type := Found
  { f_before : text;      (* text before the match *)
    f_match : text;       (* the matched text, [$&] *)
    f_after : text;       (* text after the match *)
    f_caps : caps }.

Fixpoint search (r : regex) (pre s : text) {struct s} : option found :=
  match match_here r pre s with
  | Some (n, c) => Some (Found (rev pre) (firstn n s) (skipn n s) c)
  | None =>
      match s with
      | [] => None
      | a :: t => search r (a :: pre) t
      end
  end.

Definition exec (r : regex) (s : text) : option found := search r [] s.

Definition test (r : regex) (s : text) : bool :=
  match exec r s with Some _ => true | None => false end.

(** *** [String.prototype.replace]

    The replacement is computed from the match: a callback, or a
    replacement string read by [expand]. *)

Definition replacer := found -> text.

Definition replace (r : regex) (f : replacer) (s : text) : text :=
  match exec r s with
  | Some x => f_before x ++ f x ++ f_after x
  | None => s
  end.

(** With the [g] flag: [skip] counts the characters of the last match that
    are still to be passed over. *)
Fixpoint replace_go (r : regex) (f : replacer) (pre : text) (skip : nat)
  (s : text) {struct s} : text :=
  match s with
  | [] =>
      match skip, match_here r pre [] with
      | 0, Some (_, c) => f (Found (rev pre) [] [] c)
      | _, _ => []
      end
  | a :: t =>
      match skip with
      | S k => replace_go r f (a :: pre) k t
      | 0 =>
          match match_here r pre s with
          | Some (0, c) =>
              f (Found (rev pre) [] s c) ++ a :: replace_go r f (a :: pre) 0 t
          | Some (S k, c) =>
              f (Found (rev pre) (firstn (S k) s) (skipn (S k) s) c)
                ++ replace_go r f (a :: pre) k t
          | None => a :: replace_go r f (a :: pre) 0 t
          end
      end
  end.

Definition replace_all (r : regex) (f : replacer) (s : text) : text :=
  replace_go r f [] 0 s.

(** The number of capture groups of a pattern. *)
Fixpoint ngroups (r : regex) : nat :=
  match r with
  | Seq r1 r2 | Alt r1 r2 => Nat.max (ngroups r1) (ngroups r2)
  | Star _ r1 => ngroups r1
  | Group i r1 => Nat.max i (ngroups r1)
  | _ => 0
  end.

Definition digit_val (a : ascii) : nat := code a - 48.

(** A replacement string: [$$], [$&], [$`], [$'], [$n] and [$nn]; a
    reference to a group the pattern does not have stays as written. *)
Fixpoint expand (n : nat) (t : text) (x : found) {struct t} : text :=
  match t with
  | [] => []
  | a :: t1 =>
      if Ascii.eqb a "$" then
        match t1 with
        | [] => [a]
        | b :: t2 =>
            if Ascii.eqb b "$" then "$"%char :: expand n t2 x
            else if Ascii.eqb b "&" then f_match x ++ expand n t2 x
            else if Ascii.eqb b "`" then f_before x ++ expand n t2 x
            else if Ascii.eqb b "'" then f_after x ++ expand n t2 x
            else if is_digit b then
              let d1 := digit_val b in
              match t2 with
              | c :: t3 =>
                  let d2 := 10 * d1 + digit_val c in
                  if is_digit c && (1 <=? d2) && (d2 <=? n)
                  then grp d2 (f_caps x) ++ expand n t3 x
                  else if (1 <=? d1) && (d1 <=? n)
                  then grp d1 (f_caps x) ++ expand n t2 x
                  else a :: expand n t1 x
              | [] =>
                  if (1 <=? d1) && (d1 <=? n)
                  then grp d1 (f_caps x)
                  else a :: expand n t1 x
              end
            else a :: expand n t1 x
        end
      else a :: expand n t1 x
  end.

(** [s.replace(r, 'template')] and its [g] variant *)
Definition replace_tpl (r : regex) (tpl : text) (s : text) : text :=
  replace r (expand (ngroups r) tpl) s.

Definition replace_all_tpl (r : regex) (tpl : text) (s : text) : text :=
  replace_all r (expand (ngroups r) tpl) s.

(** *** [String.prototype.match] with the [g] flag: all matched texts *)

Fixpoint match_go (r : regex) (pre : text) (skip : nat) (s : text)
  {struct s} : list text :=
  match s with
  | [] =>
      match skip, match_here r pre [] with
      | 0, Some _ => [[]]
      | _, _ => []
      end
  | a :: t =>
      match skip with
      | S k => match_go r (a :: pre) k t
      | 0 =>
          match match_here r pre s with
          | Some (0, _) => [] :: match_go r (a :: pre) 0 t
          | Some (S k, _) => firstn (S k) s :: match_go r (a :: pre) k t
          | None => match_go r (a :: pre) 0 t
          end
      end
  end.

Definition match_all (r : regex) (s : text) : list text := match_go r [] 0 s.

(** *** [String.prototype.split] with a regular expression

    [cur] is the piece being collected, last character first.  A match of
    length 0 right after the last separator is not a separator. *)
Fixpoint split_go (r : regex) (pre cur : text) (skip : nat) (s : text)
  {struct s} : list text :=
  match s with
  | [] => [rev cur]
  | a :: t =>
      match skip with
      | S k => split_go r (a :: pre) cur k t
      | 0 =>
          match match_here r pre s with
          | Some (0, _) =>
              match cur with
              | [] => split_go r (a :: pre) [a] 0 t
              | _ :: _ => rev cur :: split_go r (a :: pre) [a] 0 t
              end
          | Some (S k, _) => rev cur :: split_go r (a :: pre) [] k t
          | None => split_go r (a :: pre) (a :: cur) 0 t
          end
      end
  end.

Definition split (r : regex) (s : text) : list text := split_go r [] [] 0 s.

(** [s.split(',')]: a separator given as a non-empty string *)
Definition split_str (sep : string) (s : text) : list text := split (lit sep) s.

(** *** Other string methods *)

Fixpoint trim_start (s : text) : text :=
  match s with
  | a :: t => if is_space a then trim_start t else s
  | [] => []
  end.

Definition trim (s : text) : text := rev (trim_start (rev (trim_start s))).

Fixpoint starts_with (w s : text) : bool :=
  match w, s with
  | [], _ => true
  | c :: w', a :: s' => Ascii.eqb c a && starts_with w' s'
  | _ :: _, [] => false
  end.

Fixpoint includes (w s : text) : bool :=
  starts_with w s ||
  match s with
  | [] => false
  | _ :: t => includes w t
  end.

Fixpoint join (sep : text) (l : list text) : text :=
  match l with
  | [] => []
  | [x] => x
  | x :: t => x ++ sep ++ join sep t
  end.

Definition nonempty (s : text) : bool :=
  match s with [] => false | _ :: _ => true end.

(** [parts[parts.length - 1]] of a non-empty array *)
Definition last_of (l : list text) : text := last l [].

(** [parts[0]] of a non-empty array *)
Definition first_of (l : list text) : text := hd [] l.

End Js.

Import Js.

(** Characters that cannot be written inside a string literal here. *)
Definition LF : ascii := "010"%char.
Definition DQUOTE : ascii := "034"%char.
Definition nl : text := [LF].

(* ================================================================ *)
(** ** [src/types/sql.ts]                                             *)
(* ================================================================ *)

(** [ConversionResult]: optional fields are [option]s. *)
Record ConversionResult : Type := Result
  { success : bool;
    sql : option text;
    warnings : option (list text);
    errors : option (list text) }.

(** What a call into code outside the repository does: it returns a
    value or throws an [Error] with a message. *)
Inductive outcome : Type :=
| Returned (t : text)
| Thrown (message : text).

(* ================================================================ *)
(** ** [src/converter/index.ts], class [HiveToSnowflakeConverter]     *)
(* ================================================================ *)

Module Index.

(** [preprocessSQL] *)
Definition re_set_statement : regex :=          (* /^SET\s+[^;]+;/gm *)
  seqs [Bol; lit "SET"; ws1; Plus (Chr (none_of ";")); lit ";"].
Definition re_hint : regex :=
  (* /\/\*\+\s*(?:MAPJOIN|STREAMTABLE|BROADCAST)\([^)]*\)\s*\*\//g *)
  seqs [lit "/*+"; ws0; alts [lit "MAPJOIN"; lit "STREAMTABLE"; lit "BROADCAST"];
        lit "("; Star true (Chr (none_of ")")); lit ")"; ws0; lit "*/"].
Definition re_marker : regex :=                 (* /--\s*#####/g *)
  seqs [lit "--"; ws0; lit "#####"].

Definition preprocessSQL (sql : text) : text :=
  let sql := replace_all_tpl re_set_statement "" sql in
  let sql := replace_all_tpl re_hint "" sql in
  let sql := replace_all_tpl re_marker "--" sql in
  sql.

(** [splitStatements]: the local variables of the loop. *)
Record scanner : Type := Scanner
  { statements : list text;
    currentStatement : text;
    inString : bool;
    stringChar : option ascii;        (* [None] is the initial [''] *)
    inComment : bool;
    inMultilineComment : bool;
    depth : Z }.

Definition scanner0 : scanner := Scanner [] [] false None false false 0%Z.

Definition is_some_char (c : ascii) (o : option ascii) : bool :=
  match o with Some a => Ascii.eqb a c | None => false end.

(** One turn of the loop body on [char = sql[i]] with
    [nextChar = sql[i + 1] || ''].  The boolean tells whether the body ran
    [i++], so that the character after [char] is passed over. *)
Definition scan_char (st : scanner) (char : ascii) (nextChar : option ascii)
  : scanner * bool :=
  let '(Scanner stmts cur inStr strCh inCom inMulti dep) := st in
  (* Handle string literals *)
  let '(inStr, strCh) :=
    if (Ascii.eqb char "'" || Ascii.eqb char DQUOTE) && negb inCom && negb inMulti
    then
      if negb inStr then (true, Some char)
      else if is_some_char char strCh then (false, strCh)
      else (inStr, strCh)
    else (inStr, strCh) in
  (* Handle comments: (inComment, inMultilineComment, i++, continue) *)
  let '(inCom, inMulti, skip, continue) :=
    if negb inStr then
      if Ascii.eqb char "-" && is_some_char "-" nextChar
      then (true, inMulti, false, false)
      else if Ascii.eqb char "/" && is_some_char "*" nextChar
      then (inCom, true, true, false)
      else if Ascii.eqb char "*" && is_some_char "/" nextChar && inMulti
      then (inCom, false, true, true)
      else if Ascii.eqb char LF && inCom
      then (false, inMulti, false, false)
      else (inCom, inMulti, false, false)
    else (inCom, inMulti, false, false) in
  if continue then (Scanner stmts cur inStr strCh inCom inMulti dep, skip)
  else
    (* Handle parentheses *)
    let dep :=
      if negb inStr && negb inCom && negb inMulti then
        let dep := if Ascii.eqb char "(" then (dep + 1)%Z else dep in
        let dep := if Ascii.eqb char ")" then (dep - 1)%Z else dep in
        dep
      else dep in
    (* Handle statement separation *)
    if Ascii.eqb char ";" && negb inStr && negb inCom && negb inMulti
       && (dep =? 0)%Z
    then
      let stmts :=
        if nonempty (trim cur) then stmts ++ [trim cur] else stmts in
      (Scanner stmts [] inStr strCh inCom inMulti dep, skip)
    else
      (Scanner stmts (cur ++ [char]) inStr strCh inCom inMulti dep, skip).

(** The [for] loop from index [i] on; [s] is [sql.slice(i)]. *)
Fixpoint scan_from (st : scanner) (s : text) {struct s} : scanner :=
  match s with
  | [] => st
  | char :: rest =>
      let '(st', skip) := scan_char st char (hd_error rest) in
      match skip, rest with
      | true, _ :: rest' => scan_from st' rest'
      | _, _ => scan_from st' rest
      end
  end.

Definition splitStatements (sql : text) : list text :=
  let st := scan_from scanner0 sql in
  let stmts :=
    if nonempty (trim (currentStatement st))
    then statements st ++ [trim (currentStatement st)]
    else statements st in
  filter (fun stmt => 0 <? length stmt) stmts.

(** [convertDataTypes] *)
Definition re_complex (name : string) : regex :=  (* /ARRAY\s*<[^>]+>/gi *)
  seqs [kw name; ws0; lit "<"; Plus (Chr (none_of ">")); lit ">"].

Definition convertDataTypes (sql : text) : text :=
  let sql := replace_all_tpl (kw "STRING") "VARCHAR" sql in
  let sql := replace_all_tpl (Alt (kw "INT") (kw "INTEGER")) "NUMBER(38,0)" sql in
  let sql := replace_all_tpl (kw "BIGINT") "NUMBER(38,0)" sql in
  let sql := replace_all_tpl (kw "SMALLINT") "NUMBER(5,0)" sql in
  let sql := replace_all_tpl (kw "TINYINT") "NUMBER(3,0)" sql in
  let sql := replace_all_tpl (kw "DOUBLE") "DOUBLE" sql in
  let sql := replace_all_tpl (kw "FLOAT") "FLOAT" sql in
  let sql := replace_all_tpl (kw "BOOLEAN") "BOOLEAN" sql in
  let sql := replace_all_tpl (kw "BINARY") "BINARY" sql in
  let sql := replace_all_tpl (kw "TIMESTAMP") "TIMESTAMP_NTZ" sql in
  let sql := replace_all_tpl (kw "DATE") "DATE" sql in
  let sql :=
    replace_all_tpl
      (seqs [kw "DECIMAL("; Group 1 (Plus (Chr (none_of ")"))); lit ")"])
      "NUMBER($1)" sql in
  let sql := replace_all_tpl (re_complex "ARRAY") "ARRAY" sql in
  let sql := replace_all_tpl (re_complex "MAP") "OBJECT" sql in
  let sql := replace_all_tpl (re_complex "STRUCT") "OBJECT" sql in
  sql.

(** [convertCreateTable] *)
Definition re_create_header : regex :=
  (* /CREATE\s+(?:EXTERNAL\s+)?TABLE\s+(?:IF\s+NOT\s+EXISTS\s+)?(\w+)/i *)
  seqs [kw "CREATE"; ws1; Opt (Seq (kw "EXTERNAL") ws1); kw "TABLE"; ws1;
        Opt (seqs [kw "IF"; ws1; kw "NOT"; ws1; kw "EXISTS"; ws1]);
        Group 1 word1].
Definition re_partitioned_by : regex :=   (* /PARTITIONED\s+BY\s*\(([^)]+)\)/i *)
  seqs [kw "PARTITIONED"; ws1; kw "BY"; ws0; lit "(";
        Group 1 (Plus (Chr (none_of ")"))); lit ")"].
Definition re_partitioned_by' : regex :=  (* /PARTITIONED\s+BY\s*\([^)]+\)/i *)
  seqs [kw "PARTITIONED"; ws1; kw "BY"; ws0; lit "(";
        Plus (Chr (none_of ")")); lit ")"].
Definition re_clustered_by : regex :=     (* /CLUSTERED\s+BY\s*\(([^)]+)\)/i *)
  seqs [kw "CLUSTERED"; ws1; kw "BY"; ws0; lit "(";
        Group 1 (Plus (Chr (none_of ")"))); lit ")"].
Definition re_clustered_into : regex :=
  (* /CLUSTERED\s+BY\s*\([^)]+\)\s+INTO\s+\d+\s+BUCKETS/i *)
  seqs [kw "CLUSTERED"; ws1; kw "BY"; ws0; lit "(";
        Plus (Chr (none_of ")")); lit ")"; ws1; kw "INTO"; ws1; digits1; ws1;
        kw "BUCKETS"].
Definition re_stored_as : regex :=        (* /STORED\s+AS\s+\w+/gi *)
  seqs [kw "STORED"; ws1; kw "AS"; ws1; word1].
Definition re_row_format : regex :=       (* /ROW\s+FORMAT\s+[^;]+/gi *)
  seqs [kw "ROW"; ws1; kw "FORMAT"; ws1; Plus (Chr (none_of ";"))].
(** [LOCATION\s+(...)] under [gi], the group being a text in single quotes
    or a text in double quotes, neither empty *)
Definition re_location : regex :=
  seqs [kw "LOCATION"; ws1;
        Group 1 (Alt (seqs [lit "'"; Plus (Chr (none_of "'")); lit "'"])
                     (seqs [Chr (cs DQUOTE); Plus (Chr (none_of [DQUOTE]));
                            Chr (cs DQUOTE)]))].
Definition re_tblproperties : regex :=    (* /TBLPROPERTIES\s*\([^)]*\)/gi *)
  seqs [kw "TBLPROPERTIES"; ws0; lit "("; Star true (Chr (none_of ")")); lit ")"].

Definition convertCreateTable (sql : text) : text :=
  (* Convert CREATE TABLE syntax *)
  let sql := replace_tpl re_create_header "CREATE OR REPLACE TABLE $1" sql in
  (* Convert PARTITIONED BY to CLUSTER BY *)
  let sql :=
    match exec re_partitioned_by sql with
    | Some partitionMatch =>
        let columns :=
          map (fun col => first_of (split ws1 (trim col)))
              (split_str "," (grp 1 (f_caps partitionMatch))) in
        replace_tpl re_partitioned_by'
          ("CLUSTER BY (" ++ join ", " columns ++ ")") sql
    | None => sql
    end in
  (* Convert CLUSTERED BY to CLUSTER BY *)
  let sql :=
    match exec re_clustered_by sql with
    | Some clusterMatch =>
        replace_tpl re_clustered_into
          ("CLUSTER BY (" ++ grp 1 (f_caps clusterMatch) ++ ")") sql
    | None => sql
    end in
  (* Remove Hive-specific storage clauses *)
  let sql := replace_all_tpl re_stored_as "" sql in
  let sql := replace_all_tpl re_row_format "" sql in
  let sql := replace_all_tpl re_location "" sql in
  let sql := replace_all_tpl re_tblproperties "" sql in
  (* Convert data types *)
  convertDataTypes sql.

(** [convertFunctions] *)
Definition re_call2 (name : string) (second : regex) : regex :=
  (* /date_add\(([^,]+),\s*(\d+)\)/gi and its like *)
  seqs [kw name; lit "("; Group 1 (Plus (Chr (none_of ","))); lit ","; ws0;
        Group 2 second; lit ")"].
Definition re_call1 (name : string) : regex :=  (* /collect_set\(([^)]+)\)/gi *)
  seqs [kw name; lit "("; Group 1 (Plus (Chr (none_of ")"))); lit ")"].

Definition convertFunctions (sql : text) : text :=
  (* Convert unix_timestamp *)
  let sql :=
    replace_all
      (seqs [kw "unix_timestamp("; Group 1 (Star true (Chr (none_of ")")));
             lit ")"])
      (fun x =>
         let args := grp 1 (f_caps x) in
         if nonempty args then "date_part('epoch', " ++ args ++ ")"
         else "date_part('epoch', current_timestamp())")
      sql in
  (* Convert date_add/date_sub *)
  let sql := replace_all_tpl (re_call2 "date_add" digits1) "dateadd(day, $2, $1)" sql in
  let sql := replace_all_tpl (re_call2 "date_sub" digits1) "dateadd(day, -$2, $1)" sql in
  (* Convert collect_set/collect_list *)
  let sql := replace_all_tpl (re_call1 "collect_set") "array_agg(DISTINCT $1)" sql in
  let sql := replace_all_tpl (re_call1 "collect_list") "array_agg($1)" sql in
  (* Convert JSON functions *)
  let sql :=
    replace_all_tpl (re_call2 "get_json_object" (Plus (Chr (none_of ")"))))
      "get_path(parse_json($1), $2)" sql in
  sql.

(** [convertWindowFunctions] *)
Definition re_over : regex :=             (* /OVER\s*\(([^)]+)\)/gi *)
  seqs [kw "OVER"; ws0; lit "("; Group 1 (Plus (Chr (none_of ")"))); lit ")"].
Definition re_frame (unit : string) : regex :=
  (* /RANGE\s+BETWEEN\s+(\d+)\s+PRECEDING\s+AND\s+CURRENT\s+ROW/gi *)
  seqs [kw unit; ws1; kw "BETWEEN"; ws1; Group 1 digits1; ws1; kw "PRECEDING";
        ws1; kw "AND"; ws1; kw "CURRENT"; ws1; kw "ROW"].

Definition convertWindowFunctions (sql : text) : text :=
  replace_all re_over
    (fun x =>
       let contents := grp 1 (f_caps x) in
       let result :=
         replace_all_tpl (re_frame "ROWS")
           "ROWS BETWEEN $1 PRECEDING AND CURRENT ROW"
           (replace_all_tpl (re_frame "RANGE")
              "ROWS BETWEEN $1 PRECEDING AND CURRENT ROW" contents) in
       "OVER (" ++ result ++ ")")
    sql.

(** [convertSelect] *)
Definition re_lateral_view : regex :=
  (* /LATERAL\s+VIEW\s+(?:OUTER\s+)?EXPLODE\s*\(([^)]+)\)\s+(\w+)\s+AS\s+(\w+)/gi *)
  seqs [kw "LATERAL"; ws1; kw "VIEW"; ws1; Opt (Seq (kw "OUTER") ws1);
        kw "EXPLODE"; ws0; lit "("; Group 1 (Plus (Chr (none_of ")"))); lit ")";
        ws1; Group 2 word1; ws1; kw "AS"; ws1; Group 3 word1].

Definition convertSelect (sql : text) : text :=
  let sql :=
    replace_all_tpl re_lateral_view
      "CROSS JOIN TABLE(FLATTEN(input => $1)) AS $2($3)" sql in
  let sql := replace_all_tpl (seqs [kw "DISTRIBUTE"; ws1; kw "BY"]) "ORDER BY" sql in
  let sql := replace_all_tpl (seqs [kw "SORT"; ws1; kw "BY"]) "ORDER BY" sql in
  let sql := convertFunctions sql in
  let sql := convertWindowFunctions sql in
  sql.

(** [convertWithClause] *)
Definition convertWithClause (sql : text) : text :=
  convertWindowFunctions (convertFunctions sql).

(** [convertInsert] *)
Definition re_insert_overwrite : regex :=
  (* /INSERT\s+OVERWRITE\s+(?:TABLE\s+)?(\w+)/i *)
  seqs [kw "INSERT"; ws1; kw "OVERWRITE"; ws1; Opt (Seq (kw "TABLE") ws1);
        Group 1 word1].
Definition re_insert_into : regex :=
  (* /INSERT\s+INTO\s+(?:TABLE\s+)?(\w+)/i *)
  seqs [kw "INSERT"; ws1; kw "INTO"; ws1; Opt (Seq (kw "TABLE") ws1);
        Group 1 word1].
Definition re_partition : regex :=        (* /PARTITION\s*\([^)]+\)/i *)
  seqs [kw "PARTITION"; ws0; lit "("; Plus (Chr (none_of ")")); lit ")"].

Definition convertInsert (sql : text) : text :=
  let sql := replace_tpl re_insert_overwrite "INSERT OVERWRITE INTO $1" sql in
  let sql := replace_tpl re_insert_into "INSERT INTO $1" sql in
  let sql := replace_tpl re_partition "" sql in
  convertSelect sql.

(** [convertStatement] *)
Definition convertStatement (sql : text) : text :=
  if test (seqs [kw "CREATE"; ws1; Opt (Seq (kw "EXTERNAL") ws1); kw "TABLE"]) sql
  then convertCreateTable sql
  else if test (seqs [kw "INSERT"; ws1; Alt (kw "INTO") (kw "OVERWRITE")]) sql
  then convertInsert sql
  else if test (seqs [kw "WITH"; ws1; word1; ws1; kw "AS"]) sql
  then convertWithClause sql
  else convertSelect sql.

Section Convert.

(** [format] of the package [sql-formatter], called by [formatSQL] with
    fixed options; it is not code of this repository. *)
Variable format : text -> outcome.

Definition formatSQL (sql : text) : outcome := format sql.

(** [convert] of a converter built by [new HiveToSnowflakeConverter(input)];
    no method of the class writes to [this.warnings], which stays [[]]. *)
Definition convert (input : text) : ConversionResult :=
  let sql := preprocessSQL input in
  let statements := splitStatements sql in
  let convertedStatements :=
    map (fun stmt => convertStatement (trim stmt))
        (filter (fun stmt => nonempty (trim stmt)) statements) in
  match formatSQL (join (nl ++ nl) convertedStatements) with
  | Returned finalSQL => Result true (Some finalSQL) (Some []) None
  | Thrown message => Result false None (Some []) (Some [message])
  end.

End Convert.

End Index.

(* ================================================================ *)
(** ** [src/converter/hivePatterns.ts]                                *)
(* ================================================================ *)

Module HIVE_PATTERNS.

(** [/INSERT\s+OVERWRITE\s+(?:TABLE\s+)?([^\s(]+)/i] *)
Definition INSERT_OVERWRITE : regex :=
  seqs [kw "INSERT"; ws1; kw "OVERWRITE"; ws1; Opt (Seq (kw "TABLE") ws1);
        Group 1 (Plus (Chr (non_space_nor "(")))].

(** [/INSERT\s+INTO\s+(?:TABLE\s+)?([^\s(]+)/i] *)
Definition INSERT_INTO : regex :=
  seqs [kw "INSERT"; ws1; kw "INTO"; ws1; Opt (Seq (kw "TABLE") ws1);
        Group 1 (Plus (Chr (non_space_nor "(")))].

(** [/FROM\s+([^\s]+)\s+INSERT\s+(?:OVERWRITE|INTO)/i] *)
Definition MULTI_INSERT : regex :=
  seqs [kw "FROM"; ws1; Group 1 (Plus (Chr (non_space_nor ""))); ws1;
        kw "INSERT"; ws1; Alt (kw "OVERWRITE") (kw "INTO")].

(** [/PARTITION\s*\(([^)]+)\)/i] *)
Definition DYNAMIC_PARTITION : regex :=
  seqs [kw "PARTITION"; ws0; lit "("; Group 1 (Plus (Chr (none_of ")"))); lit ")"].

(** [/CREATE\s+(?:EXTERNAL\s+)?TABLE\s+(?:IF\s+NOT\s+EXISTS\s+)?([^\s(]+)/i] *)
Definition CREATE_TABLE : regex :=
  seqs [kw "CREATE"; ws1; Opt (Seq (kw "EXTERNAL") ws1); kw "TABLE"; ws1;
        Opt (seqs [kw "IF"; ws1; kw "NOT"; ws1; kw "EXISTS"; ws1]);
        Group 1 (Plus (Chr (non_space_nor "(")))].

(** [/STORED\s+AS\s+(\w+)/i] *)
Definition STORED_AS : regex :=
  seqs [kw "STORED"; ws1; kw "AS"; ws1; Group 1 word1].

End HIVE_PATTERNS.

(* ================================================================ *)
(** ** [src/converter/transformers/dmlTransformer.ts]                 *)
(* ================================================================ *)

Module DMLTransformer.

(** [/FROM\s+([^\s]+)\s+/i] *)
Definition re_from : regex :=
  seqs [kw "FROM"; ws1; Group 1 (Plus (Chr (non_space_nor ""))); ws1].

(** [/INSERT\s+(?:INTO|OVERWRITE)/i] *)
Definition re_insert_clause : regex :=
  seqs [kw "INSERT"; ws1; Alt (kw "INTO") (kw "OVERWRITE")].

(** [/INSERT\s+OVERWRITE\s+(?:TABLE\s+)?/i] *)
Definition re_insert_overwrite : regex :=
  seqs [kw "INSERT"; ws1; kw "OVERWRITE"; ws1; Opt (Seq (kw "TABLE") ws1)].

Definition transformMultiInsert (sql : text) : text :=
  match exec re_from sql with
  | None => sql
  | Some fromMatch =>
      let sourceTable := grp 1 (f_caps fromMatch) in
      let insertClauses := tl (split re_insert_clause sql) in
      join (";" ++ nl ++ nl)
        (map (fun clause =>
                let isOverwrite := starts_with "OVERWRITE" (trim clause) in
                "INSERT " ++ (if isOverwrite then "OVERWRITE INTO" else "INTO")
                  ++ " " ++ trim clause ++ nl ++ "FROM " ++ sourceTable)
             insertClauses)
  end.

Definition transformInsert (sql : text) : text :=
  (* Handle INSERT OVERWRITE *)
  let sql :=
    if test HIVE_PATTERNS.INSERT_OVERWRITE sql
    then replace_tpl re_insert_overwrite "INSERT OVERWRITE INTO " sql
    else sql in
  (* Handle dynamic partitioning *)
  let sql :=
    if test HIVE_PATTERNS.DYNAMIC_PARTITION sql
    then replace_tpl HIVE_PATTERNS.DYNAMIC_PARTITION "" sql
    else sql in
  (* Handle multi-insert statements *)
  if test HIVE_PATTERNS.MULTI_INSERT sql then transformMultiInsert sql
  else sql.

(** [/MERGE\s+INTO\s+([^\s]+)\s+(?:AS\s+)?(\w+)\s+USING\s+([^\s]+)\s+(?:AS\s+)?(\w+)/i] *)
Definition re_merge : regex :=
  seqs [kw "MERGE"; ws1; kw "INTO"; ws1; Group 1 (Plus (Chr (non_space_nor "")));
        ws1; Opt (Seq (kw "AS") ws1); Group 2 word1; ws1; kw "USING"; ws1;
        Group 3 (Plus (Chr (non_space_nor ""))); ws1;
        Opt (Seq (kw "AS") ws1); Group 4 word1].

Definition transformMerge (sql : text) : text :=
  replace_tpl re_merge "MERGE INTO $1 $2 USING $3 $4" sql.

(** [/UPDATE\s+([^\s]+)\s+(\w+)\s+JOIN\s+([^\s]+)\s+(\w+)\s+ON\s+(.+?)\s+SET\s+(.+?)(?:\s+WHERE\s+(.+))?$/i] *)
Definition re_update_join : regex :=
  seqs [kw "UPDATE"; ws1; Group 1 (Plus (Chr (non_space_nor ""))); ws1;
        Group 2 word1; ws1; kw "JOIN"; ws1;
        Group 3 (Plus (Chr (non_space_nor ""))); ws1; Group 4 word1; ws1;
        kw "ON"; ws1; Group 5 (PlusLazy (Chr dot)); ws1; kw "SET"; ws1;
        Group 6 (PlusLazy (Chr dot));
        Opt (seqs [ws1; kw "WHERE"; ws1; Group 7 (Plus (Chr dot))]);
        Eos].

Definition transformUpdateWithJoin (sql : text) : text :=
  match exec re_update_join sql with
  | None => sql
  | Some matches =>
      let c := f_caps matches in
      let target := grp 1 c in
      let targetAlias := grp 2 c in
      let source := grp 3 c in
      let sourceAlias := grp 4 c in
      let joinCond := grp 5 c in
      let setClauses := grp 6 c in
      let whereCond := grp 7 c in      (* [undefined] reads as the empty text *)
      let mergeSql := "MERGE INTO " ++ target ++ " " ++ targetAlias ++ nl in
      let mergeSql := mergeSql ++ "USING " ++ source ++ " " ++ sourceAlias ++ nl in
      let mergeSql := mergeSql ++ "ON " ++ joinCond ++ nl in
      let mergeSql :=
        mergeSql ++ "WHEN MATCHED "
          ++ (if nonempty whereCond then "AND " ++ whereCond ++ " " else "")
          ++ "THEN UPDATE SET " ++ setClauses in
      mergeSql
  end.

Definition transformUpdate (sql : text) : text :=
  if includes "JOIN" sql then transformUpdateWithJoin sql else sql.

End DMLTransformer.

(* ================================================================ *)
(** ** [src/lib/converter.ts], class [HiveToSnowflakeConverter]       *)
(* ================================================================ *)

Module Lib.

(** The methods read and write the field [this.warnings]; they are
    functions of its content that return its new content. *)
Definition M (A : Type) : Type := list text -> A * list text.

Definition ret {A : Type} (a : A) : M A := fun w => (a, w).

Definition bind {A B : Type} (x : M A) (f : A -> M B) : M B :=
  fun w => let '(a, w') := x w in f a w'.

(** [this.warnings.push(msg)] *)
Definition push (msg : text) : M unit := fun w => (tt, w ++ [msg]).

Notation "x <- e ;; k" := (bind e (fun x => k))
  (at level 61, e at next level, right associativity).
Notation "e ;;; k" := (bind e (fun _ => k))
  (at level 61, right associativity).

(** [preprocessSQL] *)
Definition re_hint : regex :=
  (* /\/\*\+\s*(?:MAPJOIN|STREAMTABLE|BROADCAST|SKEWJOIN)\([^)]*\)\s*\*\//g *)
  seqs [lit "/*+"; ws0;
        alts [lit "MAPJOIN"; lit "STREAMTABLE"; lit "BROADCAST"; lit "SKEWJOIN"];
        lit "("; Star true (Chr (none_of ")")); lit ")"; ws0; lit "*/"].

Definition preprocessSQL (sql : text) : text :=
  let sql := replace_all_tpl Index.re_set_statement "" sql in
  let sql := replace_all_tpl re_hint "" sql in
  trim (replace_all_tpl ws1 " " sql).

(** [convertCreateTable] *)
Definition re_clustered : regex := seqs [kw "CLUSTERED"; ws1; kw "BY"].
Definition re_location : regex :=         (* /LOCATION\s+\'[^\']+\'/gi *)
  seqs [kw "LOCATION"; ws1; lit "'"; Plus (Chr (none_of "'")); lit "'"].

Definition convertCreateTable (sql : text) : M text :=
  let sql :=
    replace_all_tpl Index.re_create_header "CREATE OR REPLACE TABLE $1" sql in
  (* Remove PARTITIONED BY clause *)
  let sql := replace_all_tpl Index.re_partitioned_by' "" sql in
  (* Remove CLUSTERED BY clause *)
  sql <- (if test re_clustered sql
          then push "Snowflake doesn't support CLUSTER BY. Removing it." ;;;
               ret (replace_all_tpl Index.re_clustered_into "" sql)
          else ret sql) ;;
  (* Remove storage clauses *)
  let sql := replace_all_tpl Index.re_stored_as "" sql in
  let sql := replace_all_tpl Index.re_row_format "" sql in
  let sql := replace_all_tpl re_location "" sql in
  let sql := replace_all_tpl Index.re_tblproperties "" sql in
  ret sql.

(** [convertInsertStatements] *)
Definition re_insert_into_table : regex :=    (* /INSERT\s+INTO\s+TABLE\s+/gi *)
  seqs [kw "INSERT"; ws1; kw "INTO"; ws1; kw "TABLE"; ws1].
Definition re_insert_overwrite : regex :=     (* /INSERT\s+OVERWRITE/i *)
  seqs [kw "INSERT"; ws1; kw "OVERWRITE"].

Definition convertInsertStatements (sql : text) : M text :=
  (* Convert INSERT INTO TABLE to INSERT INTO *)
  let sql := replace_all_tpl re_insert_into_table "INSERT INTO " sql in
  (* Convert INSERT OVERWRITE *)
  sql <- (if test re_insert_overwrite sql
          then push "Snowflake doesn't support INSERT OVERWRITE. Converting to INSERT INTO." ;;;
               ret (replace_all_tpl Index.re_insert_overwrite "INSERT INTO $1" sql)
          else ret sql) ;;
  (* Remove PARTITION clause *)
  let sql := replace_all_tpl Index.re_partition "" sql in
  ret sql.

(** [convertFunctions] *)
Definition re_datediff : regex :=
  (* /DATEDIFF\s*\(\s*SECOND\s*,\s*'1970-01-01'\s*,\s*([^)]+)\)/gi *)
  seqs [kw "DATEDIFF"; ws0; lit "("; ws0; kw "SECOND"; ws0; lit ","; ws0;
        lit "'1970-01-01'"; ws0; lit ","; ws0;
        Group 1 (Plus (Chr (none_of ")"))); lit ")"].

Definition convertFunctions (sql : text) : M text :=
  let sql :=
    replace_all_tpl re_datediff "DATEDIFF(SECOND, $1, CURRENT_TIMESTAMP())" sql in
  let sql :=
    replace_all_tpl (Index.re_call2 "date_add" digits1) "DATEADD(DAY, $2, $1)" sql in
  let sql :=
    replace_all_tpl (Index.re_call2 "date_sub" digits1) "DATEADD(DAY, -$2, $1)" sql in
  (* Convert JSON functions *)
  let sql :=
    replace_all (Index.re_call2 "json_tuple" (Plus (Chr (none_of ")"))))
      (fun x =>
         let json := grp 1 (f_caps x) in
         let fields := grp 2 (f_caps x) in
         let fieldList := map trim (split_str "," fields) in
         join ", "
           (map (fun field => "GET_PATH(PARSE_JSON(" ++ json ++ "), '" ++ field ++ "')")
                fieldList))
      sql in
  (* Convert collection functions *)
  let sql := replace_all_tpl (kw "array_agg(") "ARRAY_AGG(" sql in
  let sql := replace_all_tpl (Index.re_call1 "collect_set") "ARRAY_AGG(DISTINCT $1)" sql in
  let sql := replace_all_tpl (Index.re_call1 "collect_list") "ARRAY_AGG($1)" sql in
  ret sql.

(** [convertLateralView] *)
Definition convertLateralView (sql : text) : M text :=
  if test (seqs [kw "LATERAL"; ws1; kw "VIEW"; ws1; kw "EXPLODE"]) sql
  then push "Converting LATERAL VIEW EXPLODE to Snowflake's FLATTEN." ;;;
       ret (replace_all_tpl Index.re_lateral_view
              "CROSS JOIN TABLE(FLATTEN(input => $1)) AS $2($3)" sql)
  else ret sql.

(** [convertWindowFunctions] *)
Definition re_range_between : regex :=        (* /RANGE\s+BETWEEN/i *)
  seqs [kw "RANGE"; ws1; kw "BETWEEN"].
Definition re_range_frame : regex :=
  (* /RANGE\s+BETWEEN\s+([^)]+)\s+AND\s+([^)]+)/gi *)
  seqs [kw "RANGE"; ws1; kw "BETWEEN"; ws1; Group 1 (Plus (Chr (none_of ")")));
        ws1; kw "AND"; ws1; Group 2 (Plus (Chr (none_of ")")))].

Definition convertWindowFunctions (sql : text) : M text :=
  if test re_range_between sql
  then push "Converting RANGE BETWEEN to ROWS BETWEEN for window functions." ;;;
       ret (replace_all_tpl re_range_frame "ROWS BETWEEN $1 AND $2" sql)
  else ret sql.

(** [convertOrderBy] *)
Definition re_order_by : regex := seqs [kw "ORDER"; ws1; kw "BY"].

Definition convertOrderBy (sql : text) : M text :=
  (* Handle multiple ORDER BY clauses *)
  let orderByCount := length (match_all re_order_by sql) in
  if 1 <? orderByCount
  then push "Multiple ORDER BY clauses found. Keeping only the last one." ;;;
       let parts := split re_order_by sql in
       ret (first_of parts ++ "ORDER BY" ++ last_of parts)
  else ret sql.

(** [convertDataTypes]: the entries of [typeMap], in the order of
    [Object.entries]. *)
Definition typeMap : list (string * string) :=
  [ ("STRING", "VARCHAR");
    ("INT", "NUMBER(38,0)");
    ("INTEGER", "NUMBER(38,0)");
    ("BIGINT", "NUMBER(38,0)");
    ("SMALLINT", "NUMBER(5,0)");
    ("TINYINT", "NUMBER(3,0)");
    ("DOUBLE", "DOUBLE");
    ("FLOAT", "FLOAT");
    ("BOOLEAN", "BOOLEAN");
    ("BINARY", "BINARY");
    ("TIMESTAMP", "TIMESTAMP_NTZ");
    ("DATE", "DATE") ].

(** [new RegExp(`\\b${word}\\b`, 'gi')] *)
Definition re_whole_word (word : string) : regex := seqs [WordB; kw word; WordB].

Definition convertDataTypes (sql : text) : M text :=
  let result :=
    fold_left
      (fun result (entry : string * string) =>
         let '(hiveType, snowType) := entry in
         replace_all_tpl (re_whole_word hiveType) snowType result)
      typeMap sql in
  (* Convert complex types *)
  let result := replace_all_tpl (Index.re_complex "ARRAY") "ARRAY" result in
  let result := replace_all_tpl (Index.re_complex "MAP") "OBJECT" result in
  let result := replace_all_tpl (Index.re_complex "STRUCT") "OBJECT" result in
  ret result.

(** [formatSQL] *)
Definition keywords : list string :=
  [ "SELECT"; "FROM"; "WHERE"; "GROUP BY"; "ORDER BY";
    "HAVING"; "JOIN"; "LEFT"; "RIGHT"; "INNER"; "OUTER";
    "ON"; "AND"; "OR"; "IN"; "NOT"; "EXISTS"; "BETWEEN";
    "UNION"; "ALL"; "CREATE"; "TABLE"; "INSERT"; "INTO";
    "VALUES"; "UPDATE"; "DELETE"; "ALTER"; "DROP";
    "CROSS JOIN"; "FLATTEN"; "ARRAY_AGG"; "DISTINCT";
    "PARSE_JSON"; "GET_PATH"; "DATEDIFF"; "DATEADD" ].

Definition re_clause_head : regex :=
  (* /\b(FROM|WHERE|GROUP BY|HAVING|ORDER BY|LIMIT)\b/gi *)
  seqs [WordB;
        Group 1 (alts [kw "FROM"; kw "WHERE"; kw "GROUP BY"; kw "HAVING";
                       kw "ORDER BY"; kw "LIMIT"]);
        WordB].
Definition re_join : regex :=
  (* /\b(LEFT|RIGHT|INNER|OUTER|CROSS)?\s*JOIN\b/gi *)
  seqs [WordB;
        Opt (Group 1 (alts [kw "LEFT"; kw "RIGHT"; kw "INNER"; kw "OUTER";
                            kw "CROSS"]));
        ws0; kw "JOIN"; WordB].
Definition re_comma_item : regex :=           (* /,\s*([\w\d_]+)/g *)
  seqs [lit ","; ws0; Group 1 word1].

Fixpoint count_char (c : ascii) (s : text) : Z :=
  match s with
  | [] => 0%Z
  | a :: t => ((if Ascii.eqb a c then 1 else 0) + count_char c t)%Z
  end.

Fixpoint repeat_text (s : text) (n : nat) : text :=
  match n with
  | 0 => []
  | S k => s ++ repeat_text s k
  end.

(** The [map] over the lines with the variable [depth]; a negative count
    makes [repeat] throw a [RangeError], reported here with the count. *)
Fixpoint indent_lines (depth : Z) (lines : list text) : list text + Z :=
  match lines with
  | [] => inl []
  | line :: rest =>
      let openCount := count_char "(" line in
      let closeCount := count_char ")" line in
      if (depth <? 0)%Z then inr depth
      else
        let indent := repeat_text "  " (Z.to_nat depth) in
        match indent_lines (depth + (openCount - closeCount))%Z rest with
        | inl done => inl ((indent ++ trim line) :: done)
        | inr bad => inr bad
        end
  end.

Section Convert.

(** The message of the [RangeError] that [String.prototype.repeat] throws
    for a negative count; it is the JavaScript engine's. *)
Variable repeatMessage : Z -> text.

Definition formatSQL (sql : text) : outcome :=
  let formatted := trim sql in
  (* Capitalize keywords *)
  let formatted :=
    fold_left
      (fun formatted (keyword : string) =>
         replace_all_tpl (re_whole_word keyword) keyword formatted)
      keywords formatted in
  (* Add newlines and proper indentation *)
  let formatted := replace_all_tpl re_clause_head (nl ++ "$1") formatted in
  let formatted := replace_all_tpl re_join (nl ++ "$&") formatted in
  let formatted := replace_all_tpl re_comma_item ("," ++ nl ++ "  $1") formatted in
  (* Indent subqueries *)
  match indent_lines 0%Z (split (Chr (cs LF)) formatted) with
  | inl lines => Returned (join nl lines)
  | inr count => Thrown (repeatMessage count)
  end.

(** [convert(hiveSQL)] on a converter whose [this.warnings] holds [w]: the
    result, and the content of [this.warnings] afterwards.  The [warnings]
    of the result is that same array. *)
Definition convert (hiveSQL : text) : M ConversionResult :=
  let sql := preprocessSQL hiveSQL in
  sql <- convertCreateTable sql ;;
  sql <- convertInsertStatements sql ;;
  sql <- convertFunctions sql ;;
  sql <- convertLateralView sql ;;
  sql <- convertWindowFunctions sql ;;
  sql <- convertOrderBy sql ;;
  sql <- convertDataTypes sql ;;
  fun w =>
    match formatSQL sql with
    | Returned out => (Result true (Some out) (Some w) None, w)
    | Thrown message => (Result false None (Some w) (Some [message]), w)
    end.

End Convert.

(** A converter right after [new HiveToSnowflakeConverter()]. *)
Definition fresh : list text := [].

End Lib.

(* ================================================================ *)
(** ** [src/converter.worker.ts], class [SQLConverter]                *)
(* ================================================================ *)

Module SQLConverter.

Import Lib.

(** [convertFileFormats]: [formatMap], in the order of its entries *)
Definition formatMap : list (string * string) :=
  [ ("TEXTFILE", "CSV");
    ("SEQUENCEFILE", "PARQUET");
    ("RCFILE", "PARQUET");
    ("ORC", "PARQUET");
    ("PARQUET", "PARQUET");
    ("AVRO", "PARQUET");
    ("JSONFILE", "JSON") ].

(** [new RegExp(`STORED\\s+AS\\s+${hiveFormat}`, 'gi')] *)
Definition re_stored_as (hiveFormat : string) : regex :=
  seqs [kw "STORED"; ws1; kw "AS"; ws1; kw hiveFormat].

Definition convertFileFormats (sql : text) : M text :=
  sql <- fold_left
           (fun (so_far : M text) (entry : string * string) =>
              let '(hiveFormat, snowFormat) := entry in
              sql <- so_far ;;
              if test (re_stored_as hiveFormat) sql
              then push ("Converting " ++ hiveFormat ++ " to " ++ snowFormat
                           ++ " format") ;;;
                   ret (replace_all_tpl (re_stored_as hiveFormat)
                          ("FILE_FORMAT = " ++ snowFormat) sql)
              else ret sql)
           formatMap (ret sql) ;;
  (* Remove ROW FORMAT clauses, LOCATION clauses and TBLPROPERTIES *)
  let sql := replace_all_tpl Index.re_row_format "" sql in
  let sql := replace_all_tpl Lib.re_location "" sql in
  let sql := replace_all_tpl Index.re_tblproperties "" sql in
  ret sql.

End SQLConverter.

(* ================================================================ *)
(** ** [src/converter/index.ts], class [SQLParser]                    *)
(* ================================================================ *)

Module SQLParser.

(** [splitStatements]: the local variables of the loop; this class has no
    flag for block comments. *)
Record scanner : Type := Scanner
  { statements : list text;
    currentStatement : text;
    inString : bool;
    stringChar : option ascii;        (* [None] is the initial [''] *)
    inComment : bool;
    depth : Z }.

Definition scanner0 : scanner := Scanner [] [] false None false 0%Z.

(** One turn of the loop body on [char = sql[i]] with
    [nextChar = sql[i + 1] || '']. *)
Definition scan_char (st : scanner) (char : ascii) (nextChar : option ascii)
  : scanner :=
  let '(Scanner stmts cur inStr strCh inCom dep) := st in
  (* Handle string literals *)
  let '(inStr, strCh) :=
    if (Ascii.eqb char "'" || Ascii.eqb char DQUOTE) && negb inCom
    then
      if negb inStr then (true, Some char)
      else if Index.is_some_char char strCh then (false, strCh)
      else (inStr, strCh)
    else (inStr, strCh) in
  (* Handle comments *)
  let inCom :=
    if negb inStr then
      if Ascii.eqb char "-" && Index.is_some_char "-" nextChar then true
      else if Ascii.eqb char LF && inCom then false
      else inCom
    else inCom in
  (* Handle parentheses *)
  let dep :=
    if negb inStr && negb inCom then
      let dep := if Ascii.eqb char "(" then (dep + 1)%Z else dep in
      let dep := if Ascii.eqb char ")" then (dep - 1)%Z else dep in
      dep
    else dep in
  (* Handle statement separation *)
  if Ascii.eqb char ";" && negb inStr && negb inCom && (dep =? 0)%Z
  then Scanner (stmts ++ [trim cur]) [] inStr strCh inCom dep
  else Scanner stmts (cur ++ [char]) inStr strCh inCom dep.

(** The [for] loop from index [i] on; [s] is [sql.slice(i)]. *)
Fixpoint scan_from (st : scanner) (s : text) {struct s} : scanner :=
  match s with
  | [] => st
  | char :: rest => scan_from (scan_char st char (hd_error rest)) rest
  end.

Definition splitStatements (sql : text) : list text :=
  let st := scan_from scanner0 sql in
  let stmts :=
    if nonempty (trim (currentStatement st))
    then statements st ++ [trim (currentStatement st)]
    else statements st in
  filter (fun stmt => 0 <? length stmt) stmts.

(** [preprocessSQL] *)
Definition re_inline_hint : regex :=            (* /\/\*\+[^*]*\*\//g *)
  seqs [lit "/*+"; Star true (Chr (none_of "*")); lit "*/"].
Definition re_marker : regex :=                 (* /^--\s*#####/gm *)
  seqs [Bol; lit "--"; ws0; lit "#####"].
Definition re_array : regex :=                  (* /ARRAY\s*<\s*([^>]+)\s*>/gi *)
  seqs [kw "ARRAY"; ws0; lit "<"; ws0; Group 1 (Plus (Chr (none_of ">")));
        ws0; lit ">"].
Definition re_map : regex :=       (* /MAP\s*<\s*([^>]+)\s*,\s*([^>]+)\s*>/gi *)
  seqs [kw "MAP"; ws0; lit "<"; ws0; Group 1 (Plus (Chr (none_of ">")));
        ws0; lit ","; ws0; Group 2 (Plus (Chr (none_of ">"))); ws0; lit ">"].
Definition re_struct : regex :=                 (* /STRUCT\s*<[^>]+>/gi *)
  seqs [kw "STRUCT"; ws0; lit "<"; Plus (Chr (none_of ">")); lit ">"].

Definition preprocessSQL (sql : text) : text :=
  (* Remove Hive SET statements *)
  let sql := replace_all_tpl Index.re_set_statement "" sql in
  (* Remove inline Hive hints *)
  let sql := replace_all_tpl re_inline_hint "" sql in
  (* Convert Hive-specific comments to standard SQL comments *)
  let sql := replace_all_tpl re_marker "-- -----" sql in
  (* Handle ARRAY<TYPE>, MAP<TYPE, TYPE> and STRUCT<...> syntax *)
  let sql := replace_all_tpl re_array "ARRAY" sql in
  let sql := replace_all_tpl re_map "OBJECT" sql in
  let sql := replace_all_tpl re_struct "OBJECT" sql in
  (* Clean up whitespace *)
  trim (replace_all_tpl ws1 " " sql).

End SQLParser.

(* ================================================================ *)
(** ** [src/mappings/dataTypes.ts]                                    *)
(* ================================================================ *)

Record SQLMapping : Type := Mapping { hiveType : text; snowflakeType : text }.

(** [===] on two strings *)
Fixpoint text_eqb (x y : text) : bool :=
  match x, y with
  | [], [] => true
  | a :: x', b :: y' => Ascii.eqb a b && text_eqb x' y'
  | _, _ => false
  end.

Definition dataTypeMappings : list SQLMapping :=
  [ (* Numeric Types with Precision/Scale *)
    Mapping "TINYINT" "NUMBER(3,0)";
    Mapping "SMALLINT" "NUMBER(5,0)";
    Mapping "INT" "NUMBER(10,0)";
    Mapping "INTEGER" "NUMBER(10,0)";
    Mapping "BIGINT" "NUMBER(38,0)";
    Mapping "FLOAT" "FLOAT";
    Mapping "DOUBLE" "DOUBLE";
    Mapping "DOUBLE PRECISION" "DOUBLE";
    Mapping "DECIMAL" "NUMBER";
    Mapping "NUMERIC" "NUMBER";
    (* String Types *)
    Mapping "STRING" "VARCHAR";
    Mapping "VARCHAR" "VARCHAR";
    Mapping "CHAR" "CHAR";
    Mapping "TEXT" "TEXT";
    (* Date/Time Types *)
    Mapping "TIMESTAMP" "TIMESTAMP_NTZ";
    Mapping "TIMESTAMP WITH LOCAL TIME ZONE" "TIMESTAMP_LTZ";
    Mapping "TIMESTAMP WITH TIME ZONE" "TIMESTAMP_TZ";
    Mapping "DATE" "DATE";
    Mapping "INTERVAL" "VARCHAR";
    (* Boolean Type *)
    Mapping "BOOLEAN" "BOOLEAN";
    Mapping "BOOL" "BOOLEAN";
    (* Binary Types *)
    Mapping "BINARY" "BINARY";
    Mapping "VARBINARY" "BINARY";
    (* Complex Types *)
    Mapping "ARRAY" "ARRAY";
    Mapping "MAP" "OBJECT";
    Mapping "STRUCT" "OBJECT";
    Mapping "UNIONTYPE" "VARIANT" ].

(* ================================================================ *)
(** ** [src/converter/hivePatterns.ts]: the storage formats           *)
(* ================================================================ *)

Definition HIVE_TO_SNOWFLAKE_STORAGE : list (string * string) :=
  [ ("TEXTFILE", "CSV"); ("SEQUENCEFILE", "PARQUET"); ("RCFILE", "PARQUET");
    ("ORC", "PARQUET"); ("PARQUET", "PARQUET"); ("AVRO", "PARQUET");
    ("JSONFILE", "JSON") ].

(* ================================================================ *)
(** ** [src/converter/transformers/ddlTransformer.ts]                 *)
(* ================================================================ *)

Module DDLTransformer.

(** [ColumnDefinition] and [TableDefinition] of [types/sql.ts], with the
    fields that the transformer sets; a field that is not set is [None]. *)
Record ColumnDefinition : Type := Column
  { name : text;
    type : text;
    comment : option text }.

Record TableDefinition : Type := Table
  { t_name : text;
    columns : list ColumnDefinition;
    external : bool;
    format : option text;
    clusterBy : option (list text) }.

(** [/CREATE\s+EXTERNAL\s+TABLE/i] *)
Definition re_external : regex :=
  seqs [kw "CREATE"; ws1; kw "EXTERNAL"; ws1; kw "TABLE"].
(** The first parenthesis and the shortest text, not empty, up to a closing
    one: a lazy [[\s\S]+?] between [\(] and [\)] *)
Definition re_column_defs : regex :=
  seqs [lit "("; Group 1 (PlusLazy (Chr any_char)); lit ")"].
(** [COMMENT\s+] then a quote of either kind, a text without quotes, not
    empty, and a quote of either kind, under [i] *)
Definition is_quote_char (a : ascii) : bool := mem a ["'"%char; DQUOTE].
Definition re_comment : regex :=
  seqs [kw "COMMENT"; ws1; Chr is_quote_char;
        Group 1 (Plus (Chr (none_of ["'"%char; DQUOTE]))); Chr is_quote_char].

(** The type that [dataTypeMappings] gives for [type], or [type] itself. *)
Definition snowflakeTypeOf (type : text) : text :=
  match find (fun m => text_eqb (hiveType m) type) dataTypeMappings with
  | Some mapping => snowflakeType mapping
  | None => type
  end.

Section Engine.

(** [String.prototype.toUpperCase]: it is the JavaScript engine's. *)
Variable toUpperCase : text -> text.

(** [parseColumnDefinitions]: the callback of [map] on one definition.
    [None]: [parts[1]] is [undefined] and the call of [toUpperCase] on it
    throws a [TypeError]. *)
Definition parseColumnDefinition (def : text) : option ColumnDefinition :=
  let parts := split ws1 (trim def) in
  let name := first_of parts in
  match nth_error parts 1 with
  | None => None
  | Some part =>
      let type := toUpperCase part in
      (* Handle complex types *)
      let type :=
        if includes "ARRAY<" type then "ARRAY" : text
        else if includes "MAP<" type then "OBJECT" : text
        else if includes "STRUCT<" type then "OBJECT" : text
        else type in
      (* Map Hive type to Snowflake type *)
      let snowflakeType := snowflakeTypeOf type in
      (* Handle column comment if present *)
      let comment :=
        match exec re_comment def with
        | Some commentMatch => Some (grp 1 (f_caps commentMatch))
        | None => None
        end in
      Some (Column name snowflakeType comment)
  end.

(** [defs.map(...)]: the definitions are read from left to right, and the
    first that throws ends the call. *)
Fixpoint parseColumnDefinitions (defs : list text)
  : option (list ColumnDefinition) :=
  match defs with
  | [] => Some []
  | def :: rest =>
      match parseColumnDefinition def with
      | None => None
      | Some column =>
          match parseColumnDefinitions rest with
          | None => None
          | Some columns => Some (column :: columns)
          end
      end
  end.

Definition generateSnowflakeCreateTable (tableDef : TableDefinition) : text :=
  let sql := "CREATE OR REPLACE TABLE " ++ t_name tableDef ++ " (" ++ nl in
  (* Add columns *)
  let sql :=
    sql ++ join ("," ++ nl)
             (map (fun col =>
                     let colDef := "  " ++ name col ++ " " ++ type col in
                     match comment col with
                     | Some c =>
                         if nonempty c then colDef ++ " COMMENT '" ++ c ++ "'"
                         else colDef
                     | None => colDef
                     end)
                  (columns tableDef)) in
  let sql := sql ++ nl ++ ")" in
  (* Add clustering if specified *)
  let sql :=
    match clusterBy tableDef with
    | Some (c :: cs) => sql ++ nl ++ "CLUSTER BY (" ++ join ", " (c :: cs) ++ ")"
    | _ => sql
    end in
  (* Add format if specified *)
  let sql :=
    match format tableDef with
    | Some f => if nonempty f then sql ++ nl ++ "FILE_FORMAT = " ++ f else sql
    | None => sql
    end in
  sql.

(** [transformCreateTable]; [None]: a [TypeError] of
    [parseColumnDefinitions] goes through. *)
Definition transformCreateTable (sql : text) : option text :=
  match exec HIVE_PATTERNS.CREATE_TABLE sql with
  | None => Some sql
  | Some tableMatch =>
      let name := grp 1 (f_caps tableMatch) in
      let external := test re_external sql in
      (* Extract column definitions *)
      match
        match exec re_column_defs sql with
        | Some columnDefsMatch =>
            let columnDefs :=
              map trim (split_str "," (grp 1 (f_caps columnDefsMatch))) in
            parseColumnDefinitions columnDefs
        | None => Some []
        end
      with
      | None => None
      | Some columns =>
          (* Handle partitioning *)
          match
            match exec HIVE_PATTERNS.DYNAMIC_PARTITION sql with
            | Some partitionMatch =>
                match
                  parseColumnDefinitions
                    (split_str "," (grp 1 (f_caps partitionMatch)))
                with
                | Some partitionColumns =>
                    Some (Some (map DDLTransformer.name partitionColumns))
                | None => None
                end
            | None => Some None
            end
          with
          | None => None
          | Some clusterBy =>
              (* Handle storage format *)
              let format :=
                match exec HIVE_PATTERNS.STORED_AS sql with
                | Some storageMatch =>
                    let hiveFormat := toUpperCase (grp 1 (f_caps storageMatch)) in
                    match
                      find (fun entry : string * string =>
                              text_eqb (fst entry) hiveFormat)
                           HIVE_TO_SNOWFLAKE_STORAGE
                    with
                    | Some entry => Some (snd entry : text)
                    | None => Some ("CSV" : text)
                    end
                | None => None
                end in
              Some (generateSnowflakeCreateTable
                      (Table name columns external format clusterBy))
          end
      end
  end.

End Engine.

End DDLTransformer.

(* ================================================================ *)
(** ** [src/converter/hivePatterns.ts]: [COMPLEX_TYPE_HANDLERS]       *)
(* ================================================================ *)

Module COMPLEX_TYPE_HANDLERS.

Definition array (innerType : text) : text := "ARRAY".

Definition map (keyType valueType : text) : text := "OBJECT".

(** The callback of [map] in [struct]: [None] when the field has no colon,
    so that [type] is [undefined] and [type.trim()] throws a [TypeError]. *)
Definition parseField (field : text) : option text :=
  let parts := split_str ":" (trim field) in
  let name := first_of parts in
  match nth_error parts 1 with
  | Some type => Some (trim name ++ " " ++ trim type)
  | None => None
  end.

Fixpoint parseFields (fields : list text) : option (list text) :=
  match fields with
  | [] => Some []
  | field :: rest =>
      match parseField field with
      | None => None
      | Some parsed =>
          match parseFields rest with
          | None => None
          | Some parsedFields => Some (parsed :: parsedFields)
          end
      end
  end.

Definition struct (fields : text) : option text :=
  match parseFields (split_str "," fields) with
  | Some parsedFields => Some ("OBJECT" : text)
  | None => None
  end.

End COMPLEX_TYPE_HANDLERS.

(* ================================================================ *)
(** ** The segmenter as the specification describes it                *)
(* ================================================================ *)

Module SegmenterSpec.

(** The scan is in exactly one lexical mode at a time: a comment opener
    inside a string or inside another comment is plain content, and so is
    a quote inside a comment. *)
Inductive mode : Type :=
| Code
| Quoted (q : ascii)
| LineComment
| BlockComment.

Definition is_quote (a : ascii) : bool := Ascii.eqb a "'" || Ascii.eqb a DQUOTE.

(** The pieces of the input between top-level semicolons; [cur] is the
    piece being read, last character first. *)
Fixpoint segments (md : mode) (depth : Z) (cur : text) (s : text) {struct s}
  : list text :=
  match s with
  | [] => [rev cur]
  | a :: t =>
      match md with
      | Quoted q =>
          segments (if Ascii.eqb a q then Code else Quoted q) depth (a :: cur) t
      | LineComment =>
          segments (if Ascii.eqb a LF then Code else LineComment) depth (a :: cur) t
      | BlockComment =>
          match t with
          | b :: t' =>
              if Ascii.eqb a "*" && Ascii.eqb b "/"
              then segments Code depth (b :: a :: cur) t'
              else segments BlockComment depth (a :: cur) t
          | [] => segments BlockComment depth (a :: cur) t
          end
      | Code =>
          let plain :=
            if Ascii.eqb a "(" then segments Code (depth + 1)%Z (a :: cur) t
            else if Ascii.eqb a ")" then segments Code (depth - 1)%Z (a :: cur) t
            else if Ascii.eqb a ";" && (depth =? 0)%Z
            then rev cur :: segments Code depth [] t
            else segments Code depth (a :: cur) t in
          if is_quote a then segments (Quoted a) depth (a :: cur) t
          else
            match t with
            | b :: t' =>
                if Ascii.eqb a "-" && Ascii.eqb b "-"
                then segments LineComment depth (a :: cur) t
                else if Ascii.eqb a "/" && Ascii.eqb b "*"
                then segments BlockComment depth (b :: a :: cur) t'
                else plain
            | [] => plain
            end
      end
  end.

(** The top-level, semicolon-delimited segments that are not blank. *)
Definition statements (sql : text) : list text :=
  filter (fun seg => nonempty (trim seg)) (segments Code 0%Z [] sql).

End SegmenterSpec.

(** Parentheses are paired: no closing one without an open one before it
    and none left open. *)
Fixpoint balanced_from (open : nat) (s : text) : bool :=
  match s with
  | [] => open =? 0
  | a :: t =>
      if Ascii.eqb a "(" then balanced_from (S open) t
      else if Ascii.eqb a ")" then
        match open with
        | 0 => false
        | S k => balanced_from k t
        end
      else balanced_from open t
  end.

Definition balanced (s : text) : bool := balanced_from 0 s.

(** The messages of the warnings of [src/lib/converter.ts]. *)
Definition warn_insert_overwrite : text :=
  "Snowflake doesn't support INSERT OVERWRITE. Converting to INSERT INTO.".
Definition warn_range_between : text :=
  "Converting RANGE BETWEEN to ROWS BETWEEN for window functions.".
Definition warn_order_by : text :=
  "Multiple ORDER BY clauses found. Keeping only the last one.".

(* ================================================================ *)
(** ** Reading the matcher: direct descriptions of what patterns do   *)
(* ================================================================ *)

(** A greedy [[class]*]: as many characters of the class as the rest of
    the pattern allows, the longest run first. *)
Fixpoint greedy_class (f : ascii -> bool) (k : cont) (pre s : text) (c : caps)
  {struct s} : option res :=
  match s with
  | a :: t =>
      if f a then
        match greedy_class f k (a :: pre) t c with
        | Some x => Some x
        | None => k pre s c
        end
      else k pre s c
  | [] => k pre s c
  end.

(** A lazy [[class]*?]: the shortest run first. *)
Fixpoint lazy_class (f : ascii -> bool) (k : cont) (pre s : text) (c : caps)
  {struct s} : option res :=
  match k pre s c with
  | Some x => Some x
  | None =>
      match s with
      | a :: t => if f a then lazy_class f k (a :: pre) t c else None
      | [] => None
      end
  end.

(** The text [s] begins with the word [w], compared by [cmp]. *)
Fixpoint prefix_ok (cmp : ascii -> ascii -> bool) (w s : text) : bool :=
  match w, s with
  | [], _ => true
  | c :: w', a :: s' => cmp c a && prefix_ok cmp w' s'
  | _ :: _, [] => false
  end.

(** The word [w] stands somewhere in [s], letter case apart. *)
Fixpoint occurs (w s : text) : bool :=
  prefix_ok ci w s ||
  match s with
  | [] => false
  | _ :: t => occurs w t
  end.

Fixpoint take_while (f : ascii -> bool) (s : text) : text :=
  match s with
  | a :: t => if f a then a :: take_while f t else []
  | [] => []
  end.

Fixpoint drop_while (f : ascii -> bool) (s : text) : text :=
  match s with
  | a :: t => if f a then drop_while f t else s
  | [] => []
  end.

(** The pattern [r] finds nothing that starts inside [x], when [x] stands
    before [s] and after the reversed text [pre]. *)
Definition dead (r : regex) (pre x s : text) : Prop :=
  forall x1 a x2, x = x1 ++ a :: x2 ->
    match_here r (rev x1 ++ pre) (a :: x2 ++ s) = None.

(** *** Occurrences of a construct, found from left to right

    [here s] is the length of the occurrence that begins [s], if there is
    one; occurrences do not overlap.  Each is given by its start and its
    length. *)
Fixpoint spans (here : text -> option nat) (pos skip : nat) (s : text)
  {struct s} : list (nat * nat) :=
  match s with
  | [] => []
  | _ :: t =>
      match skip with
      | S k => spans here (S pos) k t
      | 0 =>
          match here s with
          | Some (S k) => (pos, S k) :: spans here (S pos) k t
          | _ => spans here (S pos) 0 t
          end
      end
  end.

(** An occurrence of ORDER BY at the head of [s]: the word ORDER, white
    space, the word BY, letter case apart. *)
Definition order_by_here (s : text) : option nat :=
  if prefix_ok ci "ORDER" s then
    match skipn 5 s with
    | a :: t =>
        if is_space a then
          let rest := drop_while is_space t in
          if prefix_ok ci "BY" rest then Some (length s - length rest + 2)
          else None
        else None
    | [] => None
    end
  else None.

Definition order_by_spans (sql : text) : list (nat * nat) :=
  spans order_by_here 0 0 sql.

(** [x] is the word [w], letter case apart. *)
Definition same_word (w x : text) : Prop :=
  length x = length w /\ prefix_ok ci w x = true.


(** Some character of [s] is not white space. *)
Fixpoint has_ink (s : text) : bool :=
  match s with
  | [] => false
  | a :: t => negb (is_space a) || has_ink t
  end.

(** *** The loop of [splitStatements] and the lexical modes *)

Import SegmenterSpec.

(** The characters of a piece that the loop of [splitStatements] writes to
    [currentStatement], the piece being read from mode [md]: all of them
    but the star of a block-comment opener and the two characters that
    close a block comment. *)
Fixpoint written (md : mode) (s : text) {struct s} : text :=
  match s with
  | [] => []
  | a :: t =>
      match md with
      | Quoted q => a :: written (if Ascii.eqb a q then Code else Quoted q) t
      | LineComment => a :: written (if Ascii.eqb a LF then Code else LineComment) t
      | BlockComment =>
          match t with
          | b :: t' =>
              if Ascii.eqb a "*" && Ascii.eqb b "/"
              then written Code t'
              else a :: written BlockComment t
          | [] => a :: written BlockComment t
          end
      | Code =>
          if is_quote a then a :: written (Quoted a) t
          else
            match t with
            | b :: t' =>
                if Ascii.eqb a "-" && Ascii.eqb b "-"
                then a :: written LineComment t
                else if Ascii.eqb a "/" && Ascii.eqb b "*"
                then a :: written BlockComment t'
                else a :: written Code t
            | [] => a :: written Code t
            end
      end
  end.

(** No block-comment opener inside a line comment, and no comment opener
    inside a block comment; [md] is the mode at the start of [s]. *)
Fixpoint flat (md : mode) (s : text) {struct s} : bool :=
  match s with
  | [] => true
  | a :: t =>
      match md with
      | Quoted q => flat (if Ascii.eqb a q then Code else Quoted q) t
      | LineComment =>
          match t with
          | b :: _ => negb (Ascii.eqb a "/" && Ascii.eqb b "*")
          | [] => true
          end
          && flat (if Ascii.eqb a LF then Code else LineComment) t
      | BlockComment =>
          match t with
          | b :: t' =>
              if Ascii.eqb a "*" && Ascii.eqb b "/"
              then flat Code t'
              else negb (Ascii.eqb a "-" && Ascii.eqb b "-")
                   && negb (Ascii.eqb a "/" && Ascii.eqb b "*")
                   && flat BlockComment t
          | [] => true
          end
      | Code =>
          if is_quote a then flat (Quoted a) t
          else
            match t with
            | b :: t' =>
                if Ascii.eqb a "-" && Ascii.eqb b "-"
                then flat LineComment t
                else if Ascii.eqb a "/" && Ascii.eqb b "*"
                then flat BlockComment t'
                else flat Code t
            | [] => true
            end
      end
  end.

(** The statements of the loop and the one pushed after it. *)
Definition pushed (st : Index.scanner) : list text :=
  if nonempty (trim (Index.currentStatement st))
  then Index.statements st ++ [trim (Index.currentStatement st)]
  else Index.statements st.

(** The flags of the loop in each lexical mode. *)
Definition flags (inStr : bool) (strCh : option ascii) (inCom inMulti : bool)
  (md : mode) : Prop :=
  match md with
  | Code => inStr = false /\ inCom = false /\ inMulti = false
  | Quoted q =>
      inStr = true /\ strCh = Some q /\ is_quote q = true
      /\ inCom = false /\ inMulti = false
  | LineComment => inStr = false /\ inCom = true /\ inMulti = false
  | BlockComment => inStr = false /\ inCom = false /\ inMulti = true
  end.

(** [cur] is what the loop has written of the piece read so far, [rcur]
    (last character first), which leaves the scan in mode [md] with [s]
    to read; inside a block comment the opener has been written. *)
Definition follows (cur rcur : text) (md : mode) (s : text) : Prop :=
  (forall n, written Code (rev rcur ++ firstn n s) = cur ++ written md (firstn n s))
  /\ has_ink cur = has_ink rcur
  /\ (md = BlockComment -> has_ink cur = true).

Definition kept_written (l : list text) : list text :=
  map (fun seg => trim (written Code seg))
      (filter (fun seg => nonempty (trim seg)) l).

(** The openers, as the loop tests them. *)
Definition dashes (a : ascii) (t : text) : bool :=
  Ascii.eqb a "-" && Index.is_some_char "-" (hd_error t).
Definition slash_star (a : ascii) (t : text) : bool :=
  Ascii.eqb a "/" && Index.is_some_char "*" (hd_error t).
Definition star_slash (a : ascii) (t : text) : bool :=
  Ascii.eqb a "*" && Index.is_some_char "/" (hd_error t).

(** *** Multi-target inserts

    The text of a multi-target insert whose source is the bare name
    [src]: [FROM src] and then the clauses.  A clause is its head, INSERT
    OVERWRITE ([true]) or INSERT INTO ([false]), and its body. *)
Definition clause_head (overwrite : bool) : text :=
  if overwrite then "INSERT OVERWRITE" else "INSERT INTO".

Definition clause_text (c : bool * text) : text :=
  clause_head (fst c) ++ snd c.

(** No character of [s] is white space. *)
Definition no_space (s : text) : bool := forallb (fun a => negb (is_space a)) s.

Definition multi_insert (src : text) (clauses : list (bool * text)) : text :=
  "FROM " ++ src ++ " " ++ concat (map clause_text clauses).

(** The statement that [transformMultiInsert] makes of a clause body. *)
Definition fanned (src body : text) : text :=
  "INSERT "
    ++ (if starts_with "OVERWRITE" (trim body) then "OVERWRITE INTO" else "INTO")
    ++ " " ++ trim body ++ nl ++ "FROM " ++ src.

(** *** The steps of [convertCreateTable] of [converter/index.ts] *)

(** The names of the partition columns: the first word of each of the
    definitions that the commas separate. *)
Definition partition_columns (cols : text) : list text :=
  map (fun col => first_of (split ws1 (trim col))) (split_str "," cols).

(** The step under the comment "Convert PARTITIONED BY to CLUSTER BY". *)
Definition partitioned_to_cluster (sql : text) : text :=
  match exec Index.re_partitioned_by sql with
  | Some partitionMatch =>
      replace_tpl Index.re_partitioned_by'
        ("CLUSTER BY ("
           ++ join ", " (partition_columns (grp 1 (f_caps partitionMatch))) ++ ")")
        sql
  | None => sql
  end.

(** The step before it, and the steps after it. *)
Definition create_header (sql : text) : text :=
  replace_tpl Index.re_create_header "CREATE OR REPLACE TABLE $1" sql.

Definition after_partitioning (sql : text) : text :=
  let sql :=
    match exec Index.re_clustered_by sql with
    | Some clusterMatch =>
        replace_tpl Index.re_clustered_into
          ("CLUSTER BY (" ++ grp 1 (f_caps clusterMatch) ++ ")") sql
    | None => sql
    end in
  let sql := replace_all_tpl Index.re_stored_as "" sql in
  let sql := replace_all_tpl Index.re_row_format "" sql in
  let sql := replace_all_tpl Index.re_location "" sql in
  let sql := replace_all_tpl Index.re_tblproperties "" sql in
  Index.convertDataTypes sql.

Definition c5_input : text :=
  "CREATE TABLE t (a INT, b STRING) PARTITIONED BY (d STRING) STORED AS ORC".

(** *** Notions used in the proofs *)


(** [k] cannot go on from a text that begins with a character of [f]. *)
Definition rejects (f : ascii -> bool) (k : cont) : Prop :=
  forall pre a t c, f a = true -> k pre (a :: t) c = None.

(** No letter of [w] after its first is [b]. *)
Definition foreign (w : text) (b : ascii) : bool :=
  forallb (fun c => negb (ci c b)) (tl w).


(** A method only adds to [this.warnings], and what it adds and returns
    does not depend on what is there. *)
Definition appends {A : Type} (f : Lib.M A) : Prop :=
  forall w, f w = (fst (f []), w ++ snd (f [])).

(** The same for the content of [this.warnings] alone. *)
Definition adds {A : Type} (f : Lib.M A) : Prop :=
  forall w, snd (f w) = w ++ snd (f []).

(** *** The inputs of the examples *)

Definition c1_input : text := "-- see /* here" ++ nl ++ "SELECT 1; SELECT 2".
Definition c1_in_parentheses : text := "/* -- */ SELECT f(1" ++ nl ++ "; 2)".
Definition c1_line_comment : text :=
  "SELECT 'a;b' FROM t; -- one; two" ++ nl ++ "SELECT f(1;2) ;; SELECT 3".
Definition c1_block_comment : text :=
  "SELECT 1 /* one; -two ( */; SELECT '/*' FROM t".

Definition c6_input : text :=
  "UPDATE t a JOIN s b ON a.id = b.id SET a.x = (SELECT max(v) FROM u WHERE u.id = a.id)".

Definition c7_input : text :=
  "SELECT SUM(x) OVER (PARTITION BY k ORDER BY t RANGE BETWEEN 10 PRECEDING AND CURRENT ROW) FROM e".
Definition c7_output : text :=
  "SELECT SUM(x) OVER (PARTITION BY k ORDER BY t ROWS BETWEEN 10 PRECEDING AND CURRENT ROW) FROM e".

Definition c8_input : text :=
  "CREATE TABLE points (interval_id INT, note STRING COMMENT 'loaded INTO points')".


Section TwoRequests.

Variable repeatMessage : Z -> text.

(** [c.convert(first); c.convert(second)] on [c = new HiveToSnowflakeConverter()] *)
Definition second_result (first second : text) : ConversionResult :=
  let '(_, w1) := Lib.convert repeatMessage first Lib.fresh in
  fst (Lib.convert repeatMessage second w1).

End TwoRequests.

(* ================================================================ *)
(** ** Notions used by the further properties                         *)
(* ================================================================ *)

(** The semicolons of a text. *)
Definition semicolons (s : text) : nat := length (filter (Ascii.eqb ";") s).

(** [x] can be got from [s] by leaving characters out. *)
Inductive subseq : text -> text -> Prop :=
| subseq_nil : subseq [] []
| subseq_skip a x s : subseq x s -> subseq x (a :: s)
| subseq_keep a x s : subseq x s -> subseq (a :: x) (a :: s).

(** A statement as [splitStatements] returns it: not empty, and with no
    white space at either end. *)
Definition trimmed (x : text) : Prop := nonempty x = true /\ trim x = x.

(** The loop is outside every string, comment and parenthesis. *)
Definition at_top_level (st : Index.scanner) : bool :=
  negb (Index.inString st) && negb (Index.inComment st)
  && negb (Index.inMultilineComment st) && (Index.depth st =? 0)%Z.

(** Two states of the loop that go on in the same way: they differ in the
    statements pushed before, [p] more in the first, and in the quote
    remembered from a string that is closed. *)
Definition alike (p : list text) (st1 st2 : Index.scanner) : Prop :=
  Index.statements st1 = p ++ Index.statements st2
  /\ Index.currentStatement st1 = Index.currentStatement st2
  /\ Index.inString st1 = Index.inString st2
  /\ Index.inComment st1 = Index.inComment st2
  /\ Index.inMultilineComment st1 = Index.inMultilineComment st2
  /\ Index.depth st1 = Index.depth st2
  /\ (Index.inString st1 = true -> Index.stringChar st1 = Index.stringChar st2).

(** The loops of the two classes in step: the statements of [SQLParser]
    that are not empty are those of [HiveToSnowflakeConverter], which is
    outside block comments. *)
Definition in_step (p : SQLParser.scanner) (i : Index.scanner) : Prop :=
  filter (fun stmt : text => 0 <? length stmt) (SQLParser.statements p)
  = Index.statements i
  /\ SQLParser.currentStatement p = Index.currentStatement i
  /\ SQLParser.inString p = Index.inString i
  /\ SQLParser.stringChar p = Index.stringChar i
  /\ SQLParser.inComment p = Index.inComment i
  /\ Index.inMultilineComment i = false
  /\ SQLParser.depth p = Index.depth i.

(** [put_spans here t skip s]: each occurrence found by [here], from left
    to right and without overlap, gives way to [t]; [skip] characters of
    the last occurrence are still to be passed over. *)
Fixpoint put_spans (here : text -> option nat) (t : text) (skip : nat) (s : text)
  {struct s} : text :=
  match s with
  | [] => []
  | a :: s' =>
      match skip with
      | S k => put_spans here t k s'
      | 0 =>
          match here s with
          | Some (S k) => t ++ put_spans here t k s'
          | _ => a :: put_spans here t 0 s'
          end
      end
  end.

(** A run of white space at the head of [s]. *)
Definition space_run_here (s : text) : option nat :=
  match s with
  | a :: t => if is_space a then Some (S (length (take_while is_space t))) else None
  | [] => None
  end.

(** Every run of white space becomes one space character; [in_run] tells
    that the character before was white space. *)
Fixpoint squeeze (in_run : bool) (s : text) : text :=
  match s with
  | [] => []
  | a :: t =>
      if is_space a then
        if in_run then squeeze true t else " "%char :: squeeze true t
      else a :: squeeze false t
  end.

(** No white space but single space characters between other characters. *)
Fixpoint single_spaced (s : text) : bool :=
  match s with
  | [] => true
  | a :: t =>
      (negb (is_space a)
       || (Ascii.eqb a " "
           && match t with b :: _ => negb (is_space b) | [] => false end))
      && single_spaced t
  end.

(** White space is space characters, never two in a row. *)
Fixpoint no_run (s : text) : bool :=
  match s with
  | [] => true
  | a :: t =>
      (negb (is_space a)
       || (Ascii.eqb a " "
           && match t with b :: _ => negb (is_space b) | [] => true end))
      && no_run t
  end.

(** [trimEnd]: the text up to its last character that is not white space. *)
Fixpoint trim_end (s : text) : text :=
  match s with
  | [] => []
  | a :: t => if has_ink s then a :: trim_end t else []
  end.


(** The word [w] at the head of [s], letter case apart: an occurrence of
    the pattern made of the letters of [w]. *)
Definition word_here (w : text) (s : text) : option nat :=
  if prefix_ok ci w s then Some (length w) else None.

(** [convertDataTypes] of [converter/index.ts] without the rules for
    BIGINT, SMALLINT and TINYINT, and without the alternative INTEGER. *)
Definition convertDataTypes_live (sql : text) : text :=
  let sql := replace_all_tpl (kw "STRING") "VARCHAR" sql in
  let sql := replace_all_tpl (kw "INT") "NUMBER(38,0)" sql in
  let sql := replace_all_tpl (kw "DOUBLE") "DOUBLE" sql in
  let sql := replace_all_tpl (kw "FLOAT") "FLOAT" sql in
  let sql := replace_all_tpl (kw "BOOLEAN") "BOOLEAN" sql in
  let sql := replace_all_tpl (kw "BINARY") "BINARY" sql in
  let sql := replace_all_tpl (kw "TIMESTAMP") "TIMESTAMP_NTZ" sql in
  let sql := replace_all_tpl (kw "DATE") "DATE" sql in
  let sql :=
    replace_all_tpl
      (seqs [kw "DECIMAL("; Group 1 (Plus (Chr (none_of ")"))); lit ")"])
      "NUMBER($1)" sql in
  let sql := replace_all_tpl (Index.re_complex "ARRAY") "ARRAY" sql in
  let sql := replace_all_tpl (Index.re_complex "MAP") "OBJECT" sql in
  let sql := replace_all_tpl (Index.re_complex "STRUCT") "OBJECT" sql in
  sql.


(** The nesting depth that the indentation of [formatSQL] has reached at
    the start of line [k], from [d] at the start of the first line. *)
Fixpoint depth_at (d : Z) (lines : list text) (k : nat) : Z :=
  match k, lines with
  | S k', line :: rest =>
      depth_at (d + (Lib.count_char "(" line - Lib.count_char ")" line))%Z rest k'
  | _, _ => d
  end.

(** The text that [formatSQL] of [lib/converter.ts] has laid out, before
    it indents the lines. *)
Definition laid_out (sql : text) : text :=
  let formatted := trim sql in
  let formatted :=
    fold_left
      (fun formatted (keyword : string) =>
         replace_all_tpl (Lib.re_whole_word keyword) keyword formatted)
      Lib.keywords formatted in
  let formatted := replace_all_tpl Lib.re_clause_head (nl ++ "$1") formatted in
  let formatted := replace_all_tpl Lib.re_join (nl ++ "$&") formatted in
  replace_all_tpl Lib.re_comma_item ("," ++ nl ++ "  $1") formatted.

(** The words that the patterns of [convertStatement] in
    [converter/index.ts] begin with. *)
Definition hive_words : list string :=
  [ "CREATE"; "INSERT"; "LATERAL"; "DISTRIBUTE"; "SORT"; "unix_timestamp(";
    "date_add"; "date_sub"; "collect_set"; "collect_list"; "get_json_object";
    "OVER" ].

(** None of the words of [hive_words] stands in [sql], letter case apart. *)
Definition plain (sql : text) : bool :=
  forallb (fun w : string => negb (occurs w sql)) hive_words.

(** Two more messages of the warnings of [src/lib/converter.ts]. *)
Definition warn_cluster_by : text :=
  "Snowflake doesn't support CLUSTER BY. Removing it.".
Definition warn_lateral_view : text :=
  "Converting LATERAL VIEW EXPLODE to Snowflake's FLATTEN.".

(** The list [[m]] if [b], and no message otherwise. *)
Definition said (b : bool) (m : text) : list text := if b then [m] else [].

(** *** Insert statements as their patterns read them *)

(** [k] is the word [w] in some letter case. *)
Definition spelt (w : string) (k : text) : bool :=
  prefix_ok ci w k && (length k =? length (list_ascii_of_string w)).




(** The target of the statement, with what follows it up to the partition
    clause: it begins with a character of a name. *)
Definition target (y : text) : bool :=
  match y with
  | a :: _ => non_space_nor "(" a
  | [] => false
  end.






(** *** Further inputs of the examples *)


Definition c3_input : text :=
  "FROM src INSERT OVERWRITE TABLE t1 SELECT a INSERT INTO TABLE t2 SELECT b INSERT OVERWRITE TABLE t3 SELECT c".

Definition c5_names : text :=
  "CREATE TABLE t (a INT, b STRING) PARTITIONED BY (point_id INT, print_dt STRING) STORED AS ORC".

(* ================================================================ *)
(** ** Theorems                                                       *)
(* ================================================================ *)

(** *** Facts about the matcher *)

Lemma star_loop_ext g (m1 m2 : text -> text -> caps -> cont -> option res) k1 k2 :
  (forall pre s c j1 j2,
      (forall pre' s' c', j1 pre' s' c' = j2 pre' s' c') ->
      m1 pre s c j1 = m2 pre s c j2) ->
  (forall pre s c, k1 pre s c = k2 pre s c) ->
  forall n pre s c, star_loop g m1 k1 n pre s c = star_loop g m2 k2 n pre s c.
Proof.
  intros Hm Hk. induction n as [|n IH]; intros pre s c; destruct g; simpl;
    rewrite ?Hk; try reflexivity.
  - rewrite (Hm pre s c _
               (fun pre' s' c' =>
                  if length s' <? length s
                  then star_loop true m2 k2 n pre' s' c' else None)).
    + reflexivity.
    + intros. destruct (length s' <? length s); [apply IH|reflexivity].
  - rewrite (Hm pre s c _
               (fun pre' s' c' =>
                  if length s' <? length s
                  then star_loop false m2 k2 n pre' s' c' else None)).
    + reflexivity.
    + intros. destruct (length s' <? length s); [apply IH|reflexivity].
Qed.

Lemma m_ext r : forall pre s c k1 k2,
  (forall pre' s' c', k1 pre' s' c' = k2 pre' s' c') ->
  m r pre s c k1 = m r pre s c k2.
Proof.
  induction r as [|f|r1 IH1 r2 IH2|r1 IH1 r2 IH2|g r1 IH1|i r1 IH1| | |];
    intros pre s c k1 k2 H; simpl.
  - apply H.
  - destruct s as [|a t]; [reflexivity|]. destruct (f a); [apply H|reflexivity].
  - apply IH1. intros. apply IH2. exact H.
  - rewrite (IH1 pre s c k1 k2 H), (IH2 pre s c k1 k2 H). reflexivity.
  - apply star_loop_ext; [|exact H]. intros. apply IH1. assumption.
  - apply IH1. intros. apply H.
  - destruct (bol_here pre); [apply H|reflexivity].
  - destruct s; [apply H|reflexivity].
  - destruct (xorb _ _); [apply H|reflexivity].
Qed.

Lemma m_chars cmp w : forall pre s c k,
  m (chars cmp w) pre s c k =
  if prefix_ok cmp w s
  then k (rev (firstn (length w) s) ++ pre) (skipn (length w) s) c
  else None.
Proof.
  induction w as [|x w IH]; intros pre s c k; simpl.
  - reflexivity.
  - destruct s as [|a t]; simpl; [reflexivity|].
    destruct (cmp x a); simpl; [|reflexivity].
    rewrite IH. destruct (prefix_ok cmp w t); [|reflexivity].
    rewrite <- app_assoc. reflexivity.
Qed.

Lemma star_loop_greedy_class f k : forall n pre s c,
  length s <= n ->
  star_loop true (m (Chr f)) k n pre s c = greedy_class f k pre s c.
Proof.
  induction n as [|n IH]; intros pre s c Hn.
  - destruct s; [|simpl in Hn; lia]. reflexivity.
  - destruct s as [|a t]; simpl; [reflexivity|].
    destruct (f a); [|reflexivity].
    replace (length t <? S (length t)) with true
      by (symmetry; apply Nat.ltb_lt; lia).
    rewrite IH by (simpl in Hn; lia). reflexivity.
Qed.

Lemma m_star_greedy f pre s c k :
  m (Star true (Chr f)) pre s c k = greedy_class f k pre s c.
Proof. simpl. apply star_loop_greedy_class. lia. Qed.

Lemma star_loop_lazy_class f k : forall n pre s c,
  length s <= n ->
  star_loop false (m (Chr f)) k n pre s c = lazy_class f k pre s c.
Proof.
  induction n as [|n IH]; intros pre s c Hn.
  - destruct s; [|simpl in Hn; lia]. simpl. destruct (k pre [] c); reflexivity.
  - destruct s as [|a t]; simpl.
    + destruct (k pre [] c); reflexivity.
    + destruct (k pre (a :: t) c); [reflexivity|].
      destruct (f a); [|reflexivity].
      replace (length t <? S (length t)) with true
        by (symmetry; apply Nat.ltb_lt; lia).
      rewrite IH by (simpl in Hn; lia). reflexivity.
Qed.

Lemma m_star_lazy f pre s c k :
  m (Star false (Chr f)) pre s c k = lazy_class f k pre s c.
Proof. simpl. apply star_loop_lazy_class. lia. Qed.

(** The rest of the pattern cannot start with a character of the class:
    the run is taken whole. *)
Lemma greedy_class_whole f k :
  (forall pre a t c, f a = true -> k pre (a :: t) c = None) ->
  forall s pre c,
    greedy_class f k pre s c
    = k (rev (take_while f s) ++ pre) (drop_while f s) c.
Proof.
  intros Hk. induction s as [|a t IH]; intros pre c; simpl; [reflexivity|].
  destruct (f a) eqn:E; [|reflexivity].
  rewrite IH. simpl. rewrite <- app_assoc. simpl.
  destruct (k _ (drop_while f t) c) eqn:Ek; [reflexivity|].
  apply Hk. exact E.
Qed.

Lemma drop_while_length f s : length (drop_while f s) <= length s.
Proof.
  induction s as [|a t IH]; simpl; [lia|]. destruct (f a); simpl; lia.
Qed.

Lemma prefix_ok_length cmp w : forall s,
  prefix_ok cmp w s = true -> length w <= length s.
Proof.
  induction w as [|x w IH]; intros s H; simpl in *; [lia|].
  destruct s as [|a t]; [discriminate|].
  apply andb_prop in H. destruct H as [_ H]. apply IH in H. simpl. lia.
Qed.

Lemma m_seq r1 r2 pre s c k :
  m (Seq r1 r2) pre s c k = m r1 pre s c (fun pre' s' c' => m r2 pre' s' c' k).
Proof. reflexivity. Qed.

Lemma m_chr f pre s c k :
  m (Chr f) pre s c k =
  match s with
  | a :: t => if f a then k (a :: pre) t c else None
  | [] => None
  end.
Proof. reflexivity. Qed.

Lemma m_alt r1 r2 pre s c k :
  m (Alt r1 r2) pre s c k =
  match m r1 pre s c k with Some x => Some x | None => m r2 pre s c k end.
Proof. reflexivity. Qed.

Lemma m_group i r1 pre s c k :
  m (Group i r1) pre s c k =
  m r1 pre s c
    (fun pre' s' c' => k pre' s' ((i, firstn (length s - length s') s) :: c')).
Proof. reflexivity. Qed.


(** *** Searching *)

Lemma search_hit r pre s n c :
  match_here r pre s = Some (n, c) ->
  search r pre s = Some (Found (rev pre) (firstn n s) (skipn n s) c).
Proof. intros H. destruct s; simpl; rewrite H; reflexivity. Qed.

Lemma dead_nil r pre s : dead r pre [] s.
Proof. intros x1 a x2 H. destruct x1; discriminate. Qed.

Lemma dead_cons r pre a x s :
  match_here r pre (a :: x ++ s) = None ->
  dead r (a :: pre) x s ->
  dead r pre (a :: x) s.
Proof.
  intros H0 H x1 b x2 E. destruct x1 as [|a' x1]; simpl in E; inversion E; subst.
  - exact H0.
  - simpl. rewrite <- app_assoc. simpl. apply (H x1 b x2). reflexivity.
Qed.

Lemma dead_inv r pre a x s :
  dead r pre (a :: x) s ->
  match_here r pre (a :: x ++ s) = None /\ dead r (a :: pre) x s.
Proof.
  intros H. split.
  - apply (H [] a x). reflexivity.
  - intros x1 b x2 E. specialize (H (a :: x1) b x2). simpl in H.
    rewrite <- app_assoc in H. simpl in H. apply H. rewrite E. reflexivity.
Qed.

Lemma dead_app r pre x y s :
  dead r pre x (y ++ s) -> dead r (rev x ++ pre) y s -> dead r pre (x ++ y) s.
Proof.
  revert pre. induction x as [|a x IH]; intros pre Hx Hy; simpl in *.
  - exact Hy.
  - apply dead_inv in Hx. destruct Hx as [H0 Hx].
    apply dead_cons.
    + rewrite <- app_assoc. exact H0.
    + apply IH; [exact Hx|]. rewrite <- app_assoc in Hy. exact Hy.
Qed.

Lemma search_dead r : forall x pre s,
  dead r pre x s -> search r pre (x ++ s) = search r (rev x ++ pre) s.
Proof.
  induction x as [|a x IH]; intros pre s H; [reflexivity|].
  apply dead_inv in H. destruct H as [H0 H].
  simpl. rewrite H0. rewrite IH by exact H. rewrite <- app_assoc. reflexivity.
Qed.

Lemma split_go_dead r : forall x pre cur s,
  dead r pre x s ->
  split_go r pre cur 0 (x ++ s) = split_go r (rev x ++ pre) (rev x ++ cur) 0 s.
Proof.
  induction x as [|a x IH]; intros pre cur s H; [reflexivity|].
  apply dead_inv in H. destruct H as [H0 H].
  simpl. rewrite H0. rewrite IH by exact H. rewrite <- !app_assoc. reflexivity.
Qed.

Lemma split_go_skip r : forall h pre cur s,
  split_go r pre cur (length h) (h ++ s) = split_go r (rev h ++ pre) cur 0 s.
Proof.
  induction h as [|a h IH]; intros pre cur s.
  - simpl. destruct s; reflexivity.
  - simpl. rewrite IH. rewrite <- app_assoc. reflexivity.
Qed.

Lemma split_go_hit r a h pre cur s c :
  match_here r pre (a :: h ++ s) = Some (S (length h), c) ->
  split_go r pre cur 0 (a :: h ++ s)
  = rev cur :: split_go r (rev h ++ a :: pre) [] 0 s.
Proof.
  intros H. simpl. rewrite H. rewrite split_go_skip. reflexivity.
Qed.

Lemma split_go_end r : forall x pre cur,
  dead r pre x [] -> split_go r pre cur 0 x = [rev cur ++ x].
Proof.
  intros x pre cur H. rewrite <- (app_nil_r x) at 1.
  rewrite split_go_dead by exact H. simpl. rewrite rev_app_distr, rev_involutive.
  reflexivity.
Qed.

(** A pattern that begins with a word finds nothing where the word is not. *)
Lemma kw_miss cmp w r pre s :
  prefix_ok cmp w s = false -> match_here (Seq (chars cmp w) r) pre s = None.
Proof.
  intros H. unfold match_here. rewrite m_seq, m_chars, H. reflexivity.
Qed.

Lemma prefix_ok_app cmp w : forall y z,
  prefix_ok cmp w (y ++ z) = true ->
  prefix_ok cmp w y = true
  \/ (length y < length w /\ prefix_ok cmp (skipn (length y) w) z = true).
Proof.
  induction w as [|c w IH]; intros y z H; [left; reflexivity|].
  destruct y as [|a y].
  - right. simpl. split; [lia|exact H].
  - simpl in H. apply andb_prop in H. destruct H as [H1 H2].
    apply IH in H2. destruct H2 as [H2|[L H2]].
    + left. simpl. rewrite H1, H2. reflexivity.
    + right. simpl. split; [lia|exact H2].
Qed.

Lemma occurs_false_cons w a s :
  occurs w (a :: s) = false -> prefix_ok ci w (a :: s) = false /\ occurs w s = false.
Proof. simpl occurs at 1. intros H. apply orb_false_elim in H. exact H. Qed.

Lemma skipn_tail_in {A} (l : list A) n x l' :
  0 < n -> skipn n l = x :: l' -> In x (tl l).
Proof.
  intros Hn H. destruct n as [|n]; [lia|]. destruct l as [|y l]; [discriminate|].
  simpl in *. rewrite <- (firstn_skipn n l). rewrite H.
  apply in_or_app. right. left. reflexivity.
Qed.

(** The word [w] does not occur in [x], and the text after [x] begins with
    a character that is none of the later letters of [w]: a pattern that
    begins with [w] finds nothing that starts inside [x]. *)
Lemma dead_kw w r : forall x pre b s,
  occurs w x = false -> foreign w b = true ->
  dead (Seq (chars ci w) r) pre x (b :: s).
Proof.
  induction x as [|a x IH]; intros pre b s Ho Hf; [apply dead_nil|].
  apply occurs_false_cons in Ho. destruct Ho as [Hp Ho].
  apply dead_cons; [|apply IH; assumption].
  apply kw_miss.
  destruct (prefix_ok ci w (a :: x ++ b :: s)) eqn:E; [|reflexivity].
  exfalso. change (a :: x ++ b :: s) with ((a :: x) ++ b :: s) in E.
  apply prefix_ok_app in E. destruct E as [E|[L E]]; [congruence|].
  destruct (skipn (length (a :: x)) w) as [|c w'] eqn:Sk; [|].
  - pose proof (length_skipn (length (a :: x)) w) as Q. rewrite Sk in Q.
    simpl in Q. simpl in L. lia.
  - simpl in E. apply andb_prop in E. destruct E as [E _].
    unfold foreign in Hf. rewrite forallb_forall in Hf.
    assert (Hin : In c (tl w)).
    { apply (skipn_tail_in w (length (a :: x)) c w'); [simpl; lia|exact Sk]. }
    apply Hf in Hin. rewrite E in Hin. discriminate.
Qed.

(** The same at the end of the text. *)
Lemma dead_kw_end w r : forall x pre,
  occurs w x = false -> dead (Seq (chars ci w) r) pre x [].
Proof.
  induction x as [|a x IH]; intros pre Ho; [apply dead_nil|].
  apply occurs_false_cons in Ho. destruct Ho as [Hp Ho].
  apply dead_cons; [|apply IH; assumption].
  apply kw_miss. rewrite app_nil_r. exact Hp.
Qed.

(** *** Runs of one class *)

Lemma take_drop_while f s : take_while f s ++ drop_while f s = s.
Proof.
  induction s as [|a t IH]; simpl; [reflexivity|].
  destruct (f a); simpl; [rewrite IH|]; reflexivity.
Qed.

Lemma firstn_take_while f s :
  firstn (length s - length (drop_while f s)) s = take_while f s.
Proof.
  rewrite <- (take_drop_while f s) at 1 3.
  rewrite length_app.
  replace (length (take_while f s) + length (drop_while f s)
           - length (drop_while f s)) with (length (take_while f s) + 0) by lia.
  rewrite firstn_app_2. simpl. apply app_nil_r.
Qed.

Lemma take_while_app f run b t :
  forallb f run = true -> f b = false -> take_while f (run ++ b :: t) = run.
Proof.
  intros Hr Hb. induction run as [|a run IH]; simpl in *.
  - rewrite Hb. reflexivity.
  - apply andb_prop in Hr. destruct Hr as [Ha Hr]. rewrite Ha, IH by exact Hr.
    reflexivity.
Qed.

Lemma drop_while_app f run b t :
  forallb f run = true -> f b = false -> drop_while f (run ++ b :: t) = b :: t.
Proof.
  intros Hr Hb. induction run as [|a run IH]; simpl in *.
  - rewrite Hb. reflexivity.
  - apply andb_prop in Hr. destruct Hr as [Ha Hr]. rewrite Ha. apply IH, Hr.
Qed.



(** The run is taken whole when what follows in the pattern matches
    after the whole run. *)
Lemma greedy_class_max f k : forall s pre c x,
  k (rev (take_while f s) ++ pre) (drop_while f s) c = Some x ->
  greedy_class f k pre s c = Some x.
Proof.
  induction s as [|a t IH]; intros pre c x H; simpl in *; [exact H|].
  destruct (f a); [|exact H].
  simpl in H. rewrite <- app_assoc in H. simpl in H.
  rewrite (IH _ _ _ H). reflexivity.
Qed.

Lemma star_class f k pre s c :
  rejects f k ->
  m (Star true (Chr f)) pre s c k
  = k (rev (take_while f s) ++ pre) (drop_while f s) c.
Proof. intros H. rewrite m_star_greedy. apply greedy_class_whole. exact H. Qed.

Lemma plus_class f k pre s c :
  rejects f k ->
  m (Plus (Chr f)) pre s c k
  = match s with
    | a :: t =>
        if f a then k (rev (take_while f t) ++ a :: pre) (drop_while f t) c
        else None
    | [] => None
    end.
Proof.
  intros H. unfold Plus. rewrite m_seq, m_chr.
  destruct s as [|a t]; [reflexivity|]. destruct (f a); [|reflexivity].
  apply star_class. exact H.
Qed.

Lemma group_plus_class i f k pre s c :
  (forall c', rejects f (fun pre' s' c'' => k pre' s' (c' :: c''))) ->
  m (Group i (Plus (Chr f))) pre s c k
  = match s with
    | a :: t =>
        if f a
        then k (rev (take_while f t) ++ a :: pre) (drop_while f t)
               ((i, a :: take_while f t) :: c)
        else None
    | [] => None
    end.
Proof.
  intros H. rewrite m_group.
  rewrite plus_class.
  - destruct s as [|a t]; [reflexivity|]. destruct (f a); [|reflexivity].
    do 3 f_equal.
    change (length (a :: t) - length (drop_while f t))
      with (S (length t) - length (drop_while f t)).
    pose proof (drop_while_length f t).
    replace (S (length t) - length (drop_while f t))
      with (S (length t - length (drop_while f t))) by lia.
    simpl. f_equal. apply firstn_take_while.
  - intros p a t c' Ha. apply (H (i, firstn (length s - length (a :: t)) s)). exact Ha.
Qed.

(** The same when what follows matches after the whole run. *)
Lemma star_class_max f k pre s c x :
  k (rev (take_while f s) ++ pre) (drop_while f s) c = Some x ->
  m (Star true (Chr f)) pre s c k = Some x.
Proof. intros H. rewrite m_star_greedy. apply greedy_class_max. exact H. Qed.

Lemma plus_class_max f k pre a t c x :
  f a = true ->
  k (rev (take_while f t) ++ a :: pre) (drop_while f t) c = Some x ->
  m (Plus (Chr f)) pre (a :: t) c k = Some x.
Proof.
  intros Ha H. unfold Plus. rewrite m_seq, m_chr, Ha.
  apply star_class_max. exact H.
Qed.

(** *** Characters *)

Lemma space_lower a : is_space a = true -> to_lower a = a.
Proof. destruct a as [[] [] [] [] [] [] [] []]; vm_compute; congruence. Qed.

Lemma lower_space x : is_space (to_lower x) = true -> to_lower x = x.
Proof. destruct x as [[] [] [] [] [] [] [] []]; vm_compute; congruence. Qed.

Lemma space_ci x a : is_space a = true -> is_space x = false -> ci x a = false.
Proof.
  intros Ha Hx. unfold ci. destruct (Ascii.eqb (to_lower x) (to_lower a)) eqn:E;
    [|reflexivity].
  apply Ascii.eqb_eq in E. rewrite (space_lower a Ha) in E.
  assert (to_lower x = x) by (apply lower_space; rewrite E; exact Ha).
  congruence.
Qed.


Lemma rejects_space_chars x w k :
  is_space x = false ->
  rejects is_space (fun pre s c => m (chars ci (x :: w)) pre s c k).
Proof.
  intros Hx pre a t c Ha. simpl chars. rewrite m_seq, m_chr.
  rewrite (space_ci x a Ha Hx). reflexivity.
Qed.

Lemma space_not_B a : is_space a = true -> ci "B" a = false.
Proof.
  destruct a as [[] [] [] [] [] [] [] []]; vm_compute; congruence.
Qed.

(* ---------------------------------------------------------------- *)
(** *** C1: the segmenter on nested comment openers *)
(* ---------------------------------------------------------------- *)

(** **** Blank texts *)

Lemma has_ink_app x y : has_ink (x ++ y) = has_ink x || has_ink y.
Proof.
  induction x as [|a x IH]; simpl; [reflexivity|].
  rewrite IH. apply orb_assoc.
Qed.

Lemma has_ink_rev x : has_ink (rev x) = has_ink x.
Proof.
  induction x as [|a x IH]; simpl; [reflexivity|].
  rewrite has_ink_app, IH. simpl. rewrite orb_false_r. apply orb_comm.
Qed.

Lemma has_ink_trim_start s : has_ink (trim_start s) = has_ink s.
Proof.
  induction s as [|a t IH]; simpl; [reflexivity|].
  destruct (is_space a) eqn:E; simpl; [exact IH|rewrite E; reflexivity].
Qed.

Lemma nonempty_trim_start s : nonempty (trim_start s) = has_ink s.
Proof.
  induction s as [|a t IH]; simpl; [reflexivity|].
  destruct (is_space a); simpl; [exact IH|reflexivity].
Qed.

Lemma nonempty_rev s : nonempty (rev s) = nonempty s.
Proof.
  destruct s as [|a t]; simpl; [reflexivity|].
  destruct (rev t); reflexivity.
Qed.

Lemma nonempty_trim s : nonempty (trim s) = has_ink s.
Proof.
  unfold trim. rewrite nonempty_rev, nonempty_trim_start, has_ink_rev.
  apply has_ink_trim_start.
Qed.

(** **** The loop, mode by mode *)

(** One turn of the loop in each mode. *)
Lemma scan_char_quoted stmts cur q dep a nx :
  is_quote q = true ->
  Index.scan_char (Index.Scanner stmts cur true (Some q) false false dep) a nx
  = (Index.Scanner stmts (cur ++ [a]) (negb (Ascii.eqb a q)) (Some q)
       false false dep, false).
Proof.
  intros Hq. unfold Index.scan_char.
  cbn [negb andb Index.is_some_char]. rewrite !andb_true_r.
  rewrite (Ascii.eqb_sym q a).
  change ((a =? "'")%char || (a =? DQUOTE)%char) with (is_quote a).
  destruct (Ascii.eqb_spec a q) as [->|Hn].
  - rewrite Hq. cbn [negb]. rewrite !andb_false_r.
    unfold is_quote in Hq.
    destruct (Ascii.eqb_spec q "'") as [->|_]; [reflexivity|].
    destruct (Ascii.eqb_spec q DQUOTE) as [->|_]; [reflexivity|discriminate].
  - destruct (is_quote a); cbn [negb andb]; rewrite !andb_false_r; reflexivity.
Qed.

Lemma scan_char_line stmts cur strCh dep a nx :
  Ascii.eqb a "/" && Index.is_some_char "*" nx = false ->
  Index.scan_char (Index.Scanner stmts cur false strCh true false dep) a nx
  = (Index.Scanner stmts (cur ++ [a]) false strCh (negb (Ascii.eqb a LF))
       false dep, false).
Proof.
  intros Hs. unfold Index.scan_char.
  cbn [negb andb]. rewrite !andb_false_r, Hs.
  destruct (Ascii.eqb_spec a LF) as [->|Hn]; [reflexivity|].
  cbn [andb].
  destruct ((a =? "-")%char && Index.is_some_char "-" nx);
    cbn [negb andb]; rewrite !andb_false_r; reflexivity.
Qed.

Lemma scan_char_block stmts cur strCh dep a nx :
  Ascii.eqb a "-" && Index.is_some_char "-" nx = false ->
  Ascii.eqb a "/" && Index.is_some_char "*" nx = false ->
  Index.scan_char (Index.Scanner stmts cur false strCh false true dep) a nx
  = if Ascii.eqb a "*" && Index.is_some_char "/" nx
    then (Index.Scanner stmts cur false strCh false false dep, true)
    else (Index.Scanner stmts (cur ++ [a]) false strCh false true dep, false).
Proof.
  intros Hd Hs. unfold Index.scan_char.
  cbn [negb andb]. rewrite !andb_false_r, Hd, Hs, !andb_true_r.
  destruct ((a =? "*")%char && Index.is_some_char "/" nx); [reflexivity|].
  cbn [negb andb]. rewrite !andb_false_r. reflexivity.
Qed.

Lemma scan_char_code stmts cur strCh dep a nx :
  Index.scan_char (Index.Scanner stmts cur false strCh false false dep) a nx
  = if is_quote a
    then (Index.Scanner stmts (cur ++ [a]) true (Some a) false false dep, false)
    else if Ascii.eqb a "-" && Index.is_some_char "-" nx
    then (Index.Scanner stmts (cur ++ [a]) false strCh true false dep, false)
    else if Ascii.eqb a "/" && Index.is_some_char "*" nx
    then (Index.Scanner stmts (cur ++ [a]) false strCh false true dep, true)
    else if Ascii.eqb a "("
    then (Index.Scanner stmts (cur ++ [a]) false strCh false false (dep + 1), false)
    else if Ascii.eqb a ")"
    then (Index.Scanner stmts (cur ++ [a]) false strCh false false (dep - 1), false)
    else if Ascii.eqb a ";" && (dep =? 0)%Z
    then (Index.Scanner
            (if nonempty (trim cur) then stmts ++ [trim cur] else stmts)
            [] false strCh false false dep, false)
    else (Index.Scanner stmts (cur ++ [a]) false strCh false false dep, false).
Proof.
  unfold Index.scan_char. cbn [negb andb]. rewrite !andb_true_r.
  change ((a =? "'")%char || (a =? DQUOTE)%char) with (is_quote a).
  destruct (is_quote a) eqn:Eq.
  - unfold is_quote in Eq.
    destruct (Ascii.eqb_spec a "'") as [->|_]; [reflexivity|].
    destruct (Ascii.eqb_spec a DQUOTE) as [->|_]; [reflexivity|discriminate].
  - cbn [negb].
    destruct (Ascii.eqb_spec a "-") as [->|Hn1].
    { cbn [andb]. destruct (Index.is_some_char "-" nx); reflexivity. }
    destruct (Ascii.eqb_spec a "/") as [->|Hn2].
    { cbn [andb]. destruct (Index.is_some_char "*" nx); reflexivity. }
    cbn [andb]. rewrite !andb_false_r. cbn [negb andb].
    destruct (Ascii.eqb_spec a "(") as [->|Hn3]; [reflexivity|].
    destruct (Ascii.eqb_spec a ")") as [->|Hn4]; [reflexivity|].
    rewrite !andb_true_r. reflexivity.
Qed.

(** The loop, one step at a time. *)
Lemma scan_from_step st a t :
  Index.scan_from st (a :: t) =
  Index.scan_from (fst (Index.scan_char st a (hd_error t)))
    (if snd (Index.scan_char st a (hd_error t)) then tl t else t).
Proof.
  cbn [Index.scan_from].
  destruct (Index.scan_char st a (hd_error t)) as [st' [|]]; cbn [fst snd];
    destruct t; reflexivity.
Qed.

Lemma segments_code dep rcur a t :
  segments Code dep rcur (a :: t) =
  if is_quote a then segments (Quoted a) dep (a :: rcur) t
  else if dashes a t then segments LineComment dep (a :: rcur) t
  else if slash_star a t
       then segments BlockComment dep ("*"%char :: a :: rcur) (tl t)
  else if Ascii.eqb a "(" then segments Code (dep + 1)%Z (a :: rcur) t
  else if Ascii.eqb a ")" then segments Code (dep - 1)%Z (a :: rcur) t
  else if Ascii.eqb a ";" && (dep =? 0)%Z
       then rev rcur :: segments Code dep [] t
  else segments Code dep (a :: rcur) t.
Proof.
  unfold dashes, slash_star. cbn [segments].
  destruct (is_quote a); [reflexivity|].
  destruct t as [|b t']; cbn [hd_error tl Index.is_some_char].
  - rewrite !andb_false_r. reflexivity.
  - destruct ((a =? "-")%char && (b =? "-")%char); [reflexivity|].
    destruct (Ascii.eqb_spec b "*") as [->|_];
      [reflexivity|rewrite !andb_false_r; reflexivity].
Qed.

Lemma segments_block dep rcur a t :
  segments BlockComment dep rcur (a :: t) =
  if star_slash a t
  then segments Code dep ("/"%char :: a :: rcur) (tl t)
  else segments BlockComment dep (a :: rcur) t.
Proof.
  unfold star_slash. cbn [segments].
  destruct t as [|b t']; cbn [hd_error tl Index.is_some_char].
  - rewrite !andb_false_r. reflexivity.
  - destruct (Ascii.eqb_spec b "/") as [->|_];
      [reflexivity|rewrite !andb_false_r; reflexivity].
Qed.

Lemma flat_code a t :
  flat Code (a :: t) =
  if is_quote a then flat (Quoted a) t
  else if dashes a t then flat LineComment t
  else if slash_star a t then flat BlockComment (tl t)
  else flat Code t.
Proof.
  unfold dashes, slash_star. cbn [flat].
  destruct t as [|b t']; cbn [hd_error tl Index.is_some_char].
  - rewrite !andb_false_r. destruct (is_quote a); reflexivity.
  - reflexivity.
Qed.

Lemma flat_line a t :
  flat LineComment (a :: t) =
  negb (slash_star a t) && flat (if Ascii.eqb a LF then Code else LineComment) t.
Proof.
  unfold slash_star. cbn [flat].
  destruct t as [|b t']; cbn [hd_error Index.is_some_char].
  - rewrite !andb_false_r. reflexivity.
  - reflexivity.
Qed.

Lemma flat_block a t :
  flat BlockComment (a :: t) =
  if star_slash a t then flat Code (tl t)
  else negb (dashes a t) && negb (slash_star a t) && flat BlockComment t.
Proof.
  unfold dashes, slash_star, star_slash. cbn [flat].
  destruct t as [|b t']; cbn [hd_error tl Index.is_some_char].
  - rewrite !andb_false_r. reflexivity.
  - reflexivity.
Qed.

Lemma follows_nil s : follows [] [] Code s.
Proof. split; [reflexivity|split; [reflexivity|discriminate]]. Qed.

Lemma follows_end cur rcur md s :
  follows cur rcur md s ->
  written Code (rev rcur) = cur
  /\ nonempty (trim (rev rcur)) = nonempty (trim cur).
Proof.
  intros (H1 & H2 & _). split.
  - specialize (H1 0). cbn [firstn] in H1. destruct md;
      cbn [written] in H1; rewrite !app_nil_r in H1; exact H1.
  - rewrite !nonempty_trim, has_ink_rev. symmetry. exact H2.
Qed.

Lemma has_ink_snoc cur a : has_ink (cur ++ [a]) = has_ink (a :: cur).
Proof.
  rewrite has_ink_app. simpl. rewrite orb_false_r. apply orb_comm.
Qed.

Lemma follows_step cur rcur md a t md' :
  follows cur rcur md (a :: t) ->
  (forall n, written md (a :: firstn n t) = a :: written md' (firstn n t)) ->
  (md' = BlockComment -> md = BlockComment) ->
  follows (cur ++ [a]) (a :: rcur) md' t.
Proof.
  intros (H1 & H2 & H3) Hw Hb. split; [|split].
  - intros n. specialize (H1 (S n)). cbn [firstn] in H1.
    cbn [rev]. rewrite <- !app_assoc. cbn [app].
    rewrite H1, Hw. reflexivity.
  - rewrite has_ink_snoc. simpl. rewrite H2. reflexivity.
  - intros E. rewrite has_ink_snoc. simpl. rewrite (H3 (Hb E)).
    apply orb_true_r.
Qed.

Lemma follows_open cur rcur t :
  follows cur rcur Code ("/"%char :: "*"%char :: t) ->
  follows (cur ++ ["/"%char]) ("*"%char :: "/"%char :: rcur) BlockComment t.
Proof.
  intros (H1 & H2 & H3). split; [|split].
  - intros n. specialize (H1 (S (S n))). cbn [firstn] in H1.
    cbn [rev]. rewrite <- !app_assoc. cbn [app].
    rewrite H1. reflexivity.
  - rewrite has_ink_snoc. reflexivity.
  - intros _. rewrite has_ink_snoc. reflexivity.
Qed.

Lemma follows_close cur rcur t :
  follows cur rcur BlockComment ("*"%char :: "/"%char :: t) ->
  follows cur ("/"%char :: "*"%char :: rcur) Code t.
Proof.
  intros (H1 & H2 & H3). split; [|split].
  - intros n. specialize (H1 (S (S n))). cbn [firstn] in H1.
    cbn [rev]. rewrite <- !app_assoc. cbn [app].
    rewrite H1. reflexivity.
  - rewrite (H3 eq_refl). reflexivity.
  - discriminate.
Qed.

Lemma kept_written_cons seg l :
  kept_written (seg :: l) =
  if nonempty (trim seg) then trim (written Code seg) :: kept_written l
  else kept_written l.
Proof. unfold kept_written. cbn [filter]. destruct (nonempty (trim seg)); reflexivity. Qed.

Lemma is_some_char_hd c t :
  Index.is_some_char c (hd_error t) = true -> t = c :: tl t.
Proof.
  destruct t as [|b t']; cbn; [discriminate|].
  intros H. apply Ascii.eqb_eq in H. now subst.
Qed.

Lemma written_code_step a t k :
  is_quote a = false -> slash_star a t = false ->
  written Code (a :: firstn k t)
  = a :: written (if dashes a t then LineComment else Code) (firstn k t).
Proof.
  unfold slash_star, dashes. intros Eq Hs.
  destruct k as [|k]; destruct t as [|b t'];
    cbn [firstn written hd_error Index.is_some_char] in *; rewrite Eq;
    rewrite ?andb_false_r, ?Hs;
    repeat match goal with
           | |- context [if ?c then _ else _] => destruct c
           end; reflexivity.
Qed.

Lemma written_block_step a t k :
  star_slash a t = false ->
  written BlockComment (a :: firstn k t) = a :: written BlockComment (firstn k t).
Proof.
  unfold star_slash. intros Hs.
  destruct k as [|k]; destruct t as [|b t'];
    cbn [firstn written hd_error Index.is_some_char] in *;
    rewrite ?Hs; reflexivity.
Qed.

Lemma scan_follows n :
  forall s, length s <= n ->
  forall stmts cur rcur inStr strCh inCom inMulti dep md,
    flat md s = true ->
    flags inStr strCh inCom inMulti md ->
    follows cur rcur md s ->
    pushed (Index.scan_from
              (Index.Scanner stmts cur inStr strCh inCom inMulti dep) s)
    = stmts ++ kept_written (segments md dep rcur s).
Proof.
  induction n as [|n IH]; intros s Hn stmts cur rcur inStr strCh inCom inMulti
    dep md Hf Hm Hc;
    (destruct s as [|a t];
     [ clear Hn Hf Hm; apply follows_end in Hc as [Hw Hk];
       unfold pushed; cbn [Index.scan_from Index.currentStatement
                             Index.statements segments];
       rewrite kept_written_cons, Hk, Hw;
       destruct (nonempty (trim cur)); [reflexivity|symmetry; apply app_nil_r]
     | ]); [simpl in Hn; lia|].
  assert (Ht : length t <= n) by (simpl in Hn; lia). clear Hn.
  rewrite scan_from_step.
  destruct md as [|q| |]; cbn [flags] in Hm.
  - (* code *)
    destruct Hm as (-> & -> & ->).
    rewrite scan_char_code, segments_code. rewrite flat_code in Hf.
    fold (dashes a t) (slash_star a t).
    destruct (is_quote a) eqn:Eq.
    { cbn [fst snd]. apply IH; [exact Ht|exact Hf|cbn; auto|].
      apply (follows_step _ _ _ _ _ _ Hc); [|discriminate].
      intros k. cbn [written]. rewrite Eq. reflexivity. }
    destruct (slash_star a t) eqn:Es.
    { destruct (dashes a t) eqn:Ed;
        [unfold dashes, slash_star in *;
         destruct (Ascii.eqb_spec a "-") as [->|]; discriminate|].
      unfold slash_star in Es. apply andb_prop in Es as [Ea Eb].
      apply Ascii.eqb_eq in Ea. subst a.
      apply is_some_char_hd in Eb. destruct t as [|b t']; [discriminate|].
      cbn [tl] in *. injection Eb as ->.
      cbn [fst snd tl]. apply IH; [simpl in Ht; lia|exact Hf|cbn; auto|].
      apply follows_open. exact Hc. }
    assert (Hstep : forall md',
               md' = (if dashes a t then LineComment else Code) ->
               follows (cur ++ [a]) (a :: rcur) md' t).
    { intros md' ->. apply (follows_step _ _ _ _ _ _ Hc).
      - intros k. apply written_code_step; assumption.
      - destruct (dashes a t); discriminate. }
    destruct (dashes a t) eqn:Ed.
    { cbn [fst snd]. apply IH; [exact Ht|exact Hf|cbn; auto|].
      apply Hstep. reflexivity. }
    specialize (Hstep Code eq_refl).
    destruct (Ascii.eqb a "(").
    { cbn [fst snd]. apply IH; [exact Ht|exact Hf|cbn; auto|exact Hstep]. }
    destruct (Ascii.eqb a ")").
    { cbn [fst snd]. apply IH; [exact Ht|exact Hf|cbn; auto|exact Hstep]. }
    destruct (Ascii.eqb a ";" && (dep =? 0)%Z).
    { cbn [fst snd]. rewrite kept_written_cons.
      apply follows_end in Hc as [Hw Hk]. rewrite Hk, Hw.
      rewrite (IH t Ht _ [] [] _ _ _ _ _ Code Hf);
        [|cbn; auto|apply follows_nil].
      destruct (nonempty (trim cur)); [|reflexivity].
      rewrite <- app_assoc. reflexivity. }
    cbn [fst snd]. apply IH; [exact Ht|exact Hf|cbn; auto|exact Hstep].
  - (* quoted *)
    destruct Hm as (-> & -> & Hq & -> & ->).
    rewrite (scan_char_quoted _ _ _ _ _ _ Hq). cbn [fst snd segments].
    cbn [flat] in Hf.
    apply IH; [exact Ht|exact Hf| |].
    + destruct (Ascii.eqb a q); cbn; auto.
    + apply (follows_step _ _ _ _ _ _ Hc).
      * intros k. reflexivity.
      * destruct (Ascii.eqb a q); discriminate.
  - (* line comment *)
    destruct Hm as (-> & -> & ->).
    rewrite flat_line in Hf. apply andb_prop in Hf as [Hs Hf].
    apply negb_true_iff in Hs.
    rewrite (scan_char_line _ _ _ _ _ _ Hs). cbn [fst snd segments].
    apply IH; [exact Ht|exact Hf| |].
    + destruct (Ascii.eqb a LF); cbn; auto.
    + apply (follows_step _ _ _ _ _ _ Hc).
      * intros k. reflexivity.
      * destruct (Ascii.eqb a LF); discriminate.
  - (* block comment *)
    destruct Hm as (-> & -> & ->).
    rewrite flat_block in Hf. rewrite segments_block.
    destruct (star_slash a t) eqn:Ec.
    + assert (Hd : dashes a t = false /\ slash_star a t = false).
      { unfold dashes, slash_star, star_slash in *.
        destruct (Ascii.eqb_spec a "*") as [->|]; [split; reflexivity|discriminate]. }
      destruct Hd as [Hd Hs].
      rewrite (scan_char_block _ _ _ _ _ _ Hd Hs).
      fold (star_slash a t). rewrite Ec. cbn [fst snd].
      unfold star_slash in Ec. apply andb_prop in Ec as [Ea Eb].
      apply Ascii.eqb_eq in Ea. subst a.
      apply is_some_char_hd in Eb. destruct t as [|b t']; [discriminate|].
      cbn [tl] in *. injection Eb as ->.
      apply IH; [simpl in Ht; lia|exact Hf|cbn; auto|].
      apply follows_close. exact Hc.
    + apply andb_prop in Hf as [Hf Hf3]. apply andb_prop in Hf as [Hd Hs].
      apply negb_true_iff in Hd, Hs.
      rewrite (scan_char_block _ _ _ _ _ _ Hd Hs).
      fold (star_slash a t). rewrite Ec. cbn [fst snd].
      apply IH; [exact Ht|exact Hf3|cbn; auto|].
      apply (follows_step _ _ _ _ _ _ Hc); [|reflexivity].
      intros k. apply written_block_step. exact Ec.
Qed.

Lemma written_ink s :
  forall md, md <> BlockComment -> has_ink (written md s) = has_ink s.
Proof.
  induction s as [|a t IH]; intros md Hmd; [reflexivity|].
  destruct md as [|q| |]; [| | |contradiction]; cbn [written].
  - destruct (is_quote a); [cbn [has_ink]; rewrite IH; [reflexivity|discriminate]|].
    destruct t as [|b t']; [reflexivity|].
    destruct ((a =? "-")%char && (b =? "-")%char);
      [cbn [has_ink]; rewrite IH; [reflexivity|discriminate]|].
    destruct (Ascii.eqb_spec a "/") as [->|_]; cbn [andb].
    + destruct (b =? "*")%char; [reflexivity|].
      cbn [has_ink]. rewrite IH; [reflexivity|discriminate].
    + cbn [has_ink]. rewrite IH; [reflexivity|discriminate].
  - cbn [has_ink]. rewrite IH; [reflexivity|].
    destruct (Ascii.eqb a q); discriminate.
  - cbn [has_ink]. rewrite IH; [reflexivity|].
    destruct (Ascii.eqb a LF); discriminate.
Qed.

Lemma nonempty_length (x : text) : (0 <? length x) = nonempty x.
Proof. destruct x; reflexivity. Qed.

Lemma kept_written_fixed l :
  filter (fun stmt => 0 <? length stmt) (kept_written l) = kept_written l.
Proof.
  induction l as [|seg l IH]; [reflexivity|].
  rewrite kept_written_cons. destruct (nonempty (trim seg)) eqn:E; [|exact IH].
  cbn [filter]. rewrite nonempty_length, nonempty_trim, written_ink,
    <- nonempty_trim, E, IH; [reflexivity|discriminate].
Qed.

Lemma splitStatements_pushed sql :
  Index.splitStatements sql
  = filter (fun stmt => 0 <? length stmt)
      (pushed (Index.scan_from Index.scanner0 sql)).
Proof. reflexivity. Qed.

(** Where no comment opener stands inside a comment, [splitStatements]
    gives one statement for each top-level segment that is not blank, made
    of the characters of the segment that the loop writes. *)
Theorem splitStatements_flat sql :
  flat Code sql = true ->
  Index.splitStatements sql
  = map (fun seg => trim (written Code seg)) (statements sql).
Proof.
  intros Hf. rewrite splitStatements_pushed. unfold Index.scanner0.
  rewrite (scan_follows (length sql) sql (le_n _) [] [] [] false None false
             false 0%Z Code Hf);
    [|cbn; auto|apply follows_nil].
  cbn [app]. apply kept_written_fixed.
Qed.

(** *** Texts without a block comment *)

Lemma starts_with_app w x y : starts_with w x = true -> starts_with w (x ++ y) = true.
Proof.
  revert x. induction w as [|c w IH]; intros x H; [reflexivity|].
  destruct x as [|a x]; [discriminate|].
  cbn [starts_with app] in *. apply andb_prop in H as [H1 H2].
  rewrite H1, (IH _ H2). reflexivity.
Qed.

Lemma includes_app w x y :
  includes w (x ++ y) = false -> includes w x = false /\ includes w y = false.
Proof.
  induction x as [|a x IH]; cbn [app].
  - intros H. split; [|exact H].
    destruct w; [destruct y; discriminate|reflexivity].
  - cbn [includes]. intros H. apply orb_false_iff in H as [H1 H2].
    destruct (IH H2) as [Hx Hy]. split; [|exact Hy].
    rewrite Hx, orb_false_r.
    destruct (starts_with w (a :: x)) eqn:E; [|reflexivity].
    apply (starts_with_app _ _ y) in E. cbn [app] in E.
    rewrite E in H1. discriminate.
Qed.

Lemma includes_cons a t :
  includes "/*" (a :: t) = false ->
  slash_star a t = false /\ includes "/*" t = false.
Proof.
  cbn [includes]. intros H. apply orb_false_iff in H as [H1 H2].
  split; [|exact H2]. unfold slash_star.
  destruct t as [|b t']; cbn [hd_error Index.is_some_char];
    [apply andb_false_r|].
  cbn in H1. rewrite andb_true_r in H1.
  rewrite (Ascii.eqb_sym a "/"), (Ascii.eqb_sym b "*"). exact H1.
Qed.

Lemma written_plain s :
  forall md, md <> BlockComment -> includes "/*" s = false -> written md s = s.
Proof.
  induction s as [|a t IH]; intros md Hmd Hs; [reflexivity|].
  apply includes_cons in Hs as [Hs Ht]. unfold slash_star in Hs.
  destruct md as [|q| |]; [| | |contradiction]; cbn [written].
  - destruct (is_quote a); [rewrite IH; [reflexivity|discriminate|exact Ht]|].
    destruct t as [|b t']; [reflexivity|].
    cbn [hd_error Index.is_some_char] in Hs. rewrite Hs.
    destruct ((a =? "-")%char && (b =? "-")%char);
      (rewrite IH; [reflexivity|discriminate|exact Ht]).
  - rewrite IH; [reflexivity| |exact Ht]. destruct (Ascii.eqb a q); discriminate.
  - rewrite IH; [reflexivity| |exact Ht]. destruct (Ascii.eqb a LF); discriminate.
Qed.

Lemma flat_plain s :
  forall md, md <> BlockComment -> includes "/*" s = false -> flat md s = true.
Proof.
  induction s as [|a t IH]; intros md Hmd Hs; [reflexivity|].
  apply includes_cons in Hs as [Hs Ht].
  destruct md as [|q| |]; [| | |contradiction].
  - rewrite flat_code, Hs.
    destruct (is_quote a); [apply IH; [discriminate|exact Ht]|].
    destruct (dashes a t); (apply IH; [discriminate|exact Ht]).
  - cbn [flat]. apply IH; [|exact Ht]. destruct (Ascii.eqb a q); discriminate.
  - rewrite flat_line, Hs. apply IH; [|exact Ht].
    destruct (Ascii.eqb a LF); discriminate.
Qed.

Lemma segments_plain s :
  forall md dep rcur,
    md <> BlockComment ->
    includes "/*" (rev rcur ++ s) = false ->
    Forall (fun seg => includes "/*" seg = false) (segments md dep rcur s).
Proof.
  induction s as [|a t IH]; intros md dep rcur Hmd Hs.
  - cbn [segments]. rewrite app_nil_r in Hs. auto.
  - assert (Hnext : includes "/*" (rev (a :: rcur) ++ t) = false).
    { cbn [rev]. rewrite <- app_assoc. exact Hs. }
    destruct (includes_app _ _ _ Hs) as [Hl Hr].
    apply includes_cons in Hr as [Hr Ht].
    destruct md as [|q| |]; [| | |contradiction].
    + rewrite segments_code, Hr.
      destruct (is_quote a); [apply IH; [discriminate|exact Hnext]|].
      destruct (dashes a t); [apply IH; [discriminate|exact Hnext]|].
      destruct (Ascii.eqb a "("); [apply IH; [discriminate|exact Hnext]|].
      destruct (Ascii.eqb a ")"); [apply IH; [discriminate|exact Hnext]|].
      destruct (Ascii.eqb a ";" && (dep =? 0)%Z);
        [|apply IH; [discriminate|exact Hnext]].
      constructor; [exact Hl|]. apply IH; [discriminate|exact Ht].
    + cbn [segments]. apply IH; [|exact Hnext].
      destruct (Ascii.eqb a q); discriminate.
    + cbn [segments]. apply IH; [|exact Hnext].
      destruct (Ascii.eqb a LF); discriminate.
Qed.

(** In a text without a block-comment opener, [splitStatements] gives the
    top-level segments that are not blank, each one trimmed. *)
Theorem splitStatements_plain sql :
  includes "/*" sql = false ->
  Index.splitStatements sql = map trim (statements sql).
Proof.
  intros Hs.
  rewrite (splitStatements_flat sql (flat_plain sql Code ltac:(discriminate) Hs)).
  apply map_ext_in. intros seg Hin. unfold statements in Hin.
  apply filter_In in Hin as [Hin _].
  pose proof (segments_plain sql Code 0%Z [] ltac:(discriminate) Hs) as Hall.
  rewrite Forall_forall in Hall.
  rewrite written_plain; [reflexivity|discriminate|exact (Hall _ Hin)].
Qed.

(** The scenario of the specification: a semicolon inside a string
    literal does not split. *)
Example split_quoted_semicolon :
  Index.splitStatements "SELECT 'a;b' FROM t" = ["SELECT 'a;b' FROM t" : text].
Proof. vm_compute. reflexivity. Qed.

(** C1 (code defect).  The claim wants one statement per non-blank
    top-level segment, and no split elsewhere.  [splitStatements] does so
    on every text without a block-comment opener, where its statements are
    the trimmed segments; and on every text where no comment opener stands
    inside a comment, where each statement is its segment less the
    characters of the block-comment marks that the loop passes over.  A
    block-comment opener written inside a line comment is taken as the
    start of a block comment, so the semicolon of the next line, which is
    outside every string, comment and parenthesis, does not split: the code
    returns one statement where the input has two top-level segments.  And
    a line-comment opener written inside a block comment keeps the line
    comment flag up after the block comment is closed, so the parenthesis
    that follows is not counted and the semicolon inside it splits. *)
Theorem C1_comment_opener_inside_a_comment :
  (forall sql, includes "/*" sql = false ->
     Index.splitStatements sql = map trim (statements sql))
  /\ (forall sql, flat Code sql = true ->
        Index.splitStatements sql
        = map (fun seg => trim (written Code seg)) (statements sql)
        /\ length (Index.splitStatements sql) = length (statements sql))
  /\ (flat Code c1_input = false
      /\ length (statements c1_input) = 2
      /\ Index.splitStatements c1_input
         = ["-- see / here" ++ nl ++ "SELECT 1; SELECT 2"])
  /\ (flat Code c1_in_parentheses = false
      /\ length (statements c1_in_parentheses) = 1
      /\ Index.splitStatements c1_in_parentheses
         = ["/ --  SELECT f(1" : text; "2)" : text]).
Proof.
  split; [exact splitStatements_plain|].
  split; [|vm_compute; repeat split; reflexivity].
  intros sql Hf. pose proof (splitStatements_flat sql Hf) as H.
  split; [exact H|]. rewrite H. apply length_map.
Qed.

Lemma C1_comment_opener_inside_a_comment_witness :
  (includes "/*" c1_line_comment = false
   /\ Index.splitStatements c1_line_comment = map trim (statements c1_line_comment))
  /\ (flat Code c1_block_comment = true
      /\ length (Index.splitStatements c1_block_comment)
         = length (statements c1_block_comment)).
Proof.
  split; (split; [reflexivity|]).
  - exact (proj1 C1_comment_opener_inside_a_comment c1_line_comment eq_refl).
  - exact (proj2 (proj1 (proj2 C1_comment_opener_inside_a_comment)
                    c1_block_comment eq_refl)).
Defined.

(* ---------------------------------------------------------------- *)
(** *** Texts that end inside a string literal or a block comment *)
(* ---------------------------------------------------------------- *)

Lemma eqb_ink c a : Ascii.eqb a c = true -> is_space c = false -> is_space a = false.
Proof. intros H. apply Ascii.eqb_eq in H. subst. auto. Qed.





Section Rewrites.

Local Arguments Nat.sub : simpl never.

(* ---------------------------------------------------------------- *)
(** *** C3: multi-target inserts *)
(* ---------------------------------------------------------------- *)

Lemma insert_clause_hit ow pre rest :
  match_here DMLTransformer.re_insert_clause pre (clause_head ow ++ rest)
  = Some (length (clause_head ow), []).
Proof.
  unfold match_here, DMLTransformer.re_insert_clause.
  destruct ow; simpl; do 2 f_equal; lia.
Qed.

Lemma re_insert_clause_shape :
  DMLTransformer.re_insert_clause
  = Seq (chars ci "INSERT") (Seq ws1 (Alt (kw "INTO") (kw "OVERWRITE"))).
Proof. reflexivity. Qed.

Lemma foreign_INSERT_I : foreign "INSERT" "I" = true.
Proof. reflexivity. Qed.

Lemma clause_text_head c :
  clause_text c = "I"%char :: tl (clause_head (fst c)) ++ snd c.
Proof. destruct c as [[] b]; reflexivity. Qed.

Lemma split_clauses : forall cl pre cur x,
  (forall c, In c cl -> occurs "INSERT" (snd c) = false) ->
  occurs "INSERT" x = false ->
  split_go DMLTransformer.re_insert_clause pre cur 0
    (x ++ concat (map clause_text cl))
  = (rev cur ++ x) :: map snd cl.
Proof.
  induction cl as [|c cl IH]; intros pre cur x Hb Hx.
  - simpl. rewrite app_nil_r. apply split_go_end.
    rewrite re_insert_clause_shape. apply dead_kw_end. exact Hx.
  - simpl concat. rewrite clause_text_head. simpl app at 2.
    rewrite split_go_dead.
    2:{ rewrite re_insert_clause_shape. apply dead_kw; [exact Hx|reflexivity]. }
    rewrite <- app_assoc.
    rewrite split_go_hit with (c := []).
    2:{ pose proof (insert_clause_hit (fst c) (rev x ++ pre)
                      (snd c ++ concat (map clause_text cl))) as Hh.
        destruct (fst c); simpl in Hh |- *; exact Hh. }
    rewrite rev_app_distr, rev_involutive. f_equal.
    rewrite (IH _ [] (snd c)).
    + reflexivity.
    + intros c' Hc'. apply Hb. right. exact Hc'.
    + apply Hb. left. reflexivity.
Qed.

Lemma no_space_class s : no_space s = true -> forallb (non_space_nor "") s = true.
Proof.
  unfold no_space. intros H. rewrite forallb_forall in *. intros a Ha.
  unfold non_space_nor. rewrite (H a Ha). reflexivity.
Qed.

Lemma rejects_space_group i l r k :
  rejects is_space
    (fun pre s c => m (Seq (Group i (Plus (Chr (non_space_nor l)))) r) pre s c k).
Proof.
  intros pre a t c Ha. rewrite m_seq, m_group. unfold Plus.
  rewrite m_seq, m_chr. unfold non_space_nor. rewrite Ha. reflexivity.
Qed.

Lemma rejects_ink_ws1 l c' r k :
  rejects (non_space_nor l)
    (fun pre s c => m (Seq ws1 r) pre s (c' :: c) k).
Proof.
  intros pre a t c Ha. unfold ws1, Plus. rewrite !m_seq, m_chr.
  unfold non_space_nor in Ha. apply andb_prop in Ha. destruct Ha as [Ha _].
  apply negb_true_iff in Ha. rewrite Ha. reflexivity.
Qed.

Lemma rejects_ink_ws1_end l c' k :
  rejects (non_space_nor l) (fun pre s c => m ws1 pre s (c' :: c) k).
Proof.
  intros pre a t c Ha. unfold ws1, Plus. rewrite !m_seq, m_chr.
  unfold non_space_nor in Ha. apply andb_prop in Ha. destruct Ha as [Ha _].
  apply negb_true_iff in Ha. rewrite Ha. reflexivity.
Qed.

Lemma from_hit src rest :
  src <> [] -> no_space src = true ->
  match_here DMLTransformer.re_from [] ("FROM " ++ src ++ " " ++ "I"%char :: rest)
  = Some (length src + 6, [(1, src)]).
Proof.
  intros Hne Hsp.
  destruct src as [|a0 src']; [congruence|].
  pose proof (no_space_class _ Hsp) as Hcl. simpl in Hcl.
  apply andb_prop in Hcl. destruct Hcl as [Ha0 Hcl].
  assert (Hs0 : is_space a0 = false).
  { unfold non_space_nor in Ha0. apply andb_prop in Ha0. destruct Ha0 as [Ha0 _].
    apply negb_true_iff in Ha0. exact Ha0. }
  unfold match_here, DMLTransformer.re_from. simpl seqs. unfold kw.
  rewrite m_seq, m_chars.
  simpl (prefix_ok _ _ _). cbv iota.
  simpl (length (list_ascii_of_string _)).
  simpl (firstn _ _). simpl (skipn _ _). cbv beta.
  rewrite m_seq. unfold ws1 at 1. rewrite plus_class by apply rejects_space_group.
  change (is_space " ") with true. cbv iota.
  simpl (take_while is_space _). simpl (drop_while is_space _).
  rewrite Hs0. cbv iota.
  rewrite m_seq, group_plus_class by (intros c'; apply rejects_ink_ws1_end).
  rewrite Ha0.
  rewrite take_while_app, drop_while_app by (assumption || reflexivity).
  unfold ws1.
  erewrite plus_class_max; [| reflexivity | simpl; unfold done; reflexivity].
  simpl. rewrite !length_app. simpl. do 2 f_equal. lia.
Qed.

Lemma multi_insert_gate src ow rest :
  src <> [] -> no_space src = true ->
  test HIVE_PATTERNS.MULTI_INSERT ("FROM " ++ src ++ " " ++ clause_head ow ++ rest)
  = true.
Proof.
  intros Hne Hsp.
  destruct src as [|a0 src']; [congruence|].
  pose proof (no_space_class _ Hsp) as Hcl. simpl in Hcl.
  apply andb_prop in Hcl. destruct Hcl as [Ha0 Hcl].
  assert (Hs0 : is_space a0 = false).
  { unfold non_space_nor in Ha0. apply andb_prop in Ha0. destruct Ha0 as [Ha0 _].
    apply negb_true_iff in Ha0. exact Ha0. }
  unfold test, exec.
  assert (E : exists n c,
    match_here HIVE_PATTERNS.MULTI_INSERT []
      ("FROM " ++ (a0 :: src') ++ " " ++ clause_head ow ++ rest) = Some (n, c)).
  { unfold match_here, HIVE_PATTERNS.MULTI_INSERT. simpl seqs. unfold kw.
    rewrite m_seq, m_chars.
    simpl (prefix_ok _ _ _). cbv iota.
    simpl (length (list_ascii_of_string _)).
    simpl (firstn _ _). simpl (skipn _ _). cbv beta.
    rewrite m_seq. unfold ws1 at 1. rewrite plus_class by apply rejects_space_group.
    change (is_space " ") with true. cbv iota.
    simpl (take_while is_space _). simpl (drop_while is_space _).
    rewrite Hs0. cbv iota.
    rewrite m_seq, group_plus_class by (intros c'; apply rejects_ink_ws1).
    rewrite Ha0.
    rewrite take_while_app, drop_while_app by (assumption || reflexivity).
    destruct ow; simpl; eauto. }
  destruct E as [n [c E]]. rewrite (search_hit _ _ _ _ _ E). reflexivity.
Qed.

Lemma occurs_app_false w : forall x b y,
  occurs w x = false -> occurs w (b :: y) = false -> foreign w b = true ->
  occurs w (x ++ b :: y) = false.
Proof.
  induction x as [|a x IH]; intros b y Hx Hy Hf; [exact Hy|].
  apply occurs_false_cons in Hx. destruct Hx as [Hp Hx].
  simpl app. simpl occurs. rewrite (IH b y Hx Hy Hf), orb_false_r.
  destruct (prefix_ok ci w (a :: x ++ b :: y)) eqn:E; [|reflexivity].
  exfalso. change (a :: x ++ b :: y) with ((a :: x) ++ b :: y) in E.
  apply prefix_ok_app in E. destruct E as [E|[L E]]; [congruence|].
  destruct (skipn (length (a :: x)) w) as [|c w'] eqn:Sk.
  - pose proof (length_skipn (length (a :: x)) w) as Q. rewrite Sk in Q.
    simpl in Q. simpl in L. lia.
  - simpl in E. apply andb_prop in E. destruct E as [E _].
    unfold foreign in Hf. rewrite forallb_forall in Hf.
    assert (Hin : In c (tl w)).
    { apply (skipn_tail_in w (length (a :: x)) c w'); [simpl; lia|exact Sk]. }
    apply Hf in Hin. rewrite E in Hin. discriminate.
Qed.

Lemma from_prefix_free src :
  occurs "INSERT" src = false -> occurs "INSERT" ("FROM " ++ src ++ " ") = false.
Proof.
  intros H.
  assert (E : occurs "INSERT" (src ++ " ") = false)
    by (apply occurs_app_false; [exact H|reflexivity|reflexivity]).
  simpl. simpl in E. rewrite E. reflexivity.
Qed.

Lemma search_nil_kw w r pre : w <> [] -> search (Seq (chars ci w) r) pre [] = None.
Proof.
  intros H. simpl. rewrite kw_miss; [reflexivity|]. destruct w; [congruence|reflexivity].
Qed.

Lemma search_free_kw w r x pre :
  w <> [] -> occurs w x = false -> search (Seq (chars ci w) r) pre x = None.
Proof.
  intros Hw H. rewrite <- (app_nil_r x). rewrite search_dead.
  - apply search_nil_kw. exact Hw.
  - apply dead_kw_end. exact H.
Qed.

Lemma insert_overwrite_shape :
  HIVE_PATTERNS.INSERT_OVERWRITE
  = Seq (chars ci "INSERT")
      (Seq ws1 (Seq (kw "OVERWRITE") (Seq ws1 (Seq (Opt (Seq (kw "TABLE") ws1))
         (Group 1 (Plus (Chr (non_space_nor "(")))))))).
Proof. reflexivity. Qed.

Lemma insert_into_head_dead pre s :
  dead HIVE_PATTERNS.INSERT_OVERWRITE pre "INSERT INTO" s.
Proof.
  simpl (list_ascii_of_string _).
  repeat (apply dead_cons; [reflexivity|]). apply dead_nil.
Qed.

Lemma no_overwrite_in_into_clauses : forall cl pre x,
  (forall c, In c cl -> fst c = false /\ occurs "INSERT" (snd c) = false) ->
  occurs "INSERT" x = false ->
  search HIVE_PATTERNS.INSERT_OVERWRITE pre (x ++ concat (map clause_text cl)) = None.
Proof.
  induction cl as [|c cl IH]; intros pre x Hb Hx.
  - simpl. rewrite app_nil_r. rewrite insert_overwrite_shape.
    apply search_free_kw; [discriminate|exact Hx].
  - destruct (Hb c (or_introl eq_refl)) as [Hc Hbc].
    simpl concat. unfold clause_text at 1. rewrite Hc. unfold clause_head.
    rewrite search_dead.
    2:{ rewrite insert_overwrite_shape. apply dead_kw; [exact Hx|reflexivity]. }
    rewrite <- app_assoc. rewrite search_dead by apply insert_into_head_dead.
    apply IH; [|exact Hbc].
    intros c' Hc'. apply Hb. right. exact Hc'.
Qed.

Lemma dynamic_partition_shape :
  HIVE_PATTERNS.DYNAMIC_PARTITION
  = Seq (chars ci "PARTITION")
      (Seq ws0 (Seq (lit "(") (Seq (Group 1 (Plus (Chr (none_of ")")))) (lit ")")))).
Proof. reflexivity. Qed.

(** The source is one bare name, without white space, and the word INSERT
    stands at the clause heads only.  Then the text passes the
    MULTI_INSERT test and [transformMultiInsert], on the text as it is
    written, returns one piece per clause, in the order of the clauses and
    joined by semicolons: what [fanned] makes of the body of the clause,
    which ends in FROM and the source.  When all clauses are INSERT INTO
    clauses and the text has no PARTITION, [transformInsert] returns the
    same. *)
Lemma transformMultiInsert_of_a_bare_source (src : text) (clauses : list (bool * text))
  (Hsrc : src <> []) (Hsp : no_space src = true)
  (Hsi : occurs "INSERT" src = false)
  (Hcl : clauses <> [])
  (Hb : forall c, In c clauses -> occurs "INSERT" (snd c) = false) :
  test HIVE_PATTERNS.MULTI_INSERT (multi_insert src clauses) = true
  /\ DMLTransformer.transformMultiInsert (multi_insert src clauses)
     = join (";" ++ nl ++ nl) (map (fun c => fanned src (snd c)) clauses)
  /\ ((forall c, In c clauses -> fst c = false) ->
      occurs "PARTITION" (multi_insert src clauses) = false ->
      DMLTransformer.transformInsert (multi_insert src clauses)
      = join (";" ++ nl ++ nl) (map (fun c => fanned src (snd c)) clauses)).
Proof.
  assert (A : test HIVE_PATTERNS.MULTI_INSERT (multi_insert src clauses) = true
  /\ DMLTransformer.transformMultiInsert (multi_insert src clauses)
     = join (";" ++ nl ++ nl) (map (fun c => fanned src (snd c)) clauses)).
  2:{ destruct A as [A1 A2]. split; [exact A1|split; [exact A2|]].
      intros Hinto Hpart. unfold DMLTransformer.transformInsert.
      assert (T1 : test HIVE_PATTERNS.INSERT_OVERWRITE (multi_insert src clauses) = false).
      { unfold test, exec, multi_insert.
        replace ("FROM " ++ src ++ " " ++ concat (map clause_text clauses))
          with (("FROM " ++ src ++ " ") ++ concat (map clause_text clauses))
          by (rewrite <- !app_assoc; reflexivity).
        rewrite no_overwrite_in_into_clauses; [reflexivity| |apply from_prefix_free; exact Hsi].
        intros c Hc. split; [apply Hinto|apply Hb]; exact Hc. }
      rewrite T1.
      assert (T2 : test HIVE_PATTERNS.DYNAMIC_PARTITION (multi_insert src clauses) = false).
      { unfold test, exec. rewrite dynamic_partition_shape.
        rewrite search_free_kw; [reflexivity|discriminate|exact Hpart]. }
      rewrite T2, A1. exact A2. }
  destruct clauses as [|c cl]; [congruence|]. clear Hcl. split.
  - unfold multi_insert. simpl concat. unfold clause_text at 1.
    rewrite <- app_assoc. apply multi_insert_gate; assumption.
  - unfold DMLTransformer.transformMultiInsert, exec.
    assert (F : search DMLTransformer.re_from [] (multi_insert src (c :: cl))
                = Some (Found (rev [])
                          (firstn (length src + 6) (multi_insert src (c :: cl)))
                          (skipn (length src + 6) (multi_insert src (c :: cl)))
                          [(1, src)])).
    { apply search_hit. unfold multi_insert. simpl concat.
      rewrite clause_text_head. apply from_hit; assumption. }
    rewrite F. cbv beta iota. simpl f_caps.
    change (grp 1 [(1, src)]) with src.
    unfold split, multi_insert.
    replace ("FROM " ++ src ++ " " ++ concat (map clause_text (c :: cl)))
      with (("FROM " ++ src ++ " ") ++ concat (map clause_text (c :: cl)))
      by (rewrite <- !app_assoc; reflexivity).
    rewrite split_clauses; [|exact Hb|apply from_prefix_free; exact Hsi].
    simpl tl. change (snd c :: map snd cl) with (map snd (c :: cl)).
    rewrite map_map. reflexivity.
Qed.


(** C3 (code defect).  One FROM and three INSERT clauses, the first and
    the last of them INSERT OVERWRITE.  [transformMultiInsert] tests whether
    a clause begins with OVERWRITE after the split has taken that word
    away with the separator, so that every clause comes out as INSERT
    INTO; and [transformInsert], which has rewritten the first head to
    INSERT OVERWRITE INTO before, returns INSERT INTO INTO for the first
    clause, which is no insert statement. *)
Theorem C3_overwrite_clauses_fanned_out_as_insert_into :
  DMLTransformer.transformInsert c3_input
  = "INSERT INTO INTO t1 SELECT a" ++ nl ++ "FROM src;" ++ nl ++ nl
      ++ "INSERT INTO TABLE t2 SELECT b" ++ nl ++ "FROM src;" ++ nl ++ nl
      ++ "INSERT INTO TABLE t3 SELECT c" ++ nl ++ "FROM src"
  /\ DMLTransformer.transformMultiInsert c3_input
     = "INSERT INTO TABLE t1 SELECT a" ++ nl ++ "FROM src;" ++ nl ++ nl
         ++ "INSERT INTO TABLE t2 SELECT b" ++ nl ++ "FROM src;" ++ nl ++ nl
         ++ "INSERT INTO TABLE t3 SELECT c" ++ nl ++ "FROM src"
  /\ tl (split DMLTransformer.re_insert_clause c3_input)
     = [" TABLE t1 SELECT a " : text; " TABLE t2 SELECT b " : text;
        " TABLE t3 SELECT c" : text]
  /\ occurs "OVERWRITE" (DMLTransformer.transformInsert c3_input) = false.
Proof. vm_compute. repeat split; reflexivity. Qed.

(* ---------------------------------------------------------------- *)
(** *** Words that stand nowhere in a text *)
(* ---------------------------------------------------------------- *)




Lemma occurs_skipn w : forall n s, occurs w s = false -> occurs w (skipn n s) = false.
Proof.
  induction n as [|n IH]; intros s H; [exact H|].
  destruct s as [|a t]; [exact H|]. simpl. apply IH.
  apply occurs_false_cons in H. apply H.
Qed.


Lemma occurs_head w s : occurs w s = false -> prefix_ok ci w s = false.
Proof.
  destruct s as [|a t]; simpl; intros H; apply orb_false_elim in H; apply H.
Qed.






Lemma rejects_not_char x c' k :
  rejects (none_of [x]) (fun pre s c => m (chars cs [x]) pre s (c' :: c) k).
Proof.
  intros pre a t c Ha. simpl chars. rewrite m_seq, m_chr.
  unfold none_of in Ha. simpl in Ha. rewrite orb_false_r in Ha.
  apply negb_true_iff in Ha. unfold cs. rewrite Ha. reflexivity.
Qed.

Lemma rejects_not_char0 x k :
  rejects (none_of [x]) (fun pre s c => m (chars cs [x]) pre s c k).
Proof.
  intros pre a t c Ha. simpl chars. rewrite m_seq, m_chr.
  unfold none_of in Ha. simpl in Ha. rewrite orb_false_r in Ha.
  apply negb_true_iff in Ha. unfold cs. rewrite Ha. reflexivity.
Qed.

Lemma skipn_app_length {A} (x y : list A) n :
  n = length x -> skipn n (x ++ y) = y.
Proof.
  intros ->. rewrite skipn_app, Nat.sub_diag, skipn_all. reflexivity.
Qed.

Lemma firstn_app_length {A} (x y : list A) n :
  n = length x -> firstn n (x ++ y) = x.
Proof.
  intros ->. rewrite firstn_app, Nat.sub_diag, firstn_all. simpl. apply app_nil_r.
Qed.




(* ---------------------------------------------------------------- *)
(** *** C5: PARTITIONED BY *)
(* ---------------------------------------------------------------- *)

Ltac guards :=
  repeat match goal with
         | |- context [?a <? ?b] =>
             replace (a <? b) with true
               by (symmetry; apply Nat.ltb_lt; simpl; rewrite ?length_app; simpl; lia)
         end.

Lemma mem_app a x y : mem a (x ++ y) = mem a x || mem a y.
Proof.
  induction x as [|b x IH]; simpl; [reflexivity|]. rewrite IH. apply orb_assoc.
Qed.

Lemma expand_plain n x : forall t, mem "$" t = false -> expand n t x = t.
Proof.
  induction t as [|a t IH]; intros H; [reflexivity|].
  simpl in H. apply orb_false_elim in H. destruct H as [Ha Ht].
  simpl. rewrite Ha. rewrite IH by exact Ht. reflexivity.
Qed.

Lemma create_table_steps sql :
  Index.convertCreateTable sql
  = after_partitioning (partitioned_to_cluster (create_header sql)).
Proof. reflexivity. Qed.

Lemma partitioned_hit pre cols post :
  cols <> [] -> forallb (none_of ")") cols = true ->
  match_here Index.re_partitioned_by pre ("PARTITIONED BY (" ++ cols ++ ")" ++ post)
  = Some (length ("PARTITIONED BY (" ++ cols ++ ")"), [(1, cols)]).
Proof.
  intros Hne Hp. destruct cols as [|b0 p']; [congruence|].
  simpl in Hp. apply andb_prop in Hp. destruct Hp as [Hb0 Hp].
  unfold match_here.
  match goal with
  | |- context [m Index.re_partitioned_by ?p ?s ?c ?k] =>
      change (m Index.re_partitioned_by p s c k)
        with (m (Seq (seqs [kw "PARTITIONED"; ws1; kw "BY"; ws0; lit "("])
                     (Seq (Group 1 (Plus (Chr (none_of ")")))) (lit ")"))) p s c k)
  end.
  rewrite m_seq.
  remember (fun pre' s' c' =>
              m (Seq (Group 1 (Plus (Chr (none_of ")")))) (lit ")")) pre' s' c' done)
    as K.
  simpl. subst K.
  rewrite m_seq, group_plus_class by (intros c'; apply (rejects_not_char ")"%char)).
  change (list_ascii_of_string ")") with [")"%char].
  rewrite Hb0.
  rewrite take_while_app, drop_while_app by (assumption || reflexivity).
  simpl. guards. simpl. rewrite !length_app. simpl. do 2 f_equal. lia.
Qed.

Lemma partitioned_hit' pre cols post :
  cols <> [] -> forallb (none_of ")") cols = true ->
  match_here Index.re_partitioned_by' pre ("PARTITIONED BY (" ++ cols ++ ")" ++ post)
  = Some (length ("PARTITIONED BY (" ++ cols ++ ")"), []).
Proof.
  intros Hne Hp. destruct cols as [|b0 p']; [congruence|].
  simpl in Hp. apply andb_prop in Hp. destruct Hp as [Hb0 Hp].
  unfold match_here.
  match goal with
  | |- context [m Index.re_partitioned_by' ?p ?s ?c ?k] =>
      change (m Index.re_partitioned_by' p s c k)
        with (m (Seq (seqs [kw "PARTITIONED"; ws1; kw "BY"; ws0; lit "("])
                     (Seq (Plus (Chr (none_of ")"))) (lit ")"))) p s c k)
  end.
  rewrite m_seq.
  remember (fun pre' s' c' =>
              m (Seq (Plus (Chr (none_of ")"))) (lit ")")) pre' s' c' done)
    as K.
  simpl. subst K.
  rewrite m_seq, plus_class by apply (rejects_not_char0 ")"%char).
  change (list_ascii_of_string ")") with [")"%char].
  rewrite Hb0.
  rewrite take_while_app, drop_while_app by (assumption || reflexivity).
  simpl. guards. simpl. rewrite !length_app. simpl. do 2 f_equal. lia.
Qed.

Lemma partitioned_shape :
  Index.re_partitioned_by
  = Seq (chars ci "PARTITIONED")
      (Seq ws1 (Seq (kw "BY") (Seq ws0 (Seq (lit "(")
         (Seq (Group 1 (Plus (Chr (none_of ")")))) (lit ")")))))).
Proof. reflexivity. Qed.

Lemma partitioned_shape' :
  Index.re_partitioned_by'
  = Seq (chars ci "PARTITIONED")
      (Seq ws1 (Seq (kw "BY") (Seq ws0 (Seq (lit "(")
         (Seq (Plus (Chr (none_of ")"))) (lit ")")))))).
Proof. reflexivity. Qed.

(** In a text whose first PARTITIONED BY clause has a column list without
    closing parenthesis, and column names without dollar sign, the step of
    [convertCreateTable] under "Convert PARTITIONED BY to CLUSTER BY"
    replaces the clause by CLUSTER BY and the names of the columns. *)
Lemma partitioned_to_cluster_first_clause (pre cols post : text)
  (Hpre : occurs "PARTITIONED" pre = false)
  (Hne : cols <> [])
  (Hcols : forallb (none_of ")") cols = true)
  (Hnames : mem "$" (join ", " (partition_columns cols)) = false) :
  partitioned_to_cluster (pre ++ "PARTITIONED BY (" ++ cols ++ ")" ++ post)
  = pre ++ "CLUSTER BY (" ++ join ", " (partition_columns cols) ++ ")" ++ post.
Proof.
  set (sql := pre ++ "PARTITIONED BY (" ++ cols ++ ")" ++ post).
  assert (E1 : exec Index.re_partitioned_by sql
               = Some (Found pre ("PARTITIONED BY (" ++ cols ++ ")") post [(1, cols)])).
  { unfold exec, sql. rewrite search_dead.
    2:{ rewrite partitioned_shape. apply dead_kw; [exact Hpre|reflexivity]. }
    rewrite (search_hit _ _ _ _ _ (partitioned_hit _ cols post Hne Hcols)).
    rewrite app_nil_r, rev_involutive.
    replace ("PARTITIONED BY (" ++ cols ++ ")" ++ post)
      with (("PARTITIONED BY (" ++ cols ++ ")") ++ post)
      by (rewrite <- !app_assoc; reflexivity).
    rewrite firstn_app_length, skipn_app_length by reflexivity. reflexivity. }
  assert (E2 : exec Index.re_partitioned_by' sql
               = Some (Found pre ("PARTITIONED BY (" ++ cols ++ ")") post [])).
  { unfold exec, sql. rewrite search_dead.
    2:{ rewrite partitioned_shape'. apply dead_kw; [exact Hpre|reflexivity]. }
    rewrite (search_hit _ _ _ _ _ (partitioned_hit' _ cols post Hne Hcols)).
    rewrite app_nil_r, rev_involutive.
    replace ("PARTITIONED BY (" ++ cols ++ ")" ++ post)
      with (("PARTITIONED BY (" ++ cols ++ ")") ++ post)
      by (rewrite <- !app_assoc; reflexivity).
    rewrite firstn_app_length, skipn_app_length by reflexivity. reflexivity. }
  unfold partitioned_to_cluster. rewrite E1.
  unfold replace_tpl, replace. rewrite E2.
  simpl f_caps. change (grp 1 [(1, cols)]) with cols.
  simpl f_before. simpl f_after.
  rewrite expand_plain.
  - rewrite <- !app_assoc. reflexivity.
  - rewrite !mem_app, Hnames. reflexivity.
Qed.


(** C5 (code defect).  On the example of the specification
    [convertCreateTable] of [converter/index.ts] types the columns and
    clusters by [d], but it deletes STORED AS ORC without a target format,
    and no request of that converter has a warning; [convertCreateTable]
    of [lib/converter.ts] deletes the PARTITIONED BY clause as well, and
    warns of nothing.  [convertFileFormats] of the class [SQLConverter]
    writes FILE_FORMAT = PARQUET for the same clause and warns of it.  And
    the names of partition columns that hold the letters of a type come
    out changed in the CLUSTER BY clause. *)
Theorem C5_storage_clause_deleted_without_warning :
  Index.convertStatement c5_input
    = "CREATE OR REPLACE TABLE t (a NUMBER(38,0), b VARCHAR) CLUSTER BY (d) "
  /\ occurs "PARQUET" (Index.convertStatement c5_input) = false
  /\ (forall format input, warnings (Index.convert format input) = Some [])
  /\ Lib.convertCreateTable c5_input []
     = ("CREATE OR REPLACE TABLE t (a INT, b STRING)  " : text, [])
  /\ SQLConverter.convertFileFormats c5_input []
     = ("CREATE TABLE t (a INT, b STRING) PARTITIONED BY (d STRING) FILE_FORMAT = PARQUET"
          : text,
        ["Converting ORC to PARQUET format" : text])
  /\ Index.convertStatement c5_names
     = "CREATE OR REPLACE TABLE t (a NUMBER(38,0), b VARCHAR) CLUSTER BY (poNUMBER(38,0)_id, prNUMBER(38,0)_dt) ".
Proof.
  split; [vm_compute; reflexivity|].
  split; [vm_compute; reflexivity|].
  split.
  - intros format input. unfold Index.convert.
    destruct (Index.formatSQL format _); reflexivity.
  - vm_compute. repeat split; reflexivity.
Qed.

End Rewrites.

(* ---------------------------------------------------------------- *)
(** *** C6: UPDATE ... JOIN with a parenthesised WHERE *)
(* ---------------------------------------------------------------- *)

(** C6 (code defect).  The set-list of the input is one parenthesised
    subquery.  The pattern cuts it at the WHERE inside the parentheses:
    the matched-branch condition of the merge gets the closing parenthesis
    and the update action keeps the opening one, so neither is paired. *)
Theorem C6_where_inside_parentheses :
  let cond : text := "u.id = a.id)" in
  let sets : text := "a.x = (SELECT max(v) FROM u" in
  DMLTransformer.transformUpdate c6_input
  = "MERGE INTO t a" ++ nl ++ "USING s b" ++ nl ++ "ON a.id = b.id" ++ nl
      ++ "WHEN MATCHED AND " ++ cond ++ " THEN UPDATE SET " ++ sets
  /\ balanced "a.x = (SELECT max(v) FROM u WHERE u.id = a.id)" = true
  /\ balanced cond = false
  /\ balanced sets = false.
Proof. vm_compute. repeat split; reflexivity. Qed.

(* ---------------------------------------------------------------- *)
(** *** C7: window frames *)
(* ---------------------------------------------------------------- *)

(** C7 (code defect).  The converter of [converter/index.ts] rewrites the
    value-range frame to a row-count frame and reports no warning: its
    result has no warning for any input and any formatter.  The converter
    of [lib/converter.ts] makes the same rewrite and pushes a warning. *)
Theorem C7_range_frame_rewritten_silently :
  Index.convertStatement c7_input = c7_output
  /\ (forall format sql, warnings (Index.convert format sql) = Some [])
  /\ Lib.convertWindowFunctions c7_input [] = (c7_output, [warn_range_between]).
Proof.
  split; [vm_compute; reflexivity | split].
  - intros format sql. unfold Index.convert.
    destruct (Index.formatSQL format _); reflexivity.
  - vm_compute. reflexivity.
Qed.

(* ---------------------------------------------------------------- *)
(** *** C8: type keywords inside identifiers *)
(* ---------------------------------------------------------------- *)

(** C8 (code defect).  [convertDataTypes] of [converter/index.ts] replaces
    the letters INT wherever they stand: inside the table name, inside a
    column name and inside the word INTO.  The output holds identifiers that
    the input does not have.  [lib/converter.ts] replaces whole words only. *)
Theorem C8_type_keyword_inside_identifier :
  Index.convertStatement c8_input
  = "CREATE OR REPLACE TABLE poNUMBER(38,0)s (NUMBER(38,0)erval_id NUMBER(38,0), note VARCHAR COMMENT 'loaded NUMBER(38,0)O poNUMBER(38,0)s')"
  /\ fst (Lib.convertDataTypes c8_input [])
     = "CREATE TABLE points (interval_id NUMBER(38,0), note VARCHAR COMMENT 'loaded INTO points')".
Proof. vm_compute. split; reflexivity. Qed.

(* ---------------------------------------------------------------- *)
(** *** C9: two requests on one converter *)
(* ---------------------------------------------------------------- *)

Lemma appends_ret {A} (a : A) : appends (Lib.ret a).
Proof. intros w. unfold Lib.ret. simpl. rewrite app_nil_r. reflexivity. Qed.

Lemma appends_push msg : appends (Lib.push msg).
Proof. intros w. reflexivity. Qed.

Lemma appends_bind {A B} (x : Lib.M A) (k : A -> Lib.M B) :
  appends x -> (forall a, appends (k a)) -> appends (Lib.bind x k).
Proof.
  intros Hx Hk w. unfold Lib.bind.
  rewrite (Hx w). destruct (x []) as [a w1]. simpl.
  rewrite (Hk a (w ++ w1)), (Hk a w1). simpl. rewrite app_assoc. reflexivity.
Qed.

Lemma appends_if {A} (b : bool) (x y : Lib.M A) :
  appends x -> appends y -> appends (if b then x else y).
Proof. destruct b; auto. Qed.

Ltac appends_tac :=
  repeat first
    [ apply appends_ret | apply appends_push
    | apply appends_if
    | apply appends_bind; [|intros ?] ].

Lemma adds_bind {A B} (x : Lib.M A) (k : A -> Lib.M B) :
  appends x -> (forall a, adds (k a)) -> adds (Lib.bind x k).
Proof.
  intros Hx Hk w. unfold Lib.bind.
  rewrite (Hx w). destruct (x []) as [a w1]. simpl.
  rewrite (Hk a (w ++ w1)), (Hk a w1). rewrite app_assoc. reflexivity.
Qed.

Lemma adds_convert rm input : adds (Lib.convert rm input).
Proof.
  unfold Lib.convert.
  apply adds_bind; [unfold Lib.convertCreateTable; appends_tac|intros sql1].
  apply adds_bind; [unfold Lib.convertInsertStatements; appends_tac|intros sql2].
  apply adds_bind; [unfold Lib.convertFunctions; appends_tac|intros sql3].
  apply adds_bind; [unfold Lib.convertLateralView; appends_tac|intros sql4].
  apply adds_bind; [unfold Lib.convertWindowFunctions; appends_tac|intros sql5].
  apply adds_bind; [unfold Lib.convertOrderBy; appends_tac|intros sql6].
  apply adds_bind; [unfold Lib.convertDataTypes; appends_tac|intros sql7].
  intros w. destruct (Lib.formatSQL rm sql7); simpl; rewrite app_nil_r; reflexivity.
Qed.

Lemma convert_warnings rm input w :
  warnings (fst (Lib.convert rm input w)) = Some (snd (Lib.convert rm input w)).
Proof.
  unfold Lib.convert, Lib.bind.
  repeat match goal with
         | |- context [let '(_, _) := ?x in _] => destruct x
         end.
  destruct (Lib.formatSQL rm _); reflexivity.
Qed.

(** C9 (code defect).  [convert] of [lib/converter.ts] never empties
    [this.warnings]: on one converter, the result of a second request
    carries all the warnings of the first, followed by its own.  After a
    request with INSERT OVERWRITE, the result of a request for [SELECT 1]
    has the warning of the first, although [SELECT 1] alone gives none. *)
Theorem C9_warnings_carried_to_next_request :
  forall repeatMessage,
    (forall first second,
        warnings (second_result repeatMessage first second)
        = Some (snd (Lib.convert repeatMessage first Lib.fresh)
                  ++ snd (Lib.convert repeatMessage second Lib.fresh)))
    /\ warnings (second_result repeatMessage
                   "INSERT OVERWRITE TABLE t SELECT 1" "SELECT 1")
       = Some [warn_insert_overwrite]
    /\ warnings (fst (Lib.convert repeatMessage "SELECT 1" Lib.fresh)) = Some [].
Proof.
  intros rm. split; [|vm_compute; split; reflexivity].
  intros first second. unfold second_result.
  destruct (Lib.convert rm first Lib.fresh) as [r1 w1] eqn:E1.
  rewrite convert_warnings. rewrite (adds_convert rm second w1). reflexivity.
Qed.

(* ---------------------------------------------------------------- *)
(** *** C10: several ORDER BY *)
(* ---------------------------------------------------------------- *)

Lemma order_by_match pre s :
  match_here Lib.re_order_by pre s
  = option_map (fun n => (n, [])) (order_by_here s).
Proof.
  unfold match_here, Lib.re_order_by, order_by_here. simpl seqs.
  unfold ws1, Plus, kw.
  rewrite m_seq, m_chars.
  destruct (prefix_ok ci "ORDER" s) eqn:E1; [|reflexivity].
  change (length (list_ascii_of_string "ORDER")) with 5.
  pose proof (prefix_ok_length _ _ _ E1) as L1.
  change (length (list_ascii_of_string "ORDER")) with 5 in L1.
  assert (L5 : length (skipn 5 s) = length s - 5) by apply length_skipn.
  rewrite !m_seq, m_chr.
  destruct (skipn 5 s) as [|a t] eqn:E5; [reflexivity|].
  destruct (is_space a) eqn:Ea; [|reflexivity].
  rewrite m_star_greedy, greedy_class_whole.
  2:{ intros p b u c Hb. rewrite m_chars. simpl prefix_ok.
      rewrite (space_not_B b Hb). reflexivity. }
  rewrite m_chars.
  destruct (prefix_ok ci "BY" (drop_while is_space t)) eqn:E2; [|reflexivity].
  unfold done. simpl option_map. f_equal. f_equal.
  pose proof (prefix_ok_length _ _ _ E2) as L2.
  change (length (list_ascii_of_string "BY")) with 2 in *.
  rewrite length_skipn.
  pose proof (drop_while_length is_space t). simpl in L5. lia.
Qed.

Lemma match_here_le r pre s n c : match_here r pre s = Some (n, c) -> n <= length s.
Proof.
  unfold match_here. destruct (m r pre s [] done) as [[s' c']|]; [|discriminate].
  intros H. inversion H. lia.
Qed.

Lemma spans_ge here : forall s pos skip st len,
  In (st, len) (spans here pos skip s) -> pos + skip <= st.
Proof.
  induction s as [|a t IH]; intros pos skip st len H; simpl in H; [contradiction|].
  destruct skip as [|k].
  - destruct (here (a :: t)) as [[|j]|].
    + apply IH in H. lia.
    + destruct H as [H|H]; [inversion H; lia|]. apply IH in H. lia.
    + apply IH in H. lia.
  - apply IH in H. lia.
Qed.

Lemma last_in {A} (l : list A) d : l <> [] -> In (last l d) l.
Proof.
  induction l as [|x l IH]; [congruence|]. intros _.
  destruct l as [|y l]; [left; reflexivity|].
  right. apply IH. discriminate.
Qed.

Section Scan.

Variable r : regex.
Variable here : text -> option nat.
Hypothesis here_ok : forall pre s, option_map fst (match_here r pre s) = here s.
Hypothesis here_pos : forall s, here s <> Some 0.

Lemma match_here_cases pre s :
  (match_here r pre s = None /\ here s = None)
  \/ (exists k c, match_here r pre s = Some (S k, c) /\ here s = Some (S k)).
Proof.
  pose proof (here_ok pre s) as H. pose proof (here_pos s) as P.
  destruct (match_here r pre s) as [[n c]|]; simpl in H.
  - right. destruct n as [|k]; [congruence|]. exists k, c. auto.
  - left. auto.
Qed.

Lemma match_go_spans : forall s pre skip pos,
  length (match_go r pre skip s) = length (spans here pos skip s).
Proof.
  induction s as [|a t IH]; intros pre skip pos; simpl.
  - destruct skip; [|reflexivity].
    destruct (match_here_cases pre []) as [[E _]|[k [c [E _]]]]; rewrite E.
    + reflexivity.
    + apply match_here_le in E. simpl in E. lia.
  - destruct skip as [|j]; [|apply IH].
    destruct (match_here_cases pre (a :: t)) as [[E F]|[k [c [E F]]]];
      rewrite E, F; simpl; [|f_equal]; apply IH.
Qed.

Lemma split_go_nonempty : forall s pre cur skip, split_go r pre cur skip s <> [].
Proof.
  induction s as [|a t IH]; intros pre cur skip; simpl; [discriminate|].
  destruct skip; [|apply IH].
  destruct (match_here r pre (a :: t)) as [[[|k] c]|]; try discriminate;
    try apply IH.
  destruct cur; [apply IH|discriminate].
Qed.

Lemma split_go_first : forall s pre cur pos,
  first_of (split_go r pre cur 0 s)
  = rev cur ++ match spans here pos 0 s with
               | [] => s
               | (st, _) :: _ => firstn (st - pos) s
               end.
Proof.
  induction s as [|a t IH]; intros pre cur pos; simpl;
    [rewrite app_nil_r; reflexivity|].
  destruct (match_here_cases pre (a :: t)) as [[E F]|[k [c [E F]]]];
    rewrite E, F.
  - rewrite (IH _ _ (S pos)). simpl. rewrite <- app_assoc. simpl.
    destruct (spans here (S pos) 0 t) as [|[st len] l] eqn:Sp; [reflexivity|].
    assert (S pos + 0 <= st) by (apply (spans_ge here t _ _ st len); rewrite Sp; left; reflexivity).
    replace (st - pos) with (S (st - S pos)) by lia. reflexivity.
  - simpl. rewrite Nat.sub_diag. simpl. rewrite app_nil_r. reflexivity.
Qed.

Lemma last_of_cons x l : l <> [] -> last_of (x :: l) = last_of l.
Proof. unfold last_of. destruct l; [congruence|reflexivity]. Qed.

Lemma split_go_last : forall s pre cur skip pos,
  last_of (split_go r pre cur skip s)
  = match spans here pos skip s with
    | [] => rev cur ++ skipn skip s
    | sp => let '(st, len) := last sp (0, 0) in skipn (st + len - pos) s
    end.
Proof.
  induction s as [|a t IH]; intros pre cur skip pos.
  - simpl. destruct skip; simpl; rewrite app_nil_r; reflexivity.
  - assert (Hshift : forall sk,
      match spans here (S pos) sk t with
      | [] => [] | sp => let '(st, len) := last sp (0, 0) in skipn (st + len - S pos) t
      end
      = match spans here (S pos) sk t with
      | [] => [] | sp => let '(st, len) := last sp (0, 0) in skipn (st + len - pos) (a :: t)
      end).
    { intros sk. destruct (spans here (S pos) sk t) as [|p l] eqn:Sp; [reflexivity|].
      pose proof (last_in (p :: l) (0, 0)) as Hin.
      destruct (last (p :: l) (0, 0)) as [st len].
      assert (S pos + sk <= st).
      { apply (spans_ge here t _ _ st len). rewrite Sp. apply Hin. discriminate. }
      replace (st + len - pos) with (S (st + len - S pos)) by lia. reflexivity. }
    simpl split_go. simpl spans. destruct skip as [|j].
    + destruct (match_here_cases pre (a :: t)) as [[E F]|[k [c [E F]]]];
        rewrite E, F.
      * rewrite (IH _ _ _ (S pos)). specialize (Hshift 0).
        destruct (spans here (S pos) 0 t) as [|p l].
        -- simpl. rewrite <- app_assoc. reflexivity.
        -- exact Hshift.
      * rewrite last_of_cons by apply split_go_nonempty.
        rewrite (IH _ _ _ (S pos)). specialize (Hshift k).
        destruct (spans here (S pos) k t) as [|p l].
        -- simpl. replace (pos + S k - pos) with (S k) by lia. reflexivity.
        -- exact Hshift.
    + rewrite (IH _ _ _ (S pos)). specialize (Hshift j).
      destruct (spans here (S pos) j t) as [|p l]; [reflexivity|exact Hshift].
Qed.

End Scan.

Lemma order_by_here_pos s : order_by_here s <> Some 0.
Proof.
  unfold order_by_here. destruct (prefix_ok ci "ORDER" s); [|discriminate].
  destruct (skipn 5 s) as [|a t]; [discriminate|].
  destruct (is_space a); [|discriminate].
  destruct (prefix_ok ci "BY" _); [|discriminate].
  intros H. inversion H. lia.
Qed.

Lemma order_by_here_ok pre s :
  option_map fst (match_here Lib.re_order_by pre s) = order_by_here s.
Proof. rewrite order_by_match. destruct (order_by_here s); reflexivity. Qed.

Lemma prefix_ok_firstn cmp w : forall s,
  prefix_ok cmp w s = true -> prefix_ok cmp w (firstn (length w) s) = true.
Proof.
  induction w as [|c w IH]; intros s H; [reflexivity|].
  destruct s as [|a t]; [discriminate|].
  simpl in *. apply andb_prop in H. destruct H as [H1 H2].
  rewrite H1, (IH _ H2). reflexivity.
Qed.

Lemma prefix_ok_app_l cmp w : forall x y,
  prefix_ok cmp w x = true -> prefix_ok cmp w (x ++ y) = true.
Proof.
  induction w as [|c w IH]; intros x y H; [reflexivity|].
  destruct x as [|a t]; [discriminate|].
  simpl in *. apply andb_prop in H. destruct H as [H1 H2].
  rewrite H1, (IH _ _ H2). reflexivity.
Qed.

Lemma take_while_forallb f s : forallb f (take_while f s) = true.
Proof.
  induction s as [|a t IH]; simpl; [reflexivity|].
  destruct (f a) eqn:E; simpl; [rewrite E, IH|]; reflexivity.
Qed.

(** What an occurrence of ORDER BY is: the word ORDER, some white space
    and the word BY, letter case apart, at the head of the text. *)
Lemma order_by_here_iff s n :
  order_by_here s = Some n <->
  exists o ws b rest,
    s = o ++ ws ++ b ++ rest
    /\ same_word "ORDER" o
    /\ ws <> [] /\ forallb is_space ws = true
    /\ same_word "BY" b
    /\ n = length (o ++ ws ++ b).
Proof.
  unfold order_by_here, same_word. split.
  - destruct (prefix_ok ci "ORDER" s) eqn:E1; [|discriminate].
    pose proof (prefix_ok_length _ _ _ E1) as L1.
    pose proof (firstn_skipn 5 s) as FS.
    destruct (skipn 5 s) as [|a t] eqn:E5; [discriminate|].
    destruct (is_space a) eqn:Ea; [|discriminate].
    destruct (prefix_ok ci "BY" (drop_while is_space t)) eqn:E2; [|discriminate].
    pose proof (prefix_ok_length _ _ _ E2) as L2.
    intros H. inversion H. clear H.
    exists (firstn 5 s), (a :: take_while is_space t),
      (firstn 2 (drop_while is_space t)), (skipn 2 (drop_while is_space t)).
    simpl in L1, L2.
    repeat split.
    + rewrite firstn_skipn. simpl. rewrite take_drop_while. symmetry. exact FS.
    + apply firstn_length_le. exact L1.
    + apply (prefix_ok_firstn ci "ORDER"). exact E1.
    + discriminate.
    + simpl. rewrite Ea. apply take_while_forallb.
    + apply firstn_length_le. exact L2.
    + apply (prefix_ok_firstn ci "BY"). exact E2.
    + rewrite <- FS at 1. rewrite <- (take_drop_while is_space t) at 1.
      rewrite !length_app. cbn [length app]. rewrite !length_app.
      rewrite !firstn_length_le by assumption. lia.
  - intros [o [ws [b [rest [Hs [[Lo Po] [Hws [Fws [[Lb Pb] Hn]]]]]]]]]. subst s n.
    rewrite (prefix_ok_app_l _ _ _ _ Po).
    rewrite skipn_app_length by (symmetry; exact Lo).
    destruct ws as [|a ws']; [congruence|].
    simpl in Fws. apply andb_prop in Fws. destruct Fws as [Ha Fws].
    cbn [app]. cbv beta iota. rewrite Ha.
    destruct b as [|b0 b']; [discriminate|].
    assert (Hb0 : is_space b0 = false).
    { destruct (is_space b0) eqn:E; [|reflexivity].
      simpl in Pb. rewrite (space_ci "B" b0 E eq_refl) in Pb. discriminate. }
    cbn [app]. rewrite drop_while_app by assumption.
    change (b0 :: b' ++ rest) with ((b0 :: b') ++ rest).
    rewrite (prefix_ok_app_l _ _ _ _ Pb).
    f_equal. rewrite !length_app. cbn [length]. rewrite !length_app. cbn [length].
    change (length (list_ascii_of_string "BY")) with 2 in Lb.
    cbn [length] in Lb. lia.
Qed.

Example order_by_spans_example :
  order_by_spans "select a from t order by a; select b from u ORDER  BY b desc"
  = [(16, 8); (44, 9)].
Proof. vm_compute. reflexivity. Qed.

Example convertOrderBy_example :
  Lib.convertOrderBy "select a from t order by a; select b from u ORDER  BY b desc" []
  = ("select a from t ORDER BY b desc" : text, [warn_order_by]).
Proof. vm_compute. reflexivity. Qed.

(** C10.  [convertOrderBy] counts the occurrences of ORDER BY found from
    left to right.  With two or more it returns the text before the first
    one, the words ORDER BY, and the text after the last one, so that all
    that stood between the first and the last occurrence is gone, and it
    pushes the warning; with none or one, text and warnings stay as they
    are. *)
Theorem C10_only_the_last_order_by_is_kept (sql : text) (w : list text) :
  Lib.convertOrderBy sql w =
  match order_by_spans sql with
  | ((first, _) :: _ :: _) as occ =>
      let '(lst, len) := last occ (0, 0) in
      (firstn first sql ++ "ORDER BY" ++ skipn (lst + len) sql,
       w ++ [warn_order_by])
  | _ => (sql, w)
  end.
Proof.
  unfold Lib.convertOrderBy, match_all, split, order_by_spans.
  rewrite (match_go_spans _ _ order_by_here_ok order_by_here_pos sql [] 0 0).
  pose proof (split_go_first _ _ order_by_here_ok order_by_here_pos sql [] [] 0) as F.
  pose proof (split_go_last _ _ order_by_here_ok order_by_here_pos sql [] [] 0 0) as L.
  destruct (spans order_by_here 0 0 sql) as [|[st1 l1] [|p2 rest]];
    try reflexivity.
  change (1 <? length ((st1, l1) :: p2 :: rest)) with true.
  assert (L' : last_of (split_go Lib.re_order_by [] [] 0 sql)
               = let '(st, len) := last ((st1, l1) :: p2 :: rest) (0, 0) in
                 skipn (st + len - 0) sql) by exact L.
  clear L.
  change (Lib.bind (Lib.push warn_order_by)
            (fun _ => Lib.ret (first_of (split_go Lib.re_order_by [] [] 0 sql)
                                 ++ "ORDER BY"
                                 ++ last_of (split_go Lib.re_order_by [] [] 0 sql))) w
          = let '(lst, len) := last ((st1, l1) :: p2 :: rest) (0, 0) in
            (firstn st1 sql ++ "ORDER BY" ++ skipn (lst + len) sql,
             w ++ [warn_order_by])).
  rewrite F, L'.
  destruct (last ((st1, l1) :: p2 :: rest) (0, 0)) as [lst len].
  rewrite !Nat.sub_0_r. reflexivity.
Qed.

(* ================================================================ *)
(** ** Further properties of the code                                 *)
(* ================================================================ *)

Lemma scan_char_shape st a nx :
  (Index.statements (fst (Index.scan_char st a nx)) = Index.statements st
   /\ (Index.currentStatement (fst (Index.scan_char st a nx))
         = Index.currentStatement st ++ [a]
       \/ Index.currentStatement (fst (Index.scan_char st a nx))
         = Index.currentStatement st))
  \/ (a = ";"%char
      /\ Index.statements (fst (Index.scan_char st a nx)) = pushed st
      /\ Index.currentStatement (fst (Index.scan_char st a nx)) = []).
Proof.
  destruct st as [stmts cur inStr strCh inCom inMulti dep].
  unfold Index.scan_char, pushed.
  cbn [Index.statements Index.currentStatement].
  destruct (Ascii.eqb_spec a ";") as [->|Hn].
  - repeat match goal with
           | |- context [if ?b then _ else _] => destruct b
           | |- context [let '(_, _) := ?p in _] => destruct p
           end; cbn; auto.
  - cbn [andb].
    repeat match goal with
           | |- context [if ?b then _ else _] => destruct b
           end; cbn; auto.
Qed.

(** *** White space at the ends *)

Lemma trim_start_fixed a t : is_space a = false -> trim_start (a :: t) = a :: t.
Proof. intros H. simpl. rewrite H. reflexivity. Qed.

Lemma trim_start_head s :
  match trim_start s with a :: _ => is_space a = false | [] => True end.
Proof.
  induction s as [|a t IH]; simpl; [exact I|].
  destruct (is_space a) eqn:E; [exact IH|exact E].
Qed.

Lemma trim_start_idem s : trim_start (trim_start s) = trim_start s.
Proof.
  pose proof (trim_start_head s) as H.
  destruct (trim_start s) as [|a t]; [reflexivity|].
  apply trim_start_fixed. exact H.
Qed.

Lemma trim_start_suffix s : exists x, s = x ++ trim_start s.
Proof.
  induction s as [|a t [x IH]]; [exists []; reflexivity|].
  simpl. destruct (is_space a).
  - exists (a :: x). simpl. f_equal. exact IH.
  - exists []. reflexivity.
Qed.

Lemma trim_start_last s a t :
  trim_start s <> [] -> rev s = a :: t -> exists t', rev (trim_start s) = a :: t'.
Proof.
  intros Hne Hr. destruct (trim_start_suffix s) as [x Hx].
  rewrite Hx, rev_app_distr in Hr.
  destruct (rev (trim_start s)) as [|b u] eqn:E.
  - apply (f_equal (@rev ascii)) in E. rewrite rev_involutive in E.
    simpl in E. congruence.
  - simpl in Hr. inversion Hr. subst. exists u. reflexivity.
Qed.

Lemma trim_idem s : trim (trim s) = trim s.
Proof.
  unfold trim.
  set (u := trim_start s). set (v := trim_start (rev u)).
  assert (Hv : trim_start (rev v) = rev v).
  { destruct (rev v) as [|a t] eqn:E; [reflexivity|].
    apply trim_start_fixed.
    destruct v as [|b v'] eqn:Ev; [discriminate|].
    assert (Hne : trim_start (rev u) <> []) by (fold v; rewrite Ev; discriminate).
    (* the last character of [v] is the first of [u] *)
    pose proof (trim_start_head s) as Hu. fold u in Hu.
    destruct u as [|c u'] eqn:Eu; [simpl in Hne; congruence|].
    destruct (trim_start_last (rev (c :: u')) c (rev (rev u'))) as [t' Ht'].
    - exact Hne.
    - rewrite rev_involutive. simpl. rewrite rev_involutive. reflexivity.
    - fold v in Ht'. rewrite Ev in Ht'. rewrite Ht' in E. inversion E. subst.
      exact Hu. }
  rewrite Hv, rev_involutive. unfold v. rewrite trim_start_idem. reflexivity.
Qed.

Lemma trimmed_trim cur : nonempty (trim cur) = true -> trimmed (trim cur).
Proof. intros H. split; [exact H|apply trim_idem]. Qed.

(** *** What the loop keeps *)

Lemma pushed_trimmed st :
  Forall trimmed (Index.statements st) -> Forall trimmed (pushed st).
Proof.
  intros H. unfold pushed.
  destruct (nonempty (trim (Index.currentStatement st))) eqn:E; [|exact H].
  apply Forall_app. split; [exact H|].
  constructor; [apply trimmed_trim; exact E|constructor].
Qed.

Lemma scan_from_trimmed n : forall s st,
  length s <= n ->
  Forall trimmed (Index.statements st) ->
  Forall trimmed (pushed (Index.scan_from st s)).
Proof.
  induction n as [|n IH]; intros s st Hn Hst;
    (destruct s as [|a t]; [apply pushed_trimmed; exact Hst|]);
    [simpl in Hn; lia|].
  rewrite scan_from_step.
  assert (Hr : length (if snd (Index.scan_char st a (hd_error t)) then tl t else t) <= n).
  { destruct (snd _); [destruct t|]; simpl in *; lia. }
  apply IH; [exact Hr|].
  destruct (scan_char_shape st a (hd_error t)) as [[E _]|(_ & E & _)]; rewrite E.
  - exact Hst.
  - apply pushed_trimmed. exact Hst.
Qed.

(** Every statement that [splitStatements] returns is not empty and has
    no white space at its ends. *)
Theorem splitStatements_trimmed sql stmt :
  In stmt (Index.splitStatements sql) -> nonempty stmt = true /\ trim stmt = stmt.
Proof.
  rewrite splitStatements_pushed. intros H. apply filter_In in H as [H _].
  pose proof (scan_from_trimmed (length sql) sql Index.scanner0 (le_n _)
                (Forall_nil _)) as Hall.
  rewrite Forall_forall in Hall. exact (Hall _ H).
Qed.

Lemma splitStatements_trimmed_witness :
  In ("SELECT 1" : text) (Index.splitStatements "  SELECT 1 ; ")
  /\ nonempty "SELECT 1" = true /\ trim "SELECT 1" = "SELECT 1".
Proof.
  split; [vm_compute; left; reflexivity|].
  apply (splitStatements_trimmed "  SELECT 1 ; "). vm_compute. left. reflexivity.
Defined.

(** *** How many statements *)

Lemma semicolons_tl t : semicolons (tl t) <= semicolons t.
Proof.
  destruct t as [|b t]; [apply le_n|]. unfold semicolons. cbn [tl filter].
  destruct (Ascii.eqb _ b); cbn [length]; lia.
Qed.

Lemma pushed_length st : length (pushed st) <= S (length (Index.statements st)).
Proof.
  unfold pushed. destruct (nonempty _); [rewrite length_app; simpl|]; lia.
Qed.

Lemma scan_from_count n : forall s st,
  length s <= n ->
  length (pushed (Index.scan_from st s))
  <= length (Index.statements st) + semicolons s + 1.
Proof.
  induction n as [|n IH]; intros s st Hn;
    (destruct s as [|a t];
     [pose proof (pushed_length st); cbn [Index.scan_from];
      change (semicolons []) with 0; lia|]);
    [simpl in Hn; lia|].
  rewrite scan_from_step.
  set (rest := if snd (Index.scan_char st a (hd_error t)) then tl t else t).
  assert (Hr : length rest <= n).
  { unfold rest. destruct (snd _); [destruct t|]; simpl in *; lia. }
  assert (Hs : semicolons rest <= semicolons t).
  { unfold rest. destruct (snd _); [apply semicolons_tl|apply le_n]. }
  specialize (IH rest (fst (Index.scan_char st a (hd_error t))) Hr).
  destruct (scan_char_shape st a (hd_error t)) as [[E _]|(-> & E & _)];
    rewrite E in IH; unfold rest in *; clear rest.
  - assert (semicolons t <= semicolons (a :: t))
      by (unfold semicolons; cbn [filter]; destruct (Ascii.eqb _ a);
          cbn [length]; lia).
    eapply Nat.le_trans; [exact IH|lia].
  - pose proof (pushed_length st).
    assert (semicolons (";"%char :: t) = S (semicolons t)) by reflexivity.
    eapply Nat.le_trans; [exact IH|lia].
Qed.

(** [splitStatements] returns at most one statement more than the text
    has semicolons. *)
Theorem splitStatements_count sql :
  length (Index.splitStatements sql) <= semicolons sql + 1.
Proof.
  rewrite splitStatements_pushed.
  pose proof (filter_length_le (fun stmt : text => 0 <? length stmt)
                (pushed (Index.scan_from Index.scanner0 sql))) as H1.
  pose proof (scan_from_count (length sql) sql Index.scanner0 (le_n _)) as H2.
  eapply Nat.le_trans; [exact H1|exact H2].
Qed.

(** *** Where the characters of the statements come from *)

Lemma subseq_refl s : subseq s s.
Proof. induction s; [apply subseq_nil|apply subseq_keep; assumption]. Qed.

Lemma subseq_nil_l s : subseq [] s.
Proof. induction s; [apply subseq_nil|apply subseq_skip; assumption]. Qed.

Lemma subseq_app x s y t : subseq x s -> subseq y t -> subseq (x ++ y) (s ++ t).
Proof.
  intros H; induction H; intros Hy; simpl;
    [exact Hy|apply subseq_skip|apply subseq_keep]; auto.
Qed.

Lemma subseq_trans x y : subseq x y -> forall z, subseq y z -> subseq x z.
Proof.
  intros H z Hz. revert x H. induction Hz; intros x' H.
  - exact H.
  - apply subseq_skip. apply IHHz. exact H.
  - inversion H; subst.
    + apply subseq_skip. apply IHHz. assumption.
    + apply subseq_keep. apply IHHz. assumption.
Qed.

Lemma subseq_rev x s : subseq x s -> subseq (rev x) (rev s).
Proof.
  intros H; induction H; simpl.
  - apply subseq_nil.
  - rewrite <- (app_nil_r (rev x)). apply subseq_app; [exact IHsubseq|].
    apply subseq_nil_l.
  - apply subseq_app; [exact IHsubseq|apply subseq_refl].
Qed.

Lemma subseq_trim_start s : subseq (trim_start s) s.
Proof.
  induction s as [|a t IH]; simpl; [apply subseq_nil|].
  destruct (is_space a); [apply subseq_skip; exact IH|apply subseq_refl].
Qed.

Lemma subseq_trim s : subseq (trim s) s.
Proof.
  unfold trim.
  apply (subseq_trans _ (rev (rev (trim_start s)))).
  - apply subseq_rev, subseq_trim_start.
  - rewrite rev_involutive. apply subseq_trim_start.
Qed.

Lemma subseq_tl (t : text) : subseq (tl t) t.
Proof. destruct t; [apply subseq_nil|]. simpl. apply subseq_skip, subseq_refl. Qed.

Lemma pushed_subseq st :
  subseq (concat (pushed st))
    (concat (Index.statements st) ++ Index.currentStatement st).
Proof.
  unfold pushed. destruct (nonempty _).
  - rewrite concat_app. simpl. rewrite app_nil_r.
    apply subseq_app; [apply subseq_refl|apply subseq_trim].
  - rewrite <- (app_nil_r (concat _)) at 1.
    apply subseq_app; [apply subseq_refl|apply subseq_nil_l].
Qed.

Lemma scan_from_subseq n : forall s st,
  length s <= n ->
  subseq (concat (pushed (Index.scan_from st s)))
    (concat (Index.statements st) ++ Index.currentStatement st ++ s).
Proof.
  induction n as [|n IH]; intros s st Hn;
    (destruct s as [|a t]; [rewrite app_nil_r; apply pushed_subseq|]);
    [simpl in Hn; lia|].
  rewrite scan_from_step.
  set (rest := if snd (Index.scan_char st a (hd_error t)) then tl t else t).
  assert (Hr : length rest <= n).
  { unfold rest. destruct (snd _); [destruct t|]; simpl in *; lia. }
  assert (Hs : subseq rest t).
  { unfold rest. destruct (snd _); [apply subseq_tl|apply subseq_refl]. }
  eapply subseq_trans; [apply (IH rest _ Hr)|].
  destruct (scan_char_shape st a (hd_error t)) as [[E [C|C]]|(-> & E & C)];
    rewrite E, C.
  - apply subseq_app; [apply subseq_refl|].
    rewrite <- app_assoc. apply subseq_app; [apply subseq_refl|].
    simpl. apply subseq_keep. exact Hs.
  - apply subseq_app; [apply subseq_refl|].
    apply subseq_app; [apply subseq_refl|]. apply subseq_skip. exact Hs.
  - cbn [app]. rewrite (app_assoc (concat (Index.statements st))).
    apply subseq_app; [apply pushed_subseq|].
    apply subseq_skip. exact Hs.
Qed.

Lemma concat_filter_nonempty (l : list text) :
  concat (filter (fun stmt => 0 <? length stmt) l) = concat l.
Proof.
  induction l as [|x l IH]; [reflexivity|].
  simpl. destruct x; simpl; [exact IH|]. rewrite IH. reflexivity.
Qed.

(** The statements of [splitStatements], one after the other, are
    characters of the text in the order of the text: nothing is written
    twice and nothing is added. *)
Theorem splitStatements_subseq sql :
  subseq (concat (Index.splitStatements sql)) sql.
Proof.
  rewrite splitStatements_pushed, concat_filter_nonempty.
  exact (scan_from_subseq (length sql) sql Index.scanner0 (le_n _)).
Qed.

(** *** Blank texts *)

Lemma subseq_ink x s : subseq x s -> has_ink x = true -> has_ink s = true.
Proof.
  intros H; induction H; simpl; intros Hx; [exact Hx| |].
  - rewrite (IHsubseq Hx). apply orb_true_r.
  - apply orb_true_iff in Hx as [Hx|Hx]; [rewrite Hx; reflexivity|].
    rewrite (IHsubseq Hx). apply orb_true_r.
Qed.

Lemma subseq_concat_in (x : text) l : In x l -> subseq x (concat l).
Proof.
  induction l as [|y l IH]; [contradiction|].
  intros [->|H]; simpl.
  - rewrite <- (app_nil_r x) at 1. apply subseq_app; [apply subseq_refl|apply subseq_nil_l].
  - change (subseq ([] ++ x) (y ++ concat l)).
    apply subseq_app; [apply subseq_nil_l|apply IH; exact H].
Qed.

(** A text of white space only, the empty text among them, has no
    statement. *)
Theorem splitStatements_blank sql :
  has_ink sql = false -> Index.splitStatements sql = [].
Proof.
  intros Hb. rewrite splitStatements_pushed.
  destruct (filter _ _) as [|x l] eqn:E; [reflexivity|].
  assert (Hin : In x (pushed (Index.scan_from Index.scanner0 sql))).
  { assert (H : In x (x :: l)) by (left; reflexivity).
    rewrite <- E in H. apply filter_In in H as [H _]. exact H. }
  pose proof (scan_from_trimmed (length sql) sql Index.scanner0 (le_n _)
                (Forall_nil _)) as Hall.
  rewrite Forall_forall in Hall. destruct (Hall _ Hin) as [Hne Ht].
  rewrite <- Ht, nonempty_trim in Hne.
  pose proof (scan_from_subseq (length sql) sql Index.scanner0 (le_n _)) as Hs.
  simpl in Hs.
  pose proof (subseq_ink _ _ (subseq_trans _ _ (subseq_concat_in _ _ Hin) _ Hs) Hne).
  congruence.
Qed.

Lemma splitStatements_blank_witness :
  has_ink (" " ++ nl ++ "  ") = false
  /\ Index.splitStatements (" " ++ nl ++ "  ") = [].
Proof.
  split; [vm_compute; reflexivity|].
  apply splitStatements_blank. vm_compute. reflexivity.
Defined.

(** *** Two texts joined by a semicolon *)

Lemma scan_char_next st x nx nx' :
  Index.is_some_char "-" nx = Index.is_some_char "-" nx' ->
  Index.is_some_char "*" nx = Index.is_some_char "*" nx' ->
  Index.is_some_char "/" nx = Index.is_some_char "/" nx' ->
  Index.scan_char st x nx = Index.scan_char st x nx'.
Proof.
  intros H1 H2 H3. destruct st. unfold Index.scan_char.
  rewrite H1, H2, H3. reflexivity.
Qed.

Lemma scan_char_skip st x nx :
  snd (Index.scan_char st x nx) = true ->
  Index.is_some_char "*" nx = true \/ Index.is_some_char "/" nx = true.
Proof.
  destruct st as [stmts cur inStr strCh inCom inMulti dep].
  unfold Index.scan_char.
  destruct (Index.is_some_char "*" nx); [auto|].
  destruct (Index.is_some_char "/" nx); [auto|].
  rewrite !andb_false_r. cbn [andb].
  repeat match goal with
         | |- context [if ?b then _ else _] => destruct b
         end; cbn; intros; discriminate.
Qed.

Lemma scan_from_app n : forall a st c b,
  length a <= n ->
  Ascii.eqb c "-" = false -> Ascii.eqb c "*" = false -> Ascii.eqb c "/" = false ->
  Index.scan_from st (a ++ c :: b)
  = Index.scan_from (Index.scan_from st a) (c :: b).
Proof.
  induction n as [|n IH]; intros a st c b Hn C1 C2 C3;
    (destruct a as [|x a']; [reflexivity|]); [simpl in Hn; lia|].
  cbn [app]. rewrite (scan_from_step st x (a' ++ c :: b)), (scan_from_step st x a').
  destruct a' as [|y a''].
  - cbn [app hd_error tl].
    assert (E : Index.scan_char st x (Some c) = Index.scan_char st x None)
      by (apply scan_char_next; cbn; assumption).
    rewrite E.
    destruct (snd (Index.scan_char st x None)) eqn:Es.
    + apply scan_char_skip in Es. cbn in Es. destruct Es; discriminate.
    + reflexivity.
  - cbn [app hd_error tl].
    destruct (snd (Index.scan_char st x (Some y))).
    + apply IH; simpl in *; try assumption; lia.
    + apply (IH (y :: a'')); simpl in *; try assumption; lia.
Qed.

Lemma scan_char_alike p st1 st2 x nx :
  alike p st1 st2 ->
  alike p (fst (Index.scan_char st1 x nx)) (fst (Index.scan_char st2 x nx))
  /\ snd (Index.scan_char st1 x nx) = snd (Index.scan_char st2 x nx).
Proof.
  destruct st1 as [stmts1 cur1 inStr1 strCh1 inCom1 inMulti1 dep1].
  destruct st2 as [stmts2 cur2 inStr2 strCh2 inCom2 inMulti2 dep2].
  unfold alike. cbn [Index.statements Index.currentStatement Index.inString
    Index.inComment Index.inMultilineComment Index.depth Index.stringChar].
  intros (-> & -> & -> & -> & -> & -> & Hq).
  unfold Index.scan_char.
  destruct inStr2; [rewrite (Hq eq_refl)|]; clear Hq;
    destruct inCom2, inMulti2; cbn [negb andb orb];
    repeat match goal with
           | |- context [if ?b then _ else _] =>
               destruct b; cbn [negb andb orb]
           end; cbn; repeat split; auto; try discriminate;
    rewrite <- ?app_assoc; reflexivity.
Qed.

Lemma pushed_alike p st1 st2 : alike p st1 st2 -> pushed st1 = p ++ pushed st2.
Proof.
  intros (H1 & H2 & _). unfold pushed. rewrite H1, H2.
  destruct (nonempty _); [symmetry; apply app_assoc|reflexivity].
Qed.

Lemma scan_from_alike p n : forall s st1 st2,
  length s <= n -> alike p st1 st2 ->
  alike p (Index.scan_from st1 s) (Index.scan_from st2 s).
Proof.
  induction n as [|n IH]; intros s st1 st2 Hn Ha;
    (destruct s as [|a t]; [exact Ha|]); [simpl in Hn; lia|].
  rewrite !scan_from_step.
  destruct (scan_char_alike p st1 st2 a (hd_error t) Ha) as [Ha' Hs].
  rewrite Hs. apply IH; [|exact Ha'].
  clear Ha Ha' Hs. destruct (snd _); [destruct t|]; cbn [tl length] in *; lia.
Qed.

(** Where the first text ends outside strings, comments and parentheses,
    the statements of two texts joined by a semicolon are those of the
    first followed by those of the second. *)
Theorem splitStatements_semicolon a b :
  at_top_level (Index.scan_from Index.scanner0 a) = true ->
  Index.splitStatements (a ++ ";" ++ b)
  = Index.splitStatements a ++ Index.splitStatements b.
Proof.
  intros Ht. rewrite !splitStatements_pushed, <- filter_app. f_equal.
  change (a ++ ";" ++ b) with (a ++ ";"%char :: b).
  rewrite (scan_from_app (length a) a _ ";"%char b (le_n _) eq_refl eq_refl eq_refl).
  rewrite scan_from_step.
  destruct (Index.scan_from Index.scanner0 a)
    as [stmts cur inStr strCh inCom inMulti dep] eqn:Ea.
  unfold at_top_level in Ht.
  cbn [Index.inString Index.inComment Index.inMultilineComment Index.depth] in Ht.
  apply andb_prop in Ht as [Ht Hd]. apply andb_prop in Ht as [Ht Hm].
  apply andb_prop in Ht as [Hs Hc].
  apply negb_true_iff in Hs, Hc, Hm. subst inStr inCom inMulti.
  rewrite scan_char_code. cbn [is_quote Ascii.eqb Bool.eqb andb orb].
  rewrite Hd. cbn [fst snd].
  apply pushed_alike.
  apply (scan_from_alike _ (length b) b _ _ (le_n _)).
  unfold alike, pushed.
  cbn [Index.statements Index.currentStatement Index.inString Index.inComment
       Index.inMultilineComment Index.depth Index.stringChar Index.scanner0].
  rewrite app_nil_r. apply Z.eqb_eq in Hd.
  repeat split; try reflexivity; [exact Hd|discriminate].
Qed.

Lemma splitStatements_semicolon_witness :
  at_top_level (Index.scan_from Index.scanner0 "SELECT f(';') FROM t -- one") = false
  /\ at_top_level (Index.scan_from Index.scanner0 "SELECT f(';') FROM t") = true
  /\ Index.splitStatements ("SELECT f(';') FROM t" ++ ";" ++ " SELECT 2; SELECT 3")
     = Index.splitStatements "SELECT f(';') FROM t"
         ++ Index.splitStatements " SELECT 2; SELECT 3".
Proof.
  split; [vm_compute; reflexivity|]. split; [vm_compute; reflexivity|].
  apply splitStatements_semicolon. vm_compute. reflexivity.
Defined.

(** *** The statements that [convert] converts *)

Lemma map_trimmed {B} (f : text -> B) (l : list text) :
  Forall trimmed l ->
  map (fun stmt => f (trim stmt)) (filter (fun stmt => nonempty (trim stmt)) l)
  = map f l.
Proof.
  induction 1 as [|x l [Hn Ht] _ IH]; [reflexivity|].
  cbn [filter]. rewrite Ht, Hn. cbn [map]. rewrite Ht, IH. reflexivity.
Qed.

Lemma splitStatements_all_trimmed sql : Forall trimmed (Index.splitStatements sql).
Proof.
  rewrite splitStatements_pushed. apply Forall_forall. intros x H.
  apply filter_In in H as [H _].
  pose proof (scan_from_trimmed (length sql) sql Index.scanner0 (le_n _)
                (Forall_nil _)) as Hall.
  rewrite Forall_forall in Hall. exact (Hall _ H).
Qed.

(** [convert] gives each statement of [splitStatements] to
    [convertStatement] as it is: its filter removes none of them and its
    [trim] changes none. *)
Theorem convert_statements format input :
  Index.convert format input
  = match
      Index.formatSQL format
        (join (nl ++ nl)
           (map Index.convertStatement
              (Index.splitStatements (Index.preprocessSQL input))))
    with
    | Returned finalSQL => Result true (Some finalSQL) (Some []) None
    | Thrown message => Result false None (Some []) (Some [message])
    end.
Proof.
  unfold Index.convert.
  rewrite (map_trimmed Index.convertStatement _ (splitStatements_all_trimmed _)).
  reflexivity.
Qed.

(** *** The splitter of [SQLParser] *)

Lemma scan_char_in_step p i a t :
  in_step p i -> slash_star a t = false ->
  in_step (SQLParser.scan_char p a (hd_error t))
          (fst (Index.scan_char i a (hd_error t)))
  /\ snd (Index.scan_char i a (hd_error t)) = false.
Proof.
  destruct p as [stmtsP curP inStrP strChP inComP depP].
  destruct i as [stmts cur inStr strCh inCom inMulti dep].
  unfold in_step, slash_star.
  cbn [SQLParser.statements SQLParser.currentStatement SQLParser.inString
       SQLParser.stringChar SQLParser.inComment SQLParser.depth
       Index.statements Index.currentStatement Index.inString
       Index.inComment Index.inMultilineComment Index.depth Index.stringChar].
  intros (H1 & -> & -> & -> & -> & -> & ->) Hs.
  unfold SQLParser.scan_char, Index.scan_char. rewrite Hs.
  rewrite !andb_true_r, !andb_false_r.
  assert (Hp : forall x : text,
    filter (fun stmt : text => 0 <? length stmt) (stmtsP ++ [x])
    = if nonempty x then stmts ++ [x] else stmts).
  { intros x. rewrite filter_app, H1. cbn [filter].
    rewrite nonempty_length. destruct (nonempty x); [reflexivity|apply app_nil_r]. }
  destruct (Ascii.eqb_spec a "'") as [->|N1];
  [|destruct (Ascii.eqb_spec a DQUOTE) as [->|N2];
  [|destruct (Ascii.eqb_spec a "-") as [->|N3];
  [|destruct (Ascii.eqb_spec a LF) as [->|N4];
  [|destruct (Ascii.eqb_spec a "(") as [->|N5];
  [|destruct (Ascii.eqb_spec a ")") as [->|N6];
  [|destruct (Ascii.eqb_spec a ";") as [->|N7]]]]]]];
  cbn [Ascii.eqb Bool.eqb andb orb negb] in *;
  unfold DQUOTE, LF in *; cbn [Ascii.eqb Bool.eqb andb orb negb] in *;
  clear Hs;
  destruct inStr, inCom; cbn [negb andb orb];
    repeat match goal with
           | |- context [if ?b then _ else _] =>
               destruct b eqn:?; cbn [negb andb orb]
           end;
    cbn [SQLParser.statements SQLParser.currentStatement SQLParser.inString
       SQLParser.stringChar SQLParser.inComment SQLParser.depth
       Index.statements Index.currentStatement Index.inString fst snd
       Index.inComment Index.inMultilineComment Index.depth Index.stringChar];
    rewrite ?Hp;
    repeat match goal with
           | H : nonempty _ = _ |- _ => rewrite H; clear H
           end;
    repeat split; auto; try congruence.
Qed.

Lemma scan_from_in_step s : forall p i,
  in_step p i -> includes "/*" s = false ->
  in_step (SQLParser.scan_from p s) (Index.scan_from i s).
Proof.
  induction s as [|a t IH]; intros p i H Hs; [exact H|].
  apply includes_cons in Hs as [Hs Ht].
  rewrite scan_from_step. cbn [SQLParser.scan_from].
  destruct (scan_char_in_step p i a t H Hs) as [H' Hk].
  rewrite Hk. apply IH; assumption.
Qed.

Lemma filter_twice {A} (f : A -> bool) l : filter f (filter f l) = filter f l.
Proof.
  induction l as [|x l IH]; [reflexivity|].
  cbn [filter]. destruct (f x) eqn:E; cbn [filter]; rewrite ?E, IH; reflexivity.
Qed.

(** On a text without a block-comment opener the splitter of [SQLParser]
    returns the statements that the splitter of
    [HiveToSnowflakeConverter] returns. *)
Theorem SQLParser_splitStatements_agrees sql :
  includes "/*" sql = false ->
  SQLParser.splitStatements sql = Index.splitStatements sql.
Proof.
  intros Hs. rewrite splitStatements_pushed.
  unfold SQLParser.splitStatements, pushed.
  destruct (scan_from_in_step sql SQLParser.scanner0 Index.scanner0)
    as (H1 & H2 & _); [repeat split|exact Hs|].
  rewrite <- H1, <- H2.
  destruct (nonempty _); rewrite ?filter_app, filter_twice; reflexivity.
Qed.

Lemma SQLParser_splitStatements_agrees_witness :
  includes "/*" ("SELECT ';' -- a; b" ++ nl ++ "FROM t;; SELECT f(1;2)") = false
  /\ SQLParser.splitStatements
       ("SELECT ';' -- a; b" ++ nl ++ "FROM t;; SELECT f(1;2)")
     = Index.splitStatements
         ("SELECT ';' -- a; b" ++ nl ++ "FROM t;; SELECT f(1;2)").
Proof.
  split; [vm_compute; reflexivity|].
  apply SQLParser_splitStatements_agrees. vm_compute. reflexivity.
Defined.

(** *** A global replacement by a fixed text *)

Section Substitution.

Variable r : regex.
Variable here : text -> option nat.
Hypothesis here_ok : forall pre s, option_map fst (match_here r pre s) = here s.
Hypothesis here_pos : forall s, here s <> Some 0.
Variable f : replacer.
Variable t : text.
Hypothesis f_fixed : forall x, f x = t.

Lemma match_here_nil pre : match_here r pre [] = None.
Proof.
  pose proof (here_ok pre []) as H. pose proof (here_pos []) as P.
  destruct (match_here r pre []) as [[n c]|] eqn:E; [|reflexivity].
  apply match_here_le in E. simpl in *. assert (n = 0) by lia. subst.
  congruence.
Qed.

Lemma replace_go_spans : forall s pre skip,
  replace_go r f pre skip s = put_spans here t skip s.
Proof.
  induction s as [|a s' IH]; intros pre skip; cbn [replace_go put_spans].
  - rewrite match_here_nil. destruct skip; reflexivity.
  - destruct skip as [|k]; [|apply IH].
    destruct (match_here_cases r here here_ok here_pos pre (a :: s'))
      as [[E F]|[k [c [E F]]]]; rewrite E, F.
    + rewrite IH. reflexivity.
    + rewrite f_fixed, IH. reflexivity.
Qed.

End Substitution.

(** *** Runs of white space *)

Lemma space_run_match pre s :
  option_map fst (match_here ws1 pre s) = space_run_here s.
Proof.
  unfold match_here, ws1, space_run_here.
  destruct s as [|a u].
  - unfold Plus. rewrite m_seq, m_chr. reflexivity.
  - destruct (is_space a) eqn:E.
    + rewrite (plus_class_max is_space done pre a u [] (drop_while is_space u, [])
                 E eq_refl).
      cbn [option_map fst]. f_equal.
      rewrite <- (take_drop_while is_space u) at 1.
      cbn [length]. rewrite length_app. lia.
    + unfold Plus. rewrite m_seq, m_chr, E. reflexivity.
Qed.

Lemma space_run_pos s : space_run_here s <> Some 0.
Proof.
  unfold space_run_here. destruct s as [|a u]; [discriminate|].
  destruct (is_space a); discriminate.
Qed.

Lemma put_spans_squeeze s :
  put_spans space_run_here " " (length (take_while is_space s)) s = squeeze true s
  /\ put_spans space_run_here " " 0 s = squeeze false s.
Proof.
  induction s as [|a u [IH1 IH2]]; [split; reflexivity|].
  cbn [put_spans squeeze take_while space_run_here].
  destruct (is_space a) eqn:E; cbn [length].
  - rewrite IH1. split; reflexivity.
  - rewrite IH2. split; reflexivity.
Qed.

Lemma replace_spaces s : replace_all_tpl ws1 " " s = squeeze false s.
Proof.
  unfold replace_all_tpl, replace_all.
  rewrite (replace_go_spans ws1 space_run_here space_run_match space_run_pos
             _ " " (fun _ => eq_refl)).
  apply put_spans_squeeze.
Qed.

Lemma squeeze_true_head s :
  match squeeze true s with b :: _ => is_space b = false | [] => True end.
Proof.
  induction s as [|a u IH]; cbn [squeeze]; [exact I|].
  destruct (is_space a) eqn:E; [exact IH|exact E].
Qed.

Lemma no_run_squeeze s : forall b, no_run (squeeze b s) = true.
Proof.
  induction s as [|a u IH]; intros b; cbn [squeeze]; [reflexivity|].
  destruct (is_space a) eqn:E.
  - destruct b; [apply IH|].
    cbn [no_run]. rewrite IH, andb_true_r.
    pose proof (squeeze_true_head u) as H.
    destruct (squeeze true u) as [|c v]; [reflexivity|].
    rewrite H. reflexivity.
  - cbn [no_run]. rewrite E, IH. reflexivity.
Qed.

Lemma no_run_suffix x : forall y, no_run (x ++ y) = true -> no_run y = true.
Proof.
  induction x as [|a x IH]; intros y H; [exact H|].
  cbn [app no_run] in H. apply andb_prop in H as [_ H]. apply IH. exact H.
Qed.

Lemma trim_start_app x y :
  trim_start (x ++ y) = if has_ink x then trim_start x ++ y else trim_start y.
Proof.
  induction x as [|a x IH]; [reflexivity|].
  cbn [app trim_start has_ink]. destruct (is_space a); [exact IH|reflexivity].
Qed.

Lemma trim_end_blank s : has_ink s = false -> trim_end s = [].
Proof. destruct s; [reflexivity|]. cbn [trim_end]. intros ->. reflexivity. Qed.

Lemma trim_end_rev s : rev (trim_start (rev s)) = trim_end s.
Proof.
  induction s as [|a u IH]; [reflexivity|].
  cbn [rev trim_end has_ink]. rewrite trim_start_app, has_ink_rev.
  destruct (has_ink u) eqn:E.
  - rewrite rev_app_distr, IH, orb_true_r. reflexivity.
  - rewrite orb_false_r. cbn [trim_start].
    destruct (is_space a); [reflexivity|].
    cbn [negb rev app]. rewrite (trim_end_blank u E). reflexivity.
Qed.

Lemma trim_ends s : trim s = trim_end (trim_start s).
Proof. unfold trim. apply trim_end_rev. Qed.

Lemma single_spaced_trim_end s : no_run s = true -> single_spaced (trim_end s) = true.
Proof.
  induction s as [|a u IH]; [reflexivity|].
  cbn [no_run]. intros H. apply andb_prop in H as [Ha Hu].
  cbn [trim_end]. destruct (has_ink (a :: u)) eqn:E; [|reflexivity].
  cbn [single_spaced]. rewrite (IH Hu), andb_true_r.
  cbn [has_ink] in E.
  destruct (is_space a) eqn:Ea; [|reflexivity].
  cbn [negb orb] in *.
  destruct u as [|b v]; [discriminate|].
  apply andb_prop in Ha as [Ha Hb]. rewrite Ha.
  apply negb_true_iff in Hb.
  cbn [trim_end has_ink]. rewrite Hb. cbn [negb orb]. rewrite Hb. reflexivity.
Qed.

Lemma single_spaced_trim_squeeze s : single_spaced (trim (squeeze false s)) = true.
Proof.
  rewrite trim_ends. apply single_spaced_trim_end.
  destruct (trim_start_suffix (squeeze false s)) as [x Hx].
  apply (no_run_suffix x). rewrite <- Hx. apply no_run_squeeze.
Qed.

(** What [preprocessSQL] returns, in [lib/converter.ts] and in the class
    [SQLParser], has no white space at its ends, and no white space inside
    but single space characters: no line break, no tabulation, no two
    spaces in a row. *)
Theorem preprocessSQL_single_spaced sql :
  (single_spaced (Lib.preprocessSQL sql) = true
   /\ trim (Lib.preprocessSQL sql) = Lib.preprocessSQL sql)
  /\ (single_spaced (SQLParser.preprocessSQL sql) = true
      /\ trim (SQLParser.preprocessSQL sql) = SQLParser.preprocessSQL sql).
Proof.
  unfold Lib.preprocessSQL, SQLParser.preprocessSQL. rewrite !replace_spaces.
  repeat split; try apply single_spaced_trim_squeeze; apply trim_idem.
Qed.

(** *** A line comment after [preprocessSQL] in [SQLParser] *)

Lemma single_spaced_no_lf s : single_spaced s = true -> mem LF s = false.
Proof.
  induction s as [|a u IH]; [reflexivity|].
  cbn [single_spaced mem]. intros H. apply andb_prop in H as [Ha Hu].
  rewrite (IH Hu), orb_false_r.
  destruct (Ascii.eqb_spec a LF) as [->|]; [discriminate Ha|reflexivity].
Qed.

Lemma mem_app_false a x y : mem a (x ++ y) = false -> mem a x = false /\ mem a y = false.
Proof.
  induction x as [|b x IH]; cbn [app mem]; [auto|].
  intros H. apply orb_false_iff in H as [H1 H2].
  destruct (IH H2) as [Hx Hy]. rewrite H1, Hx. auto.
Qed.

Lemma SQLParser_in_comment y : forall st,
  SQLParser.inComment st = true -> SQLParser.inString st = false ->
  mem LF y = false ->
  SQLParser.statements (SQLParser.scan_from st y) = SQLParser.statements st.
Proof.
  induction y as [|a u IH]; intros st Hc Hs Hy; [reflexivity|].
  cbn [mem] in Hy. apply orb_false_iff in Hy as [Ha Hu].
  cbn [SQLParser.scan_from].
  destruct st as [stmts cur inStr strCh inCom dep].
  cbn [SQLParser.inComment SQLParser.inString SQLParser.statements] in *.
  subst inCom inStr.
  assert (E : SQLParser.scan_char (SQLParser.Scanner stmts cur false strCh true dep)
                a (hd_error u)
              = SQLParser.Scanner stmts (cur ++ [a]) false strCh true dep).
  { unfold SQLParser.scan_char. cbn [negb andb]. rewrite !andb_false_r.
    rewrite Ha. cbn [andb].
    destruct ((a =? "-")%char && Index.is_some_char "-" (hd_error u));
      cbn [negb andb]; rewrite ?andb_false_r; reflexivity. }
  rewrite E. rewrite IH; auto.
Qed.

Lemma SQLParser_dash st nx :
  SQLParser.statements (SQLParser.scan_char st "-" nx) = SQLParser.statements st
  /\ SQLParser.inString (SQLParser.scan_char st "-" nx) = SQLParser.inString st
  /\ (SQLParser.inString st = false ->
      Index.is_some_char "-" nx = true ->
      SQLParser.inComment (SQLParser.scan_char st "-" nx) = true).
Proof.
  destruct st as [stmts cur inStr strCh inCom dep].
  unfold SQLParser.scan_char.
  cbn [Ascii.eqb Bool.eqb andb orb negb SQLParser.statements SQLParser.inString
       SQLParser.inComment].
  unfold DQUOTE, LF. cbn [Ascii.eqb Bool.eqb andb orb negb].
  destruct inStr; cbn [negb andb].
  - repeat split; intros; discriminate.
  - destruct (Index.is_some_char "-" nx), inCom; cbn [negb andb];
      rewrite ?andb_false_r;
      cbn [SQLParser.statements SQLParser.inString SQLParser.inComment];
      repeat split; intros; try discriminate; reflexivity.
Qed.

Lemma SQLParser_scan_char_next st a nx nx' :
  a <> "-"%char -> SQLParser.scan_char st a nx = SQLParser.scan_char st a nx'.
Proof.
  intros H. destruct st. unfold SQLParser.scan_char.
  destruct (Ascii.eqb_spec a "-"); [contradiction|reflexivity].
Qed.

Lemma SQLParser_comment_opens x : forall st y,
  mem LF y = false ->
  SQLParser.inString (SQLParser.scan_from st x) = false ->
  SQLParser.statements (SQLParser.scan_from st (x ++ "--" ++ y))
  = SQLParser.statements (SQLParser.scan_from st x).
Proof.
  assert (Base : forall st y,
    mem LF y = false -> SQLParser.inString st = false ->
    SQLParser.statements (SQLParser.scan_from st ("--" ++ y))
    = SQLParser.statements st).
  { intros st y Hy Hs.
    change ("--" ++ y) with ("-"%char :: "-"%char :: y).
    cbn [SQLParser.scan_from hd_error].
    destruct (SQLParser_dash st (Some "-"%char)) as (E1 & E2 & E3).
    change (SQLParser.scan_from
              (SQLParser.scan_char
                 (SQLParser.scan_char st "-" (Some "-"%char)) "-" (hd_error y)) y)
      with (SQLParser.scan_from (SQLParser.scan_char st "-" (Some "-"%char))
              ("-"%char :: y)).
    rewrite SQLParser_in_comment; [exact E1|apply E3; auto|congruence|exact Hy]. }
  induction x as [|a x' IH]; intros st y Hy Hs; [apply Base; assumption|].
  destruct x' as [|b x''].
  - cbn [app SQLParser.scan_from hd_error] in *.
    change (list_ascii_of_string "--" ++ y) with ("-"%char :: "-"%char :: y).
    cbn [hd_error].
    destruct (Ascii.eqb_spec a "-") as [->|Hn].
    + destruct (SQLParser_dash st (Some "-"%char)) as (E1 & E2 & E3).
      destruct (SQLParser_dash st None) as (F1 & F2 & _).
      rewrite F1. rewrite F2 in Hs.
      change (SQLParser.scan_from (SQLParser.scan_char st "-" (Some "-"%char))
                ("-"%char :: "-"%char :: y))
        with (SQLParser.scan_from (SQLParser.scan_char st "-" (Some "-"%char))
                ("--" ++ y)).
      rewrite Base; [exact E1|exact Hy|congruence].
    + rewrite (SQLParser_scan_char_next st a (Some "-"%char) None Hn).
      apply (Base _ y Hy Hs).
  - cbn [app SQLParser.scan_from hd_error] in *.
    apply (IH _ y Hy Hs).
Qed.

Lemma SQLParser_scan_char_shape st a nx :
  SQLParser.statements (SQLParser.scan_char st a nx) = SQLParser.statements st
  \/ (a = ";"%char
      /\ SQLParser.statements (SQLParser.scan_char st a nx)
         = SQLParser.statements st ++ [trim (SQLParser.currentStatement st)]).
Proof.
  destruct st as [stmts cur inStr strCh inCom dep].
  unfold SQLParser.scan_char.
  destruct (Ascii.eqb_spec a ";") as [->|Hn]; cbn [andb];
    repeat match goal with
           | |- context [if ?b then _ else _] => destruct b
           end; cbn; auto.
Qed.

Lemma SQLParser_scan_from_count x : forall st,
  length (SQLParser.statements (SQLParser.scan_from st x))
  <= length (SQLParser.statements st) + semicolons x.
Proof.
  induction x as [|a u IH]; intros st; [cbn; lia|].
  cbn [SQLParser.scan_from]. eapply Nat.le_trans; [apply IH|].
  assert (Hs : semicolons (a :: u)
               = (if Ascii.eqb ";" a then 1 else 0) + semicolons u).
  { unfold semicolons. cbn [filter]. destruct (Ascii.eqb _ a); reflexivity. }
  rewrite Hs.
  destruct (SQLParser_scan_char_shape st a (hd_error u)) as [E|(-> & E)];
    rewrite E; [lia|].
  rewrite length_app. cbn. lia.
Qed.

(** In [SQLParser], [splitStatements] reads what [preprocessSQL] returns,
    which has no line break: a line comment that opens outside a string
    runs to the end of the script, and no semicolon after its opener
    splits. *)
Theorem SQLParser_line_comment_runs_to_the_end sql x y :
  SQLParser.preprocessSQL sql = x ++ "--" ++ y ->
  SQLParser.inString (SQLParser.scan_from SQLParser.scanner0 x) = false ->
  length (SQLParser.splitStatements (SQLParser.preprocessSQL sql))
  <= semicolons x + 1.
Proof.
  intros Hp Hs.
  assert (Hy : mem LF y = false).
  { pose proof (single_spaced_trim_squeeze
                  (replace_all_tpl SQLParser.re_struct "OBJECT"
                    (replace_all_tpl SQLParser.re_map "OBJECT"
                      (replace_all_tpl SQLParser.re_array "ARRAY"
                        (replace_all_tpl SQLParser.re_marker "-- -----"
                          (replace_all_tpl SQLParser.re_inline_hint ""
                            (replace_all_tpl Index.re_set_statement "" sql)))))))
      as H.
    rewrite <- replace_spaces in H.
    change (single_spaced (SQLParser.preprocessSQL sql) = true) in H.
    rewrite Hp in H. apply single_spaced_no_lf in H.
    apply mem_app_false in H as [_ H]. apply mem_app_false in H as [_ H].
    exact H. }
  rewrite Hp. unfold SQLParser.splitStatements.
  eapply Nat.le_trans; [apply filter_length_le|].
  pose proof (SQLParser_comment_opens x SQLParser.scanner0 y Hy Hs) as E.
  pose proof (SQLParser_scan_from_count x SQLParser.scanner0) as C.
  destruct (nonempty _).
  - rewrite length_app, E. cbn [length].
    apply Nat.add_le_mono; [exact C|apply le_n].
  - rewrite E. eapply Nat.le_trans; [exact C|apply Nat.le_add_r].
Qed.

Lemma SQLParser_line_comment_runs_to_the_end_witness :
  SQLParser.preprocessSQL ("SELECT 1 -- one" ++ nl ++ "; SELECT 2; SELECT 3")
  = "SELECT 1 " ++ "--" ++ " one ; SELECT 2; SELECT 3"
  /\ SQLParser.inString (SQLParser.scan_from SQLParser.scanner0 "SELECT 1 ") = false
  /\ length (SQLParser.splitStatements
               (SQLParser.preprocessSQL
                  ("SELECT 1 -- one" ++ nl ++ "; SELECT 2; SELECT 3")))
     <= semicolons "SELECT 1 " + 1.
Proof.
  split; [vm_compute; reflexivity|]. split; [vm_compute; reflexivity|].
  apply (SQLParser_line_comment_runs_to_the_end _ "SELECT 1 "
           " one ; SELECT 2; SELECT 3"); vm_compute; reflexivity.
Defined.

(** *** Occurrences found from left to right *)

Section Spans.

Variable here : text -> option nat.

Lemma spans_empty_pos : forall s pos pos' skip,
  spans here pos skip s = [] -> spans here pos' skip s = [].
Proof.
  induction s as [|a t IH]; intros pos pos' skip H; [reflexivity|].
  cbn [spans] in *. destruct skip as [|k]; [|exact (IH _ _ _ H)].
  destruct (here (a :: t)) as [[|j]|]; [exact (IH _ _ _ H)|discriminate|
                                         exact (IH _ _ _ H)].
Qed.

Lemma spans_skip_over : forall h pos s,
  spans here pos (length h) (h ++ s) = spans here (pos + length h) 0 s.
Proof.
  induction h as [|a h IH]; intros pos s.
  - cbn [length app]. rewrite Nat.add_0_r. destruct s; reflexivity.
  - cbn [length app spans]. rewrite IH. f_equal. lia.
Qed.

Lemma spans_skipn_empty : forall s pos k,
  spans here pos k s = [] -> spans here pos 0 (skipn k s) = [].
Proof.
  induction s as [|a t IH]; intros pos k H.
  - destruct k; reflexivity.
  - destruct k as [|k]; [exact H|].
    cbn [spans skipn] in *. apply (spans_empty_pos _ (S pos)). apply IH. exact H.
Qed.

(** Nothing is found that starts inside [x]. *)
Lemma spans_dead : forall x pos s,
  (forall x1 a x2, x = x1 ++ a :: x2 ->
     match here (a :: x2 ++ s) with Some (S _) => False | _ => True end) ->
  spans here pos 0 (x ++ s) = spans here (pos + length x) 0 s.
Proof.
  induction x as [|a x IH]; intros pos s H.
  - cbn [app length]. rewrite Nat.add_0_r. reflexivity.
  - cbn [app spans length].
    pose proof (H [] a x eq_refl) as H0.
    destruct (here (a :: x ++ s)) as [[|j]|]; [|contradiction|];
      (rewrite IH; [f_equal; lia|]);
      intros x1 b x2 E; apply (H (a :: x1) b x2); rewrite E; reflexivity.
Qed.

(** Before the first occurrence nothing is found. *)
Lemma spans_before_first : forall s pos st len l,
  spans here pos 0 s = (st, len) :: l ->
  forall x1 a x2, firstn (st - pos) s = x1 ++ a :: x2 ->
    match here (a :: x2 ++ skipn (st - pos) s) with
    | Some (S _) => False
    | _ => True
    end.
Proof.
  induction s as [|b t IH]; intros pos st len l H x1 a x2 E.
  - rewrite firstn_nil in E. destruct x1; discriminate.
  - cbn [spans] in H.
    destruct (here (b :: t)) as [[|j]|] eqn:Hb.
    + assert (Hst : S pos + 0 <= st)
        by (apply (spans_ge here t _ _ st len); rewrite H; left; reflexivity).
      replace (st - pos) with (S (st - S pos)) in * by lia.
      cbn [firstn skipn] in *.
      destruct x1 as [|c x1]; cbn [app] in E; inversion E; subst.
      * rewrite firstn_skipn, Hb. exact I.
      * apply (IH _ _ _ _ H x1 a x2). assumption.
    + inversion H; subst. rewrite Nat.sub_diag in E. cbn [firstn] in E.
      destruct x1; discriminate.
    + assert (Hst : S pos + 0 <= st)
        by (apply (spans_ge here t _ _ st len); rewrite H; left; reflexivity).
      replace (st - pos) with (S (st - S pos)) in * by lia.
      cbn [firstn skipn] in *.
      destruct x1 as [|c x1]; cbn [app] in E; inversion E; subst.
      * rewrite firstn_skipn, Hb. exact I.
      * apply (IH _ _ _ _ H x1 a x2). assumption.
Qed.

(** After the last occurrence nothing is found. *)
Lemma spans_after_last : forall s pos skip p l lst len,
  spans here pos skip s = p :: l ->
  last (p :: l) (0, 0) = (lst, len) ->
  spans here 0 0 (skipn (lst + len - pos) s) = [].
Proof.
  induction s as [|b t IH]; intros pos skip p l lst len H L; [discriminate|].
  assert (Hin : In (lst, len) (spans here pos skip (b :: t))).
  { rewrite H, <- L. apply last_in. discriminate. }
  apply spans_ge in Hin.
  cbn [spans] in H.
  assert (Hnext : forall k p' l',
            spans here (S pos) k t = p' :: l' ->
            last (p' :: l') (0, 0) = (lst, len) ->
            spans here 0 0 (skipn (lst + len - pos) (b :: t)) = []).
  { intros k p' l' H' L'.
    assert (Hin' : In (lst, len) (spans here (S pos) k t)).
    { rewrite H', <- L'. apply last_in. discriminate. }
    apply spans_ge in Hin'.
    replace (lst + len - pos) with (S (lst + len - S pos)) by lia.
    cbn [skipn]. exact (IH _ _ _ _ _ _ H' L'). }
  destruct skip as [|k]; [|exact (Hnext _ _ _ H L)].
  destruct (here (b :: t)) as [[|j]|] eqn:Hb;
    [exact (Hnext _ _ _ H L)| |exact (Hnext _ _ _ H L)].
  inversion H; subst p l. clear H.
  destruct (spans here (S pos) j t) as [|p' l'] eqn:Sp.
  - cbn [last] in L. inversion L; subst lst len.
    replace (pos + S j - pos) with (S j) by lia. cbn [skipn].
    apply (spans_empty_pos _ (S pos)). apply spans_skipn_empty. exact Sp.
  - apply (Hnext j p' l' Sp). rewrite <- L. reflexivity.
Qed.

End Spans.

(** *** What [convertOrderBy] leaves *)

Lemma drop_while_app_any f x : forall z,
  drop_while f (x ++ z)
  = if forallb f x then drop_while f z else drop_while f x ++ z.
Proof.
  induction x as [|a x IH]; intros z; [reflexivity|].
  cbn [app drop_while forallb]. destruct (f a); [apply IH|reflexivity].
Qed.

Lemma drop_while_head f s :
  match drop_while f s with a :: _ => f a = false | [] => True end.
Proof.
  induction s as [|a t IH]; cbn [drop_while]; [exact I|].
  destruct (f a) eqn:E; [exact IH|exact E].
Qed.

Lemma order_by_here_inserted suffix : order_by_here ("ORDER BY" ++ suffix) = Some 8.
Proof.
  unfold order_by_here.
  change ("ORDER BY" ++ suffix)
    with ("O"%char :: "R"%char :: "D"%char :: "E"%char :: "R"%char :: " "%char
            :: "B"%char :: "Y"%char :: suffix).
  assert (E1 : forall z, prefix_ok ci "ORDER"
                 ("O"%char :: "R"%char :: "D"%char :: "E"%char :: "R"%char :: z)
               = true) by reflexivity.
  assert (E2 : forall z, prefix_ok ci "BY" ("B"%char :: "Y"%char :: z) = true)
    by reflexivity.
  rewrite E1. cbn [skipn]. change (is_space " ") with true. cbv iota.
  cbn [drop_while]. change (is_space "B") with false. cbv iota.
  rewrite E2. f_equal. cbn [length]. lia.
Qed.

Lemma forallb_drop_while f s :
  forallb f s = false -> drop_while f s <> [].
Proof.
  induction s as [|a t IH]; cbn [forallb drop_while]; [discriminate|].
  destruct (f a); [exact IH|discriminate].
Qed.

(** No occurrence of ORDER BY begins before the words ORDER BY put into a
    text and goes on into them, if none begins there in the text as it
    was. *)
Lemma order_by_here_before_inserted T Y suffix :
  T <> [] ->
  order_by_here (T ++ Y) = None ->
  order_by_here (T ++ "ORDER BY" ++ suffix) = None.
Proof.
  intros HT HY.
  change ("ORDER BY" ++ suffix) with ("O"%char :: "RDER BY" ++ suffix).
  set (X := "RDER BY" ++ suffix).
  destruct T as [|t1 [|t2 [|t3 [|t4 [|t5 T']]]]]; [contradiction| | | | |];
    unfold order_by_here;
    cbn [app String.list_ascii_of_string prefix_ok];
    try (change (ci "R" "O") with false; change (ci "D" "O") with false;
         change (ci "E" "O") with false; cbn [andb];
         rewrite ?andb_false_r; reflexivity).
  unfold order_by_here in HY.
  cbn [app String.list_ascii_of_string prefix_ok] in HY.
  destruct (ci "O" t1 && (ci "R" t2 && (ci "D" t3 && (ci "E" t4 && (ci "R" t5 && true)))));
    [|reflexivity].
  cbn [skipn] in *.
  destruct T' as [|a T'']; cbn [app] in *.
  - change (is_space "O") with false. reflexivity.
  - destruct (is_space a); [|reflexivity].
    rewrite drop_while_app_any in *.
    destruct (forallb is_space T'') eqn:Ef.
    + cbn [drop_while]. change (is_space "O") with false. cbv iota.
      cbn [prefix_ok]. change (ci "B" "O") with false. reflexivity.
    + pose proof (forallb_drop_while _ _ Ef) as Hne.
      destruct (drop_while is_space T'') as [|d1 [|d2 D]]; [congruence| |].
      * cbn [app prefix_ok]. change (ci "Y" "O") with false.
        cbn [andb]. rewrite andb_false_r. reflexivity.
      * cbn [app prefix_ok] in *.
        destruct (ci "B" d1 && (ci "Y" d2 && true)); [discriminate|reflexivity].
Qed.

Lemma convertOrderBy_text sql w :
  fst (Lib.convertOrderBy sql w) =
  match order_by_spans sql with
  | ((first, _) :: _ :: _) as occ =>
      let '(lst, len) := last occ (0, 0) in
      firstn first sql ++ "ORDER BY" ++ skipn (lst + len) sql
  | _ => sql
  end.
Proof.
  unfold Lib.convertOrderBy, match_all, split, order_by_spans.
  rewrite (match_go_spans _ _ order_by_here_ok order_by_here_pos sql [] 0 0).
  pose proof (split_go_first _ _ order_by_here_ok order_by_here_pos sql [] [] 0) as F.
  pose proof (split_go_last _ _ order_by_here_ok order_by_here_pos sql [] [] 0 0) as L.
  destruct (spans order_by_here 0 0 sql) as [|[st1 l1] [|p2 rest]];
    try reflexivity.
  change (1 <? length ((st1, l1) :: p2 :: rest)) with true.
  assert (L' : last_of (split_go Lib.re_order_by [] [] 0 sql)
               = let '(st, len) := last ((st1, l1) :: p2 :: rest) (0, 0) in
                 skipn (st + len - 0) sql) by exact L.
  clear L.
  change (first_of (split_go Lib.re_order_by [] [] 0 sql) ++ "ORDER BY"
            ++ last_of (split_go Lib.re_order_by [] [] 0 sql)
          = let '(lst, len) := last ((st1, l1) :: p2 :: rest) (0, 0) in
            firstn st1 sql ++ "ORDER BY" ++ skipn (lst + len) sql).
  rewrite F, L'.
  destruct (last ((st1, l1) :: p2 :: rest) (0, 0)) as [lst len].
  rewrite !Nat.sub_0_r. reflexivity.
Qed.

Lemma convertOrderBy_few s w :
  length (order_by_spans s) <= 1 -> Lib.convertOrderBy s w = (s, w).
Proof.
  intros H. unfold Lib.convertOrderBy, match_all.
  rewrite (match_go_spans _ _ order_by_here_ok order_by_here_pos s [] 0 0).
  fold (order_by_spans s).
  destruct (1 <? length (order_by_spans s)) eqn:E; [|reflexivity].
  apply Nat.ltb_lt in E. lia.
Qed.

Lemma convertOrderBy_spans_after sql w :
  length (order_by_spans (fst (Lib.convertOrderBy sql w))) <= 1.
Proof.
  rewrite convertOrderBy_text. unfold order_by_spans.
  destruct (spans order_by_here 0 0 sql) as [|[first l1] [|p2 rest]] eqn:Sp;
    [rewrite Sp; cbn; lia|rewrite Sp; cbn; lia|].
  destruct (last ((first, l1) :: p2 :: rest) (0, 0)) as [lst len] eqn:L.
  pose proof (spans_before_first order_by_here sql 0 first l1 _ Sp) as Hb.
  pose proof (spans_after_last order_by_here sql 0 0 _ _ lst len Sp L) as Ha.
  rewrite Nat.sub_0_r in *.
  rewrite spans_dead.
  - change ("ORDER BY" ++ skipn (lst + len) sql)
      with ("O"%char :: "RDER BY" ++ skipn (lst + len) sql).
    cbn [spans].
    change ("O"%char :: "RDER BY" ++ skipn (lst + len) sql)
      with ("ORDER BY" ++ skipn (lst + len) sql).
    rewrite order_by_here_inserted.
    change 7 with (length (list_ascii_of_string "RDER BY")).
    rewrite spans_skip_over.
    rewrite (spans_empty_pos order_by_here _ 0 _ 0 Ha). cbn. lia.
  - intros x1 a x2 E. specialize (Hb x1 a x2 E).
    change (a :: x2 ++ "ORDER BY" ++ skipn (lst + len) sql)
      with ((a :: x2) ++ "ORDER BY" ++ skipn (lst + len) sql).
    rewrite (order_by_here_before_inserted (a :: x2) (skipn first sql));
      [exact I|discriminate|].
    cbn [app].
    destruct (order_by_here (a :: x2 ++ skipn first sql)) as [[|j]|] eqn:Eh;
      [|contradiction|reflexivity].
    exfalso. exact (order_by_here_pos _ Eh).
Qed.

(** After [convertOrderBy] the text has at most one ORDER BY, whatever it
    had before; a second call changes nothing and warns of nothing. *)
Theorem convertOrderBy_leaves_one sql w w' :
  length (order_by_spans (fst (Lib.convertOrderBy sql w))) <= 1
  /\ Lib.convertOrderBy (fst (Lib.convertOrderBy sql w)) w'
     = (fst (Lib.convertOrderBy sql w), w').
Proof.
  split; [apply convertOrderBy_spans_after|].
  apply convertOrderBy_few, convertOrderBy_spans_after.
Qed.

(** *** The rules for the integer types in [converter/index.ts] *)

Lemma word_match w pre s :
  option_map fst (match_here (chars ci w) pre s) = word_here w s.
Proof.
  unfold match_here, word_here. rewrite m_chars.
  destruct (prefix_ok ci w s) eqn:E; [|reflexivity].
  unfold done. cbn [option_map fst]. f_equal.
  rewrite length_skipn. pose proof (prefix_ok_length _ _ _ E). lia.
Qed.

Lemma word_pos w s : w <> [] -> word_here w s <> Some 0.
Proof.
  intros Hw. unfold word_here. destruct (prefix_ok ci w s); [|discriminate].
  destruct w; [congruence|discriminate].
Qed.

Lemma int_or_integer_match pre s :
  option_map fst (match_here (Alt (kw "INT") (kw "INTEGER")) pre s)
  = word_here "INT" s.
Proof.
  unfold match_here, word_here, kw. rewrite m_alt, !m_chars.
  destruct (prefix_ok ci "INT" s) eqn:E.
  - unfold done. cbn [option_map fst]. f_equal.
    rewrite length_skipn. pose proof (prefix_ok_length _ _ _ E). lia.
  - assert (E' : prefix_ok ci "INTEGER" s = false).
    { destruct s as [|a [|b [|c u]]]; cbn in E |- *; try reflexivity;
        repeat match goal with
               | |- context [ci ?x ?y] => destruct (ci x y); cbn in E |- *
               end; congruence. }
    rewrite E'. reflexivity.
Qed.

Lemma put_spans_absent w t : forall s,
  occurs w s = false -> put_spans (word_here w) t 0 s = s.
Proof.
  induction s as [|a u IH]; intros H; [reflexivity|].
  apply occurs_false_cons in H as [H1 H2].
  cbn [put_spans]. unfold word_here at 1. rewrite H1, (IH H2). reflexivity.
Qed.

Lemma replace_word_absent w f t s :
  w <> [] -> (forall x, f x = t) -> occurs w s = false ->
  replace_all (chars ci w) f s = s.
Proof.
  intros Hw Hf H. unfold replace_all.
  rewrite (replace_go_spans (chars ci w) (word_here w) (word_match w)
             (fun s => word_pos w s Hw) f t Hf).
  apply put_spans_absent. exact H.
Qed.

Lemma occurs_number R : occurs "INT" ("NUMBER(38,0)" ++ R) = occurs "INT" R.
Proof. reflexivity. Qed.

Lemma put_int_t s :
  prefix_ok ci "T" s = false ->
  prefix_ok ci "T" (put_spans (word_here "INT") "NUMBER(38,0)" 0 s) = false.
Proof.
  destruct s as [|c u]; [reflexivity|]. intros H.
  cbn [put_spans]. destruct (word_here "INT" (c :: u)) as [[|k]|];
    [exact H|reflexivity|exact H].
Qed.

Lemma put_int_nt s :
  prefix_ok ci "NT" s = false ->
  prefix_ok ci "NT" (put_spans (word_here "INT") "NUMBER(38,0)" 0 s) = false.
Proof.
  destruct s as [|b u]; [reflexivity|]. intros H.
  cbn [put_spans]. destruct (word_here "INT" (b :: u)) as [[|k]|];
    [|reflexivity|].
  - change (prefix_ok ci "NT" (b :: ?x)) with (ci "N" b && prefix_ok ci "T" x).
    change (prefix_ok ci "NT" (b :: u)) with (ci "N" b && prefix_ok ci "T" u) in H.
    destruct (ci "N" b); [|reflexivity]. apply put_int_t. exact H.
  - change (prefix_ok ci "NT" (b :: ?x)) with (ci "N" b && prefix_ok ci "T" x).
    change (prefix_ok ci "NT" (b :: u)) with (ci "N" b && prefix_ok ci "T" u) in H.
    destruct (ci "N" b); [|reflexivity]. apply put_int_t. exact H.
Qed.

Lemma put_int_head a u :
  prefix_ok ci "INT" (a :: u) = false ->
  prefix_ok ci "INT" (a :: put_spans (word_here "INT") "NUMBER(38,0)" 0 u) = false.
Proof.
  change (prefix_ok ci "INT" (a :: ?x)) with (ci "I" a && prefix_ok ci "NT" x).
  intros H. destruct (ci "I" a); [|reflexivity]. apply put_int_nt. exact H.
Qed.

Lemma put_int_clean n : forall s,
  length s <= n ->
  occurs "INT" (put_spans (word_here "INT") "NUMBER(38,0)" 0 s) = false.
Proof.
  induction n as [|n IH]; intros s Hn;
    (destruct s as [|a u]; [reflexivity|]); [simpl in Hn; lia|].
  cbn [put_spans]. unfold word_here at 1.
  destruct (prefix_ok ci "INT" (a :: u)) eqn:E.
  - change (length (list_ascii_of_string "INT")) with 3. cbv iota.
    rewrite occurs_number.
    destruct u as [|b [|c v]].
    + cbn [String.list_ascii_of_string prefix_ok] in E.
      rewrite andb_false_r in E. discriminate.
    + cbn [String.list_ascii_of_string prefix_ok] in E.
      rewrite !andb_false_r in E. discriminate.
    + cbn [put_spans]. apply IH. simpl in Hn. lia.
  - cbn [occurs]. rewrite (put_int_head a u E). cbn [orb].
    apply IH. simpl in Hn. lia.
Qed.

Lemma prefix_ok_skip u w : forall s,
  prefix_ok ci (u ++ w) s = true -> prefix_ok ci w (skipn (length u) s) = true.
Proof.
  induction u as [|c u IH]; intros s H; [exact H|].
  destruct s as [|a s']; [discriminate|].
  cbn [app prefix_ok length skipn] in *. apply andb_prop in H as [_ H].
  apply IH. exact H.
Qed.

Lemma occurs_longer u w : forall s, occurs w s = false -> occurs (u ++ w) s = false.
Proof.
  induction s as [|a t IH]; intros H.
  - cbn [occurs]. rewrite orb_false_r.
    destruct (prefix_ok ci (u ++ w) []) eqn:E; [|reflexivity].
    apply prefix_ok_skip in E. rewrite skipn_nil in E.
    apply occurs_head in H. congruence.
  - pose proof H as H'. apply occurs_false_cons in H' as [_ Ht].
    cbn [occurs]. rewrite (IH Ht), orb_false_r.
    destruct (prefix_ok ci (u ++ w) (a :: t)) eqn:E; [|reflexivity].
    apply prefix_ok_skip in E.
    pose proof (occurs_head _ _ (occurs_skipn w (length u) _ H)). congruence.
Qed.

(** In [convertDataTypes] of [converter/index.ts] the rule for INT, which
    has no word boundary, leaves no INT in the text, so that the rules for
    BIGINT, SMALLINT and TINYINT that follow it never apply; and the
    alternative INTEGER of that rule never applies, INT being tried
    first. *)
Theorem convertDataTypes_dead_rules sql :
  Index.convertDataTypes sql = convertDataTypes_live sql.
Proof.
  unfold Index.convertDataTypes, convertDataTypes_live.
  set (y := replace_all_tpl (kw "STRING") "VARCHAR" sql).
  assert (Ex : replace_all_tpl (Alt (kw "INT") (kw "INTEGER")) "NUMBER(38,0)" y
               = put_spans (word_here "INT") "NUMBER(38,0)" 0 y).
  { unfold replace_all_tpl, replace_all.
    apply (replace_go_spans _ (word_here "INT") int_or_integer_match
             (fun s => word_pos "INT" s ltac:(discriminate)) _ "NUMBER(38,0)"
             (fun _ => eq_refl)). }
  assert (Ei : replace_all_tpl (kw "INT") "NUMBER(38,0)" y
               = put_spans (word_here "INT") "NUMBER(38,0)" 0 y).
  { unfold replace_all_tpl, replace_all, kw.
    apply (replace_go_spans _ (word_here "INT") (word_match "INT")
             (fun s => word_pos "INT" s ltac:(discriminate)) _ "NUMBER(38,0)"
             (fun _ => eq_refl)). }
  rewrite Ex, Ei.
  set (x := put_spans (word_here "INT") "NUMBER(38,0)" 0 y).
  assert (Hx : occurs "INT" x = false) by (apply (put_int_clean (length y)), le_n).
  assert (E1 : replace_all_tpl (kw "BIGINT") "NUMBER(38,0)" x = x).
  { apply (replace_word_absent "BIGINT" _ "NUMBER(38,0)");
      [discriminate|reflexivity|exact (occurs_longer "BIG" "INT" x Hx)]. }
  assert (E2 : replace_all_tpl (kw "SMALLINT") "NUMBER(5,0)" x = x).
  { apply (replace_word_absent "SMALLINT" _ "NUMBER(5,0)");
      [discriminate|reflexivity|exact (occurs_longer "SMALL" "INT" x Hx)]. }
  assert (E3 : replace_all_tpl (kw "TINYINT") "NUMBER(3,0)" x = x).
  { apply (replace_word_absent "TINYINT" _ "NUMBER(3,0)");
      [discriminate|reflexivity|exact (occurs_longer "TINY" "INT" x Hx)]. }
  rewrite E1, E2, E3. reflexivity.
Qed.

(** *** Column definitions in [ddlTransformer.ts] *)

Lemma ws1_miss pre a t : is_space a = false -> match_here ws1 pre (a :: t) = None.
Proof.
  intros H. unfold match_here, ws1, Plus. rewrite m_seq, m_chr, H. reflexivity.
Qed.

Lemma ws1_dead : forall x pre s, no_space x = true -> dead ws1 pre x s.
Proof.
  intros x pre s H x1 a x2 E. apply ws1_miss.
  unfold no_space in H. rewrite forallb_forall in H.
  apply negb_true_iff. apply H. rewrite E. apply in_or_app. right. left. reflexivity.
Qed.

Lemma split_no_space x : no_space x = true -> split ws1 x = [x].
Proof.
  intros H. unfold split. rewrite split_go_end; [reflexivity|].
  apply ws1_dead. exact H.
Qed.

Lemma ws1_hit pre a t :
  is_space a = true ->
  match_here ws1 pre (a :: take_while is_space t ++ drop_while is_space t)
  = Some (S (length (take_while is_space t)), []).
Proof.
  intros H. unfold match_here, ws1. rewrite take_drop_while.
  rewrite (plus_class_max is_space done pre a t [] (drop_while is_space t, [])
             H eq_refl).
  f_equal. f_equal.
  rewrite <- (take_drop_while is_space t) at 1.
  cbn [length]. rewrite length_app. lia.
Qed.

Lemma split_with_space w sp rest :
  no_space w = true -> is_space sp = true ->
  exists p2 l, split ws1 (w ++ sp :: rest) = w :: p2 :: l.
Proof.
  intros Hw Hs. unfold split.
  rewrite (split_go_dead ws1 w [] [] (sp :: rest) (ws1_dead w [] _ Hw)).
  rewrite <- (take_drop_while is_space rest).
  rewrite (split_go_hit ws1 sp (take_while is_space rest) _ _ _ []
             (ws1_hit _ sp rest Hs)).
  rewrite !app_nil_r, rev_involutive.
  destruct (split_go ws1 _ [] 0 (drop_while is_space rest)) as [|p2 l] eqn:E.
  - exfalso. exact (split_go_nonempty ws1 _ _ _ _ E).
  - exists p2, l. reflexivity.
Qed.

Lemma trim_head s :
  match trim s with a :: _ => is_space a = false | [] => True end.
Proof.
  rewrite trim_ends. pose proof (trim_start_head s) as H.
  destruct (trim_start s) as [|a t]; [exact I|].
  cbn [trim_end]. destruct (has_ink (a :: t)); [exact H|exact I].
Qed.

Lemma no_space_split x :
  match x with a :: _ => is_space a = false | [] => True end ->
  no_space x = false ->
  exists w sp rest, x = w ++ sp :: rest /\ no_space w = true /\ is_space sp = true.
Proof.
  induction x as [|a t IH]; intros Hh Hn; [discriminate|].
  unfold no_space in Hn. cbn [forallb] in Hn. rewrite Hh in Hn. cbn [negb andb] in Hn.
  destruct t as [|b u]; [discriminate|].
  destruct (is_space b) eqn:Eb.
  - exists [a], b, u. repeat split; [|exact Eb].
    unfold no_space. cbn. rewrite Hh. reflexivity.
  - destruct (IH eq_refl Hn) as (w & sp & rest & E & Hw & Hs).
    exists (a :: w), sp, rest. rewrite E. repeat split; [|exact Hs].
    unfold no_space in *. cbn [forallb]. rewrite Hh, Hw. reflexivity.
Qed.

Section Columns.

Variable toUpperCase : text -> text.

Lemma parseColumnDefinition_throws def :
  DDLTransformer.parseColumnDefinition toUpperCase def = None
  <-> no_space (trim def) = true.
Proof.
  unfold DDLTransformer.parseColumnDefinition.
  destruct (no_space (trim def)) eqn:E.
  - rewrite (split_no_space _ E). cbn [nth_error]. split; reflexivity.
  - destruct (no_space_split _ (trim_head def) E) as (w & sp & rest & Ex & Hw & Hs).
    rewrite Ex.
    destruct (split_with_space w sp rest Hw Hs) as (p2 & l & Hp).
    rewrite Hp. cbn [nth_error]. split; discriminate.
Qed.

(** [parseColumnDefinitions] throws exactly when one of the definitions,
    trimmed, has no white space in it: a name without a type, or nothing
    at all. *)
Theorem parseColumnDefinitions_throws defs :
  DDLTransformer.parseColumnDefinitions toUpperCase defs = None
  <-> exists def, In def defs /\ no_space (trim def) = true.
Proof.
  induction defs as [|def rest IH]; cbn [DDLTransformer.parseColumnDefinitions].
  - split; [discriminate|intros (d & [] & _)].
  - destruct (DDLTransformer.parseColumnDefinition toUpperCase def) eqn:E.
    + assert (Hd : no_space (trim def) = false).
      { destruct (no_space (trim def)) eqn:N; [|reflexivity].
        apply parseColumnDefinition_throws in N. congruence. }
      destruct (DDLTransformer.parseColumnDefinitions toUpperCase rest) eqn:R.
      * split; [discriminate|].
        intros (d & [<-|Hin] & Hn); [congruence|].
        assert (Hf : Some l = None) by (apply IH; exists d; auto).
        discriminate Hf.
      * split; [|reflexivity]. intros _.
        destruct (proj1 IH eq_refl) as (d & Hin & Hn).
        exists d. split; [right; exact Hin|exact Hn].
    + split; [|reflexivity]. intros _. exists def. split; [left; reflexivity|].
      apply parseColumnDefinition_throws. exact E.
Qed.

End Columns.

(** The definition [2] that the comma inside [DECIMAL(10,2)] cuts off has
    no type: the statement makes [transformCreateTable] throw. *)
Example transformCreateTable_decimal toUpperCase :
  DDLTransformer.transformCreateTable toUpperCase
    "CREATE TABLE t (id INT, price DECIMAL(10,2))" = None.
Proof. vm_compute. reflexivity. Qed.

(** *** The table of types *)

Lemma text_eqb_eq x : forall y, text_eqb x y = true -> x = y.
Proof.
  induction x as [|a x IH]; intros [|b y] H; try discriminate; [reflexivity|].
  cbn [text_eqb] in H. apply andb_prop in H as [H1 H2].
  apply Ascii.eqb_eq in H1. rewrite H1, (IH _ H2). reflexivity.
Qed.

(** The type that the table gives is a type that the table keeps: to map
    a type twice is to map it once. *)
Theorem snowflakeTypeOf_idempotent type :
  DDLTransformer.snowflakeTypeOf (DDLTransformer.snowflakeTypeOf type)
  = DDLTransformer.snowflakeTypeOf type.
Proof.
  assert (Hall : forallb
            (fun m => text_eqb (DDLTransformer.snowflakeTypeOf (snowflakeType m))
                        (snowflakeType m))
            dataTypeMappings = true) by (vm_compute; reflexivity).
  rewrite forallb_forall in Hall.
  unfold DDLTransformer.snowflakeTypeOf at 2 3.
  destruct (find _ dataTypeMappings) as [m|] eqn:F.
  - apply find_some in F as [Hin _]. apply text_eqb_eq, Hall, Hin.
  - unfold DDLTransformer.snowflakeTypeOf. rewrite F. reflexivity.
Qed.

(** *** The indentation of [formatSQL] *)

Lemma indent_lines_throws : forall lines d,
  (exists bad, Lib.indent_lines d lines = inr bad)
  <-> exists k, k < length lines /\ (depth_at d lines k < 0)%Z.
Proof.
  induction lines as [|line rest IH]; intros d; cbn [Lib.indent_lines].
  - split; [intros [bad H]; discriminate|intros (k & Hk & _); simpl in Hk; lia].
  - destruct (d <? 0)%Z eqn:E.
    + apply Z.ltb_lt in E. split; [|intros _; eexists; reflexivity].
      intros _. exists 0. split; [simpl; lia|exact E].
    + apply Z.ltb_ge in E.
      specialize (IH (d + (Lib.count_char "(" line - Lib.count_char ")" line))%Z).
      destruct (Lib.indent_lines _ rest) as [done|bad].
      * split; [intros [b H]; discriminate|].
        intros ([|k] & Hk & Hd); [simpl in Hd; lia|].
        destruct (proj2 IH) as [b Hb]; [|discriminate].
        exists k. split; [simpl in Hk; lia|exact Hd].
      * split; [|intros _; eexists; reflexivity].
        intros _. destruct (proj1 IH) as (k & Hk & Hd); [eexists; reflexivity|].
        exists (S k). split; [simpl; lia|exact Hd].
Qed.

Lemma indent_lines_bad : forall lines d bad,
  Lib.indent_lines d lines = inr bad -> (bad < 0)%Z.
Proof.
  induction lines as [|line rest IH]; intros d bad; cbn [Lib.indent_lines];
    [discriminate|].
  destruct (d <? 0)%Z eqn:E.
  - intros H. inversion H. subst. apply Z.ltb_lt. exact E.
  - destruct (Lib.indent_lines _ rest) as [done|b] eqn:R; [discriminate|].
    intros H. inversion H. subst. exact (IH _ _ R).
Qed.

(** [formatSQL] of [lib/converter.ts] throws, the [RangeError] of
    [repeat], exactly when at the start of some line of the text it has
    laid out more parentheses have been closed than opened; the count it
    then gives to [repeat] is negative. *)
Theorem formatSQL_throws repeatMessage sql :
  ((exists message, Lib.formatSQL repeatMessage sql = Thrown message)
   <-> exists k, k < length (split (Chr (cs LF)) (laid_out sql))
                 /\ (depth_at 0 (split (Chr (cs LF)) (laid_out sql)) k < 0)%Z)
  /\ (forall bad,
        Lib.indent_lines 0 (split (Chr (cs LF)) (laid_out sql)) = inr bad ->
        Lib.formatSQL repeatMessage sql = Thrown (repeatMessage bad)
        /\ (bad < 0)%Z).
Proof.
  unfold Lib.formatSQL. fold (laid_out sql).
  set (lines := split (Chr (cs LF)) (laid_out sql)).
  pose proof (indent_lines_throws lines 0%Z) as Hth.
  split.
  - destruct (Lib.indent_lines 0 lines) as [out|bad] eqn:E.
    + split; [intros [msg H]; discriminate|].
      intros H. destruct (proj2 Hth H) as [b Hb]. discriminate.
    + split; [|intros _; eexists; reflexivity].
      intros _. apply Hth. eexists. reflexivity.
  - intros bad E. rewrite E. split; [reflexivity|].
    exact (indent_lines_bad _ _ _ E).
Qed.

(** A closing parenthesis before the first clause is enough. *)
Example convert_unbalanced repeatMessage :
  success (fst (Lib.convert repeatMessage "SELECT a) FROM t WHERE x" Lib.fresh))
  = false.
Proof. vm_compute. reflexivity. Qed.

(** *** Statements without a Hive construct *)

Lemma replace_go_dead r f : forall x pre,
  dead r pre x [] -> match_here r (rev x ++ pre) [] = None ->
  replace_go r f pre 0 x = x.
Proof.
  induction x as [|a x IH]; intros pre Hd Hn.
  - cbn [replace_go]. cbn [rev app] in Hn. rewrite Hn. reflexivity.
  - apply dead_inv in Hd as [H1 H2]. rewrite app_nil_r in H1.
    cbn [replace_go]. rewrite H1. f_equal. apply IH; [exact H2|].
    cbn [rev] in Hn. rewrite <- app_assoc in Hn. exact Hn.
Qed.

Lemma replace_all_free (w : string) r l f s :
  (w : text) <> [] -> occurs w s = false ->
  replace_all (seqs (kw w :: r :: l)) f s = s.
Proof.
  intros Hw H. unfold replace_all.
  change (seqs (kw w :: r :: l)) with (Seq (chars ci w) (seqs (r :: l))).
  apply replace_go_dead.
  - apply dead_kw_end. exact H.
  - apply kw_miss. destruct (w : text); [congruence|reflexivity].
Qed.

Lemma test_free (w : string) r l s :
  (w : text) <> [] -> occurs w s = false -> test (seqs (kw w :: r :: l)) s = false.
Proof.
  intros Hw H. unfold test, exec.
  change (seqs (kw w :: r :: l)) with (Seq (chars ci w) (seqs (r :: l))).
  rewrite (search_free_kw w _ s [] Hw H). reflexivity.
Qed.

(** A statement in which none of the words stands that the patterns of
    [convertStatement] begin with comes back as it is. *)
Theorem convertStatement_plain sql :
  plain sql = true -> Index.convertStatement sql = sql.
Proof.
  unfold plain, hive_words. cbn [forallb]. intros H.
  repeat match type of H with
         | _ && _ = true => let H1 := fresh "W" in apply andb_prop in H as [H1 H]
         end.
  repeat match goal with
         | W : negb _ = true |- _ => apply negb_true_iff in W
         end.
  clear H.
  unfold Index.convertStatement.
  rewrite (test_free "CREATE") by (try discriminate; assumption).
  rewrite (test_free "INSERT") by (try discriminate; assumption).
  assert (Hf : Index.convertFunctions sql = sql).
  { unfold Index.convertFunctions, replace_all_tpl, Index.re_call2, Index.re_call1.
    rewrite (replace_all_free "unix_timestamp(") by (try discriminate; assumption).
    rewrite (replace_all_free "date_add") by (try discriminate; assumption).
    rewrite (replace_all_free "date_sub") by (try discriminate; assumption).
    rewrite (replace_all_free "collect_set") by (try discriminate; assumption).
    rewrite (replace_all_free "collect_list") by (try discriminate; assumption).
    rewrite (replace_all_free "get_json_object") by (try discriminate; assumption).
    reflexivity. }
  assert (Hw : Index.convertWindowFunctions sql = sql).
  { unfold Index.convertWindowFunctions, Index.re_over.
    apply (replace_all_free "OVER"); [discriminate|assumption]. }
  assert (Hs : Index.convertSelect sql = sql).
  { unfold Index.convertSelect, replace_all_tpl, Index.re_lateral_view.
    rewrite (replace_all_free "LATERAL") by (try discriminate; assumption).
    rewrite (replace_all_free "DISTRIBUTE") by (try discriminate; assumption).
    rewrite (replace_all_free "SORT") by (try discriminate; assumption).
    rewrite Hf. exact Hw. }
  unfold Index.convertWithClause. rewrite Hf, Hw, Hs.
  destruct (test _ sql); reflexivity.
Qed.

Lemma convertStatement_plain_witness :
  plain "SELECT a, max(b) FROM t WHERE a > 1 GROUP BY a" = true
  /\ Index.convertStatement "SELECT a, max(b) FROM t WHERE a > 1 GROUP BY a"
     = "SELECT a, max(b) FROM t WHERE a > 1 GROUP BY a".
Proof.
  split; [vm_compute; reflexivity|].
  apply convertStatement_plain. vm_compute. reflexivity.
Defined.

(** *** The warnings of one request in [lib/converter.ts] *)

Lemma warns_create sql w :
  exists b, snd (Lib.convertCreateTable sql w) = w ++ said b warn_cluster_by.
Proof.
  unfold Lib.convertCreateTable, Lib.bind.
  destruct (test Lib.re_clustered _);
    [exists true|exists false; cbn; rewrite app_nil_r]; reflexivity.
Qed.

Lemma warns_insert sql w :
  exists b, snd (Lib.convertInsertStatements sql w) = w ++ said b warn_insert_overwrite.
Proof.
  unfold Lib.convertInsertStatements, Lib.bind.
  destruct (test Lib.re_insert_overwrite _);
    [exists true|exists false; cbn; rewrite app_nil_r]; reflexivity.
Qed.

Lemma warns_functions sql w : snd (Lib.convertFunctions sql w) = w.
Proof. reflexivity. Qed.

Lemma warns_lateral sql w :
  exists b, snd (Lib.convertLateralView sql w) = w ++ said b warn_lateral_view.
Proof.
  unfold Lib.convertLateralView.
  destruct (test _ sql);
    [exists true|exists false; cbn; rewrite app_nil_r]; reflexivity.
Qed.

Lemma warns_window sql w :
  exists b, snd (Lib.convertWindowFunctions sql w) = w ++ said b warn_range_between.
Proof.
  unfold Lib.convertWindowFunctions.
  destruct (test _ sql);
    [exists true|exists false; cbn; rewrite app_nil_r]; reflexivity.
Qed.

Lemma warns_order sql w :
  exists b, snd (Lib.convertOrderBy sql w) = w ++ said b warn_order_by.
Proof.
  unfold Lib.convertOrderBy.
  destruct (1 <? _);
    [exists true|exists false; cbn; rewrite app_nil_r]; reflexivity.
Qed.

Lemma warns_types sql w : snd (Lib.convertDataTypes sql w) = w.
Proof. reflexivity. Qed.

(** One request adds at most five warnings to those of the converter,
    each of the five messages at most once, in the order of the steps. *)
Theorem convert_warnings_shape repeatMessage sql w :
  exists c o l r b : bool,
    snd (Lib.convert repeatMessage sql w)
    = w ++ said c warn_cluster_by ++ said o warn_insert_overwrite
        ++ said l warn_lateral_view ++ said r warn_range_between
        ++ said b warn_order_by.
Proof.
  unfold Lib.convert, Lib.bind.
  destruct (warns_create (Lib.preprocessSQL sql) w) as [c Hc].
  destruct (Lib.convertCreateTable (Lib.preprocessSQL sql) w) as [s1 w1].
  destruct (warns_insert s1 w1) as [o Ho].
  destruct (Lib.convertInsertStatements s1 w1) as [s2 w2].
  pose proof (warns_functions s2 w2) as Hf.
  destruct (Lib.convertFunctions s2 w2) as [s3 w3].
  destruct (warns_lateral s3 w3) as [l Hl].
  destruct (Lib.convertLateralView s3 w3) as [s4 w4].
  destruct (warns_window s4 w4) as [r Hr].
  destruct (Lib.convertWindowFunctions s4 w4) as [s5 w5].
  destruct (warns_order s5 w5) as [b Hb].
  destruct (Lib.convertOrderBy s5 w5) as [s6 w6].
  pose proof (warns_types s6 w6) as Ht.
  destruct (Lib.convertDataTypes s6 w6) as [s7 w7].
  cbn [snd] in *. subst.
  exists c, o, l, r, b.
  destruct (Lib.formatSQL repeatMessage s7); cbn [snd];
    rewrite <- !app_assoc; reflexivity.
Qed.

(** *** The handler of STRUCT types *)

Lemma lit_char_match (c : ascii) pre s :
  match_here (chars cs [c]) pre s
  = match s with
    | a :: _ => if Ascii.eqb c a then Some (1, []) else None
    | [] => None
    end.
Proof.
  unfold match_here. rewrite m_chars. cbn [prefix_ok].
  destruct s as [|a t]; [reflexivity|]. unfold cs.
  destruct (Ascii.eqb c a); [|reflexivity].
  cbn [andb length skipn firstn rev app]. unfold done. f_equal. f_equal. lia.
Qed.

Lemma lit_char_dead c : forall x pre s, mem c x = false -> dead (chars cs [c]) pre x s.
Proof.
  intros x pre s H x1 a x2 E. rewrite lit_char_match.
  rewrite E in H. apply mem_app_false in H as [_ H]. cbn [mem] in H.
  apply orb_false_iff in H as [H _]. rewrite Ascii.eqb_sym, H. reflexivity.
Qed.

Lemma mem_split c : forall x,
  mem c x = true -> exists w rest, x = w ++ c :: rest /\ mem c w = false.
Proof.
  induction x as [|a t IH]; [discriminate|]. cbn [mem].
  destruct (Ascii.eqb_spec a c) as [->|Hn].
  - intros _. exists [], t. split; reflexivity.
  - cbn [orb]. intros H. destruct (IH H) as (w & rest & E & Hw).
    exists (a :: w), rest. rewrite E. split; [reflexivity|].
    cbn [mem]. rewrite Hw, orb_false_r. apply Ascii.eqb_neq. exact Hn.
Qed.

Lemma split_char_parts c x :
  nth_error (split (chars cs [c]) x) 1 = None <-> mem c x = false.
Proof.
  destruct (mem c x) eqn:E.
  - destruct (mem_split c x E) as (w & rest & Ex & Hw). rewrite Ex.
    unfold split.
    rewrite (split_go_dead _ w [] [] (c :: rest) (lit_char_dead c w [] _ Hw)).
    change (c :: rest) with (c :: [] ++ rest).
    rewrite (split_go_hit (chars cs [c]) c [] _ _ rest []).
    + destruct (split_go _ _ [] 0 rest) as [|p2 l] eqn:Eg.
      * exfalso. exact (split_go_nonempty _ _ _ _ _ Eg).
      * cbn [nth_error]. split; discriminate.
    + rewrite lit_char_match. rewrite Ascii.eqb_refl. reflexivity.
  - unfold split. rewrite split_go_end; [|apply lit_char_dead; exact E].
    cbn [nth_error]. split; reflexivity.
Qed.

Lemma parseField_throws field :
  COMPLEX_TYPE_HANDLERS.parseField field = None <-> mem ":" (trim field) = false.
Proof.
  unfold COMPLEX_TYPE_HANDLERS.parseField, split_str, lit.
  rewrite <- (split_char_parts ":" (trim field)).
  change (chars cs (list_ascii_of_string ":")) with (chars cs [":"%char]).
  destruct (nth_error _ 1); split; congruence.
Qed.

Lemma parseFields_throws fields :
  COMPLEX_TYPE_HANDLERS.parseFields fields = None
  <-> exists field, In field fields /\ mem ":" (trim field) = false.
Proof.
  induction fields as [|field rest IH]; cbn [COMPLEX_TYPE_HANDLERS.parseFields].
  - split; [discriminate|intros (d & [] & _)].
  - destruct (COMPLEX_TYPE_HANDLERS.parseField field) eqn:E.
    + assert (Hd : mem ":" (trim field) = true).
      { destruct (mem ":" (trim field)) eqn:N; [reflexivity|].
        apply parseField_throws in N. congruence. }
      destruct (COMPLEX_TYPE_HANDLERS.parseFields rest) eqn:R.
      * split; [discriminate|].
        intros (d & [<-|Hin] & Hn); [congruence|].
        assert (Hf : Some l = None) by (apply IH; exists d; auto).
        discriminate Hf.
      * split; [|reflexivity]. intros _.
        destruct (proj1 IH eq_refl) as (d & Hin & Hn).
        exists d. split; [right; exact Hin|exact Hn].
    + split; [|reflexivity]. intros _. exists field. split; [left; reflexivity|].
      apply parseField_throws. exact E.
Qed.

(** The handler [struct] returns OBJECT whatever the fields are, unless
    one of them, between commas, has no colon: then it throws. *)
Theorem struct_handler fields :
  (COMPLEX_TYPE_HANDLERS.struct fields = None
   <-> exists field,
         In field (split_str "," fields) /\ mem ":" (trim field) = false)
  /\ (COMPLEX_TYPE_HANDLERS.struct fields = None
      \/ COMPLEX_TYPE_HANDLERS.struct fields = Some ("OBJECT" : text)).
Proof.
  unfold COMPLEX_TYPE_HANDLERS.struct.
  pose proof (parseFields_throws (split_str "," fields)) as H.
  destruct (COMPLEX_TYPE_HANDLERS.parseFields _); split; auto.
  - split; [discriminate|]. intros Hx. apply H in Hx. discriminate.
  - split; [intros _; apply H; reflexivity|reflexivity].
Qed.

(* ================================================================ *)
(** ** Unterminated constructs and insert statements                  *)
(* ================================================================ *)

(* ---------------------------------------------------------------- *)
(** *** C2: texts that end inside a string literal or a block comment *)
(* ---------------------------------------------------------------- *)





(* ---------------------------------------------------------------- *)
(** *** C4: INSERT heads and PARTITION clauses *)
(* ---------------------------------------------------------------- *)

(** *** Words in any letter case *)



Lemma spelt_nil w : spelt w [] = true -> list_ascii_of_string w = [].
Proof.
  unfold spelt. intros H. apply andb_prop in H. destruct H as [_ H].
  apply Nat.eqb_eq in H. destruct (list_ascii_of_string w); [reflexivity|discriminate].
Qed.











(** *** The head of an insert statement *)












(** *** The partition clause *)










(** *** Patterns that do not look behind *)







(** *** Letters that a text does not have *)







(** *** INSERT INTO *)










(** *** The steps of [transformInsert] on one insert statement *)




